(** * NMTV backend: block assembly, bumper interleaving, playlist cache and
      availability tracking

    A shallow embedding of the block-assembly code of [index.js]
    (playlist cache, single-source blocks, multi-source blend, bumper
    interleaving, store/API fallback), of its title, duration and listing
    helpers, and of the video queries, the unavailability tracker, the
    flags and the bumper administration of [db-service.js].

    Conventions of the embedding
    - JS arrays are lists; [arr[i]] out of range is [undefined], written
      [None] where the source can reach it.
    - [async] functions are computations in the monad [M]: they thread the
      mutable module state ([World]) and end by returning ([Ok]), by
      throwing / rejecting ([Throw]), or are still looping when the fuel of
      a [while] loop is used up ([Diverge]).
    - [Math.random()], the upstream video platform, the clock and the
      faults of the store are read from an environment [Env]. *)

From Stdlib Require Import ZArith List String Ascii Bool Lia Permutation.
From stdpp Require Import base gmap strings list pretty.

Import ListNotations.
Local Open Scope string_scope.
Local Open Scope list_scope.
Local Open Scope Z_scope.
Local Open Scope nat_scope.

(** ** Data model *)

(** A video object as the block logic reads it.  A field the source leaves
    out of an object literal ([isBumper], [isLimited]) reads as falsy and
    is [false] here; [artist], [song], [year] and [playlistLabel] may be
    absent. *)
Record Video : Type := mkVideo {
  id : string;
  title : string;
  artist : option string;
  song : option string;
  year : option Z;
  isLimited : bool;
  isBumper : bool;
  playlistLabel : option string
}.

(** Entries of [CHANNELS[channel]] and the custom playlist objects
    [{ id, label: null, isCustom: true }] of [selectRandomPlaylist]. *)
Record Playlist : Type := mkPlaylist {
  pl_id : string;
  pl_label : option string;
  pl_isCustom : bool
}.

(** The value returned to the route handlers:
    [{ playlistLabel, playlistId, items }]. *)
Record Block : Type := mkBlock {
  blk_playlistLabel : option string;
  blk_playlistId : string;
  blk_items : list (option Video)
}.

(** [playlistCache : Map<playlistId, {videos, timestamp}>]. *)
Record CacheEntry : Type := mkCacheEntry {
  videos : list Video;
  timestamp : Z
}.

(** *** The relational store (schema of the README) *)

Record VideoRow : Type := mkVideoRow {
  row_id : Z;                          (* videos.id SERIAL *)
  youtube_video_id : string;           (* UNIQUE NOT NULL *)
  row_title : string;
  row_artist : option string;
  row_song : option string;
  row_year : option Z;
  is_flagged : bool;
  flag_reason : option string;
  unavailable_count : option Z;        (* INT DEFAULT 0, nullable *)
  last_unavailable_at : option Z;      (* TIMESTAMP, ms since the epoch *)
  is_limited : bool
}.

Record PlaylistRow : Type := mkPlaylistRow {
  prow_id : Z;
  prow_name : string
}.

Record BumperRow : Type := mkBumperRow {
  brow_id : Z;
  brow_youtube_video_id : string;
  brow_title : string
}.

Record Database : Type := mkDatabase {
  tbl_videos : list VideoRow;
  tbl_playlists : list PlaylistRow;
  tbl_playlist_videos : list (Z * Z);      (* (playlist_id, video_id) *)
  tbl_channel_playlists : list (string * Z); (* (channel_id, playlist_id) *)
  tbl_bumpers : list BumperRow
}.

(** The playlist objects of the store-backed path: rows of
    [getAllPlaylistsForChannel] ([isCustom: false]) and
    [{ id, isCustom: true }] for caller-supplied ids. *)
Inductive DbPlaylist : Type :=
| StorePlaylist (pid : Z) (name : string)
| CustomPlaylist (cid : string).

Definition dbpl_isCustom (p : DbPlaylist) : bool :=
  match p with StorePlaylist _ _ => false | CustomPlaylist _ => true end.

(** [p.id.toString()] *)
Definition dbpl_idString (p : DbPlaylist) : string :=
  match p with StorePlaylist n _ => pretty n | CustomPlaylist s => s end.

(** The [interval] argument of the interleavers: the string ['shows'] or a
    number; [!interval] holds for the number 0. *)
Inductive Interval : Type :=
| IntervalShows
| IntervalNum (n : nat).

Definition interval_falsy (i : Interval) : bool :=
  match i with IntervalNum 0 => true | _ => false end.

(** The optional [errorCode] of a failure report.  The route hands the
    JSON value of the request body to [markVideoUnavailable] unchecked, and
    the function reads two things of it: whether it is truthy, and the
    string a template literal makes of it.  [NoCode] is a missing code or
    [null]; [StrCode] is a JSON string; [OtherCode] is any other JSON value
    (a number, a boolean, an array, an object), given by its truthiness and
    its string: [OtherCode true "150"] for 150, [OtherCode true "1e+21"]
    for 1e21, [OtherCode false "0"] for 0, [OtherCode true "true"] for
    [true].  An object with a property 'toString' of its own has no string
    (the template literal throws a TypeError) and is not a code here; nor
    is a string with a NUL character, which a TEXT column refuses. *)
Inductive ErrorCode : Type :=
| NoCode
| OtherCode (isTruthy : bool) (text : string)
| StrCode (s : string).

(** JS truthiness of an error code. *)
Definition errorCode_truthy (c : ErrorCode) : bool :=
  match c with
  | NoCode => false
  | OtherCode isTruthy _ => isTruthy
  | StrCode s => negb (String.eqb s "")
  end.

(** [`${errorCode}`] *)
Definition errorCode_toString (c : ErrorCode) : string :=
  match c with
  | NoCode => "null"
  | OtherCode _ text => text
  | StrCode s => s
  end.

(** ** Environment and mutable state *)

(** What one upstream listing ([fetchPlaylistItems]) does: how long it
    takes and whether it resolves with videos or rejects.  It rejects
    only without an API key; a request that fails ends its paging loop and
    the listing resolves with the videos of the pages before it. *)
Record Response : Type := mkResponse {
  elapsed : Z;
  payload : list Video + string
}.

Record SpecialEventConfig : Type := mkSpecial {
  sp_enabled : bool;
  sp_playlists : list Playlist
}.

Record Env : Type := mkEnv {
  USE_DATABASE : bool;
  CHANNELS : string -> option (list Playlist);
  SPECIAL_EVENT_CONFIG : SpecialEventConfig;
  (* Date.now() *)
  now : Z;
  (* the k-th result of Math.random(), scaled: floor(random * n) is
     [rnd k mod n] *)
  rnd : nat -> nat;
  (* arr.sort(() => Math.random() - 0.5): some rearrangement of arr *)
  sortRandom : forall A : Type, nat -> list A -> list A;
  (* ORDER BY RANDOM() *)
  sqlRandom : nat -> list VideoRow -> list VideoRow;
  (* fetchPlaylistItems(playlistId, maxVideos, channel), k-th call *)
  youtube : nat -> string -> option nat -> option string -> Response;
  (* getPlaylistName(playlistId): the title or null *)
  playlistName : string -> option string;
  (* the k-th store query fails with this message *)
  dbFault : nat -> option string;
  (* iterations granted to each while loop *)
  fuel : nat
}.

(** The well-formedness of the two rearranging oracles. *)
Definition EnvOk (env : Env) : Prop :=
  (forall A k (l : list A), Permutation (sortRandom env A k l) l) /\
  (forall k l, Permutation (sqlRandom env k l) l).

Record World : Type := mkWorld {
  playlistCache : gmap string CacheEntry;
  bumpersCache : option (list Video);
  (* the 'bumpers:all' entry of the db-service cache: value, timestamp *)
  dbBumpersCache : option (list BumperRow * Z);
  database : Database;
  (* Math.random() draws made so far *)
  rndPos : nat;
  (* playlist ids passed to fetchPlaylistItems, latest first *)
  upstreamCalls : list string;
  (* store queries issued so far *)
  dbQueries : nat
}.

Definition set_playlistCache (c : gmap string CacheEntry) (w : World) : World :=
  mkWorld c (bumpersCache w) (dbBumpersCache w) (database w) (rndPos w)
          (upstreamCalls w) (dbQueries w).

Definition set_dbBumpersCache (c : option (list BumperRow * Z)) (w : World) : World :=
  mkWorld (playlistCache w) (bumpersCache w) c (database w) (rndPos w)
          (upstreamCalls w) (dbQueries w).

Definition set_database (d : Database) (w : World) : World :=
  mkWorld (playlistCache w) (bumpersCache w) (dbBumpersCache w) d (rndPos w)
          (upstreamCalls w) (dbQueries w).

Definition set_rndPos (n : nat) (w : World) : World :=
  mkWorld (playlistCache w) (bumpersCache w) (dbBumpersCache w) (database w) n
          (upstreamCalls w) (dbQueries w).

Definition set_upstreamCalls (l : list string) (w : World) : World :=
  mkWorld (playlistCache w) (bumpersCache w) (dbBumpersCache w) (database w)
          (rndPos w) l (dbQueries w).

Definition set_dbQueries (n : nat) (w : World) : World :=
  mkWorld (playlistCache w) (bumpersCache w) (dbBumpersCache w) (database w)
          (rndPos w) (upstreamCalls w) n.

(** ** The monad of the asynchronous code *)

Inductive Outcome (A : Type) : Type :=
| Ok (a : A)
| Throw (msg : string)
| Diverge.

Arguments Ok {A} a.
Arguments Throw {A} msg.
Arguments Diverge {A}.

Definition M (A : Type) : Type := World -> Outcome A * World.

Definition ret {A} (a : A) : M A := fun w => (Ok a, w).

Definition bind {A B} (m : M A) (k : A -> M B) : M B :=
  fun w =>
    match m w with
    | (Ok a, w') => k a w'
    | (Throw e, w') => (Throw e, w')
    | (Diverge, w') => (Diverge, w')
    end.

Definition throw {A} (msg : string) : M A := fun w => (Throw msg, w).

Definition diverge {A} : M A := fun w => (Diverge, w).

(** [try { m } catch (e) { h e }] *)
Definition tryCatch {A} (m : M A) (h : string -> M A) : M A :=
  fun w =>
    match m w with
    | (Throw e, w') => h e w'
    | r => r
    end.

Definition gets {A} (f : World -> A) : M A := fun w => (Ok (f w), w).
Definition modify (f : World -> World) : M unit := fun w => (Ok tt, f w).

Notation "'let*' x ':=' m 'in' k" := (bind m (fun x => k))
  (at level 10, x pattern, m at level 100, k at level 200).
Notation "'do' m 'then' k" := (bind m (fun _ => k))
  (at level 10, m at level 100, k at level 200).

(** [await Promise.all(xs.map(f))] for computations that do not read what
    another of them writes (listings of different playlists, queries under
    different cache keys): each [f x] is run to its end, in the order in
    which they are started; the result rejects when one of them does (the
    first in list order is reported).  Calls of [getPlaylistVideos] that
    run side by side share the playlist cache and are not modelled by this
    function but by [startGetPlaylistVideos] and [settleAll]. *)
Fixpoint promiseAll {A B} (f : A -> M B) (xs : list A) : M (list B) :=
  match xs with
  | [] => ret []
  | x :: xs' =>
      fun w =>
        let '(r, w1) := f x w in
        let '(rs, w2) := promiseAll f xs' w1 in
        (match r, rs with
         | Ok b, Ok bs => Ok (b :: bs)
         | Ok _, Throw e => Throw e
         | Ok _, Diverge => Diverge
         | Throw e, _ => Throw e
         | Diverge, _ => Diverge
         end, w2)
  end.

Fixpoint mapM {A B} (f : A -> M B) (xs : list A) : M (list B) :=
  match xs with
  | [] => ret []
  | x :: xs' =>
      let* b := f x in
      let* bs := mapM f xs' in
      ret (b :: bs)
  end.

(** ** Randomness *)

(** [Math.floor(Math.random() * n)] *)
Definition randomBelow (env : Env) (n : nat) : M nat :=
  fun w =>
    (Ok (match n with 0 => 0 | S _ => rnd env (rndPos w) mod n end),
     set_rndPos (S (rndPos w)) w).

(** [arr[Math.floor(Math.random() * arr.length)]] *)
Definition pickRandom {A} (env : Env) (arr : list A) : M (option A) :=
  let* i := randomBelow env (length arr) in
  ret (arr !! i).

(** [[...arr].sort(() => Math.random() - 0.5)] *)
Definition sortShuffled {A} (env : Env) (arr : list A) : M (list A) :=
  fun w => (Ok (sortRandom env A (rndPos w) arr), set_rndPos (S (rndPos w)) w).

(** [[arr[i], arr[j]] = [arr[j], arr[i]]]; both indices are in range where
    [shuffle] uses it. *)
Definition swap {A} (arr : list A) (i j : nat) : list A :=
  match arr !! i, arr !! j with
  | Some x, Some y => <[j := x]> (<[i := y]> arr)
  | _, _ => arr
  end.

(** The loop of [shuffle], from index [i] down to 1; [pos] is the number of
    the next random draw. *)
Fixpoint shuffleLoop {A} (env : Env) (pos : nat) (i : nat) (arr : list A) : list A :=
  match i with
  | 0 => arr
  | S i' =>
      let j := rnd env pos mod (S i) in
      shuffleLoop env (S pos) i' (swap arr i j)
  end.

(** [shuffle(arr)]: Fisher-Yates, one draw per index from [length - 1] down
    to 1.  The source shuffles in place; callers that hold the array of a
    cache entry write the result back. *)
Definition shuffle {A} (env : Env) (arr : list A) : M (list A) :=
  fun w =>
    (Ok (shuffleLoop env (rndPos w) (length arr - 1) arr),
     set_rndPos (rndPos w + (length arr - 1)) w).

(** ** List helpers of index.js *)

(** [dedupe(videos)]: keep the first video of every id. *)
Fixpoint dedupeFrom (seenIds : gset string) (vs : list Video) : list Video :=
  match vs with
  | [] => []
  | v :: rest =>
      if decide (id v ∈ seenIds) then dedupeFrom seenIds rest
      else v :: dedupeFrom ({[ id v ]} ∪ seenIds) rest
  end.

Definition dedupe (vs : list Video) : list Video := dedupeFrom ∅ vs.

(** [videos.filter(v => !excludeSet.has(v.id))] *)
Definition excludeIds (excludeVideoIds : list string) (vs : list Video) : list Video :=
  let excludeSet : gset string := list_to_set excludeVideoIds in
  filter (fun v => id v ∉ excludeSet) vs.

Definition isIdChar (c : ascii) : bool :=
  let n := nat_of_ascii c in
  ((97 <=? n) && (n <=? 122)) || ((65 <=? n) && (n <=? 90)) ||
  ((48 <=? n) && (n <=? 57)) || (n =? 95) || (n =? 45).

Fixpoint allChars (p : ascii -> bool) (s : string) : bool :=
  match s with
  | EmptyString => true
  | String c s' => p c && allChars p s'
  end.

(** [/^[a-zA-Z0-9_-]{13,}$/.test(playlistId)] *)
Definition isValidPlaylistId (playlistId : string) : bool :=
  (13 <=? String.length playlistId) && allChars isIdChar playlistId.

(** *** mixVideos *)

(** One pass of the [for] loop over the custom playlists: a playlist whose
    index is in range gives its next video. *)
Fixpoint roundRobinPass (customPlaylists : list (list Video)) (playlistIndices : list nat)
  : list Video * list nat * bool :=
  match customPlaylists, playlistIndices with
  | playlist :: ps, index :: ks =>
      let '(pushed, ks', more) := roundRobinPass ps ks in
      match playlist !! index with
      | Some v => (v :: pushed, S index :: ks', true)
      | None => (pushed, index :: ks', more)
      end
  | _, _ => ([], [], false)
  end.

(** [while (hasMore && weightedCustom.length < 100)].  A pass that leaves
    [hasMore] set has pushed a video, so 101 passes always end the loop. *)
Fixpoint roundRobinLoop (passes : nat) (customPlaylists : list (list Video))
    (weightedCustom : list Video) (playlistIndices : list nat) (hasMore : bool)
  : list Video :=
  match passes with
  | 0 => weightedCustom
  | S passes' =>
      if hasMore && (length weightedCustom <? 100) then
        let '(pushed, ks, more) := roundRobinPass customPlaylists playlistIndices in
        roundRobinLoop passes' customPlaylists (weightedCustom ++ pushed) ks more
      else weightedCustom
  end.

Definition roundRobin (customPlaylists : list (list Video)) : list Video :=
  roundRobinLoop 101 customPlaylists []
    (replicate (length customPlaylists) 0) true.

(** Step 6 of [mixVideos]: for each [i], push [uniqueCustom[i]] and then
    [uniqueOfficial[i]] where they exist. *)
Definition interleave (uniqueCustom uniqueOfficial : list Video) : list Video :=
  flat_map (fun i => option_list (uniqueCustom !! i) ++ option_list (uniqueOfficial !! i))
           (seq 0 (Nat.max (length uniqueCustom) (length uniqueOfficial))).

(** The part of [mixVideos] after the custom playlists are shuffled. *)
Definition mixShuffled (customPlaylists : list (list Video)) (officialVideos : list Video)
  : list Video :=
  let weightedCustom := roundRobin customPlaylists in
  let customIds : gset string := list_to_set (map id weightedCustom) in
  let officialIds : gset string := list_to_set (map id officialVideos) in
  let uniqueCustom := filter (fun v => id v ∉ officialIds) weightedCustom in
  let uniqueOfficial := filter (fun v => id v ∉ customIds) officialVideos in
  let maxPerSource := Nat.min (length uniqueCustom) (length uniqueOfficial) in
  interleave (take maxPerSource uniqueCustom) (take maxPerSource uniqueOfficial).

Definition mixVideos (env : Env) (customPlaylistResults : list (list Video))
    (officialVideos : list Video) : M (list Video) :=
  if length customPlaylistResults =? 0 then ret officialVideos
  else if length officialVideos =? 0 then
    shuffle env (dedupe (concat customPlaylistResults))
  else
    let* customPlaylists :=
      mapM (shuffle env) (filter (fun arr => 0 < length arr) customPlaylistResults) in
    if length customPlaylists =? 0 then ret officialVideos
    else ret (mixShuffled customPlaylists officialVideos).

(** ** db-service.js *)

(** [await client.query(...)]: the query is counted; it rejects when the
    environment makes it fail and answers from the tables otherwise.  The
    argument of [run] is the number of the query. *)
Definition dbQuery {A} (env : Env) (run : nat -> Database -> A) : M A :=
  fun w =>
    let k := dbQueries w in
    match dbFault env k with
    | Some e => (Throw e, set_dbQueries (S k) w)
    | None => (Ok (run k (database w)), set_dbQueries (S k) w)
    end.

(** An [UPDATE] statement. *)
Definition dbExec (env : Env) (run : Database -> Database) : M unit :=
  fun w =>
    let k := dbQueries w in
    match dbFault env k with
    | Some e => (Throw e, set_dbQueries (S k) w)
    | None => (Ok tt, set_database (run (database w)) (set_dbQueries (S k) w))
    end.

Definition set_tbl_videos (vs : list VideoRow) (db : Database) : Database :=
  mkDatabase vs (tbl_playlists db) (tbl_playlist_videos db)
             (tbl_channel_playlists db) (tbl_bumpers db).

(** [ORDER BY p.id] *)
Fixpoint insertById (p : PlaylistRow) (l : list PlaylistRow) : list PlaylistRow :=
  match l with
  | [] => [p]
  | q :: l' => if (prow_id p <=? prow_id q)%Z then p :: q :: l' else q :: insertById p l'
  end.

Definition orderById (l : list PlaylistRow) : list PlaylistRow :=
  foldr insertById [] l.

(** [FROM playlists p JOIN channel_playlists cp ON p.id = cp.playlist_id
     WHERE cp.channel_id = $1 ORDER BY p.id] *)
Definition selectPlaylistsForChannel (channelId : string) (db : Database) : list PlaylistRow :=
  orderById
    (flat_map (fun p =>
       flat_map (fun cp : string * Z =>
         if String.eqb (fst cp) channelId && (snd cp =? prow_id p)%Z then [p] else [])
       (tbl_channel_playlists db))
     (tbl_playlists db)).

Definition getAllPlaylistsForChannel (env : Env) (channelId : string) : M (list DbPlaylist) :=
  let* rows := dbQuery env (fun _ => selectPlaylistsForChannel channelId) in
  ret (map (fun row => StorePlaylist (prow_id row) (prow_name row)) rows).

(** [FROM videos v JOIN playlist_videos pv ON v.id = pv.video_id
     JOIN playlists p ON pv.playlist_id = p.id
     WHERE p.id = $1 AND v.is_flagged = false
     [AND v.youtube_video_id NOT IN (...)]]; the [NOT IN] clause is added
    only for a non-empty exclusion list. *)
Definition selectVideos (playlistId : Z) (excludeVideoIds : list string) (db : Database)
  : list VideoRow :=
  flat_map (fun v =>
    flat_map (fun pv : Z * Z =>
      flat_map (fun p =>
        if (row_id v =? snd pv)%Z && (fst pv =? prow_id p)%Z
           && (prow_id p =? playlistId)%Z
           && negb (is_flagged v)
           && (if length excludeVideoIds =? 0 then true
               else negb (existsb (String.eqb (youtube_video_id v)) excludeVideoIds))
        then [v] else [])
      (tbl_playlists db))
    (tbl_playlist_videos db))
  (tbl_videos db).

(** [if (limit) query += ` LIMIT ${parseInt(limit)}`] *)
Definition sqlLimit {A} (limit : option nat) (rows : list A) : list A :=
  match limit with
  | None | Some 0 => rows
  | Some n => take n rows
  end.

(** [getVideosByPlaylistId(playlistId, limit, excludeVideoIds)]; the value
    is the [videos] field of the result, the only one the callers read. *)
Definition getVideosByPlaylistId (env : Env) (playlistId : Z) (limit : option nat)
    (excludeVideoIds : list string) : M (list VideoRow) :=
  dbQuery env (fun k db =>
    sqlLimit limit (sqlRandom env k (selectVideos playlistId excludeVideoIds db))).

Definition CACHE_TTL_BUMPERS : Z := 24 * 60 * 60 * 1000.

(** [getCached('bumpers:all')]: an expired entry is deleted. *)
Definition getCachedBumpers (env : Env) : M (option (list BumperRow)) :=
  fun w =>
    match dbBumpersCache w with
    | None => (Ok None, w)
    | Some (value, ts) =>
        if (CACHE_TTL_BUMPERS <? now env - ts)%Z
        then (Ok None, set_dbBumpersCache None w)
        else (Ok (Some value), w)
    end.

(** [FROM bumpers ORDER BY id] *)
Fixpoint insertBumperById (b : BumperRow) (l : list BumperRow) : list BumperRow :=
  match l with
  | [] => [b]
  | c :: l' => if (brow_id b <=? brow_id c)%Z then b :: c :: l' else c :: insertBumperById b l'
  end.

Definition selectBumpers (db : Database) : list BumperRow :=
  foldr insertBumperById [] (tbl_bumpers db).

Definition bumperOfRow (b : BumperRow) : Video :=
  mkVideo (brow_youtube_video_id b) (brow_title b) None None None false true None.

(** [getRandomBumpers(count)] *)
Definition getRandomBumpers (env : Env) (count : nat) : M (list Video) :=
  let* cached := getCachedBumpers env in
  let* bumpers :=
    match cached with
    | Some bumpers => ret bumpers
    | None =>
        let* rows := dbQuery env (fun _ => selectBumpers) in
        do modify (set_dbBumpersCache (Some (rows, now env))) then
        ret rows
    end in
  let* shuffled := sortShuffled env bumpers in
  ret (map bumperOfRow (take count shuffled)).

(** *** The unavailability tracker ([markVideoUnavailable]) *)

Definition THIRTY_DAYS : Z := 30 * 24 * 60 * 60 * 1000.
Definition FLAG_THRESHOLD : Z := 50.

(** The counter a report gives a row: 1 when there is no earlier report or
    it is older than thirty days, else [(unavailable_count || 0) + 1]. *)
Definition newCountOf (nowMs : Z) (video : VideoRow) : Z :=
  let thirtyDaysAgo := (nowMs - THIRTY_DAYS)%Z in
  match last_unavailable_at video with
  | None => 1%Z
  | Some t =>
      if (t <? thirtyDaysAgo)%Z then 1%Z
      else (default 0%Z (unavailable_count video) + 1)%Z
  end.

Definition shouldFlagAt (newCount : Z) : bool := (FLAG_THRESHOLD <=? newCount)%Z.

Definition flagReasonOf (newCount : Z) (errorCode : ErrorCode) : string :=
  if errorCode_truthy errorCode then
    ("Auto-flagged: " ++ pretty newCount ++ " unavailable reports (Error: "
       ++ errorCode_toString errorCode ++ ")")%string
  else
    ("Auto-flagged: " ++ pretty newCount ++ " unavailable reports")%string.

(** The two [UPDATE videos SET ... WHERE youtube_video_id = $n] statements,
    on one row. *)
Definition updateReported (youtubeVideoId : string) (newCount nowMs : Z)
    (flagReason : option string) (v : VideoRow) : VideoRow :=
  if String.eqb (youtube_video_id v) youtubeVideoId then
    match flagReason with
    | Some reason =>
        mkVideoRow (row_id v) (youtube_video_id v) (row_title v) (row_artist v)
                   (row_song v) (row_year v) true (Some reason)
                   (Some newCount) (Some nowMs) (is_limited v)
    | None =>
        mkVideoRow (row_id v) (youtube_video_id v) (row_title v) (row_artist v)
                   (row_song v) (row_year v) (is_flagged v) (flag_reason v)
                   (Some newCount) (Some nowMs) (is_limited v)
    end
  else v.

(** [markVideoUnavailable(youtubeVideoId, errorCode)].  The closing
    [clearCache('videos:')] removes the cache keys that contain 'videos:';
    the one key modelled here, 'bumpers:all', is not among them. *)
Definition markVideoUnavailable (env : Env) (youtubeVideoId : string)
    (errorCode : ErrorCode) : M unit :=
  let* rows := dbQuery env (fun _ db =>
    filter (fun v => youtube_video_id v = youtubeVideoId) (tbl_videos db)) in
  match rows with
  | [] => ret tt
  | video :: _ =>
      let newCount := newCountOf (now env) video in
      let flagReason :=
        if shouldFlagAt newCount then Some (flagReasonOf newCount errorCode) else None in
      dbExec env (fun db =>
        set_tbl_videos
          (map (updateReported youtubeVideoId newCount (now env) flagReason) (tbl_videos db))
          db)
  end.

(** ** index.js: playlist cache and source fetcher *)

Definition CACHE_DURATION : Z := 24 * 60 * 60 * 1000.

(** One call of the upstream listing; the call is logged. *)
Definition upstream (env : Env) (playlistId : string) (maxVideos : option nat)
    (channel : option string) : M Response :=
  fun w =>
    (Ok (youtube env (length (upstreamCalls w)) playlistId maxVideos channel),
     set_upstreamCalls (playlistId :: upstreamCalls w) w).

Definition settle (r : Response) : M (list Video) :=
  match payload r with
  | inl vs => ret vs
  | inr e => throw e
  end.

(** [await fetchPlaylistItems(playlistId, maxVideos, channel)] *)
Definition fetchPlaylistItems (env : Env) (playlistId : string) (maxVideos : option nat)
    (channel : option string) : M (list Video) :=
  let* r := upstream env playlistId maxVideos channel in
  settle r.

(** [await Promise.race([fetchPlaylistItems(...), timeoutPromise])] *)
Definition fetchWithTimeout (env : Env) (playlistId : string) (maxVideos : option nat)
    (channel : option string) (actualTimeout : Z) : M (list Video) :=
  let* r := upstream env playlistId maxVideos channel in
  if (elapsed r <? actualTimeout)%Z then settle r
  else throw ("Playlist fetch timeout after " ++ pretty actualTimeout ++ "ms")%string.

(** [timeout || (maxVideos ? 15000 : 60000)] *)
Definition actualTimeoutOf (maxVideos : option nat) (timeout : option Z) : Z :=
  match timeout with
  | Some t => if (t =? 0)%Z then
                match maxVideos with Some (S _) => 15000%Z | _ => 60000%Z end
              else t
  | None => match maxVideos with Some (S _) => 15000%Z | _ => 60000%Z end
  end.

Definition cachePut (playlistId : string) (vs : list Video) (ts : Z) : M unit :=
  modify (fun w =>
    set_playlistCache (<[ playlistId := mkCacheEntry vs ts ]> (playlistCache w)) w).

(** The [try]/[catch] of [getPlaylistVideos], reached on a miss or an
    expired entry. *)
Definition fetchAndCache (env : Env) (playlistId : string) (maxVideos : option nat)
    (timeout : option Z) (channel : option string) : M (list Video) :=
  tryCatch
    (let* vs := fetchWithTimeout env playlistId maxVideos channel
                  (actualTimeoutOf maxVideos timeout) in
     do cachePut playlistId vs (now env) then
     ret vs)
    (fun _ =>
       do cachePut playlistId [] (now env) then
       ret []).

Definition getPlaylistVideos (env : Env) (playlistId : string) (maxVideos : option nat)
    (timeout : option Z) (channel : option string) : M (list Video) :=
  let* cached := gets (fun w => playlistCache w !! playlistId) in
  match cached with
  | Some c =>
      if (now env - timestamp c <? CACHE_DURATION)%Z then ret (videos c)
      else fetchAndCache env playlistId maxVideos timeout channel
  | None => fetchAndCache env playlistId maxVideos timeout channel
  end.

(** *** Fetches that run side by side

    A [getPlaylistVideos] that is called without being awaited at once
    (its promise goes into a [Promise.all]) runs up to its first [await]:
    it reads the cache and, on a miss or an expired entry, calls
    [fetchPlaylistItems], which sends its first request.  It writes its
    cache entry when it settles, after every call of the same
    [Promise.all] was started. *)
Inductive Started : Type :=
| Hit (vs : list Video)
| Fetching (playlistId : string) (vs : list Video) (after : Z).

(** The part of [getPlaylistVideos] past the cache test, up to the
    [await]: the listing is started; the call will settle with its videos,
    or with the empty list when the listing rejects or the timeout comes
    first. *)
Definition startFetch (env : Env) (playlistId : string) (maxVideos : option nat)
    (timeout : option Z) (channel : option string) : M Started :=
  let actualTimeout := actualTimeoutOf maxVideos timeout in
  let* r := upstream env playlistId maxVideos channel in
  if (elapsed r <? actualTimeout)%Z then
    match payload r with
    | inl vs => ret (Fetching playlistId vs (elapsed r))
    | inr _ => ret (Fetching playlistId [] (elapsed r))
    end
  else ret (Fetching playlistId [] actualTimeout).

Definition startGetPlaylistVideos (env : Env) (playlistId : string) (maxVideos : option nat)
    (timeout : option Z) (channel : option string) : M Started :=
  let* cached := gets (fun w => playlistCache w !! playlistId) in
  match cached with
  | Some c =>
      if (now env - timestamp c <? CACHE_DURATION)%Z then ret (Hit (videos c))
      else startFetch env playlistId maxVideos timeout channel
  | None => startFetch env playlistId maxVideos timeout channel
  end.

(** What the call resolves with, and how long after its start. *)
Definition resolvedWith (s : Started) : list Video :=
  match s with Hit vs => vs | Fetching _ vs _ => vs end.

Definition settledAfter (s : Started) : Z :=
  match s with Hit _ => 0%Z | Fetching _ _ after => after end.

(** [playlistCache.set(playlistId, { videos, timestamp: now })] of a call
    that settles; a hit writes nothing. *)
Definition settleStarted (env : Env) (s : Started) : M unit :=
  match s with
  | Hit _ => ret tt
  | Fetching playlistId vs _ => cachePut playlistId vs (now env)
  end.

(** The started calls in the order in which they settle; calls that settle
    at the same time are kept in the order in which they were started. *)
Fixpoint insertSettling (s : Started) (l : list Started) : list Started :=
  match l with
  | [] => [s]
  | x :: l' =>
      if (settledAfter x <? settledAfter s)%Z then x :: insertSettling s l'
      else s :: x :: l'
  end.

Definition inSettlingOrder (l : list Started) : list Started := foldr insertSettling [] l.

Definition settleAll (env : Env) (l : list Started) : M unit :=
  let* _ := mapM (settleStarted env) (inSettlingOrder l) in
  ret tt.

(** [shuffle] works in place: when its argument is the array held by the
    cache entry of [playlistId], the entry sees the new order. *)
Definition writeBack (playlistId : string) (arr : list Video) : M unit :=
  modify (fun w =>
    set_playlistCache
      (alter (fun c => mkCacheEntry arr (timestamp c)) playlistId (playlistCache w)) w).

(** ** Bumper interleaving *)

(** [i === 1 || i === 5 || i === 9 || i === 11] *)
Definition isBumperSlot (i : nat) : bool :=
  (i =? 1) || (i =? 5) || (i =? 9) || (i =? 11).

(** [shuffledBumpers[bumperIndex % shuffledBumpers.length]] *)
Definition bumperAt (shuffledBumpers : list Video) (bumperIndex : nat) : option Video :=
  shuffledBumpers !! (bumperIndex mod length shuffledBumpers).

(** The [for] loop of the music/live pattern, from index [i] on. *)
Fixpoint positionalLoop (shuffledBumpers : list Video) (i bumperIndex : nat)
    (vs : list Video) : list (option Video) :=
  match vs with
  | [] => []
  | v :: rest =>
      if isBumperSlot i then
        Some v :: bumperAt shuffledBumpers bumperIndex
               :: positionalLoop shuffledBumpers (S i) (S bumperIndex) rest
      else Some v :: positionalLoop shuffledBumpers (S i) bumperIndex rest
  end.

Definition insertBumpersIntoBlock (env : Env) (vs : list Video) (interval : Interval)
  : M (list (option Video)) :=
  let* cache := gets bumpersCache in
  match cache with
  | None => ret (map Some vs)
  | Some bumpers =>
      if (length bumpers =? 0) || interval_falsy interval then ret (map Some vs)
      else
        let* shuffledBumpers := sortShuffled env bumpers in
        match interval with
        | IntervalShows =>
            ret [vs !! 0; bumperAt shuffledBumpers 0;
                 vs !! 1; vs !! 2; bumperAt shuffledBumpers 1]
        | IntervalNum _ => ret (positionalLoop shuffledBumpers 0 0 vs)
        end
  end.

(** The [do ... while (bumperIndex === lastBumperIndex)] of
    [getRandomBumper]. *)
Fixpoint drawBumperIndex (env : Env) (steps : nat) (n : nat) (lastBumperIndex : option nat)
  : M nat :=
  match steps with
  | 0 => diverge
  | S steps' =>
      let* bumperIndex := randomBelow env n in
      if decide (Some bumperIndex = lastBumperIndex)
      then drawBumperIndex env steps' n lastBumperIndex
      else ret bumperIndex
  end.

(** The closure [getRandomBumper]; [lastBumperIndex] ([None] for -1) is
    passed in and out. *)
Definition getRandomBumper (env : Env) (bumpers : list Video) (lastBumperIndex : option nat)
  : M (option Video * option nat) :=
  if length bumpers =? 1 then ret (bumpers !! 0, lastBumperIndex)
  else
    let* bumperIndex := drawBumperIndex env (fuel env) (length bumpers) lastBumperIndex in
    ret (bumpers !! bumperIndex, Some bumperIndex).

(** [videos.forEach((video, index) => ...)] of the music/live pattern. *)
Fixpoint positionalLoopDB (env : Env) (bumpers : list Video) (index : nat)
    (lastBumperIndex : option nat) (vs : list Video) : M (list (option Video)) :=
  match vs with
  | [] => ret []
  | v :: rest =>
      if isBumperSlot index then
        let* bl := getRandomBumper env bumpers lastBumperIndex in
        let* tl := positionalLoopDB env bumpers (S index) (snd bl) rest in
        ret (Some v :: fst bl :: tl)
      else
        let* tl := positionalLoopDB env bumpers (S index) lastBumperIndex rest in
        ret (Some v :: tl)
  end.

Definition insertBumpersIntoBlockFromDB (env : Env) (vs : list Video) (bumpers : list Video)
    (interval : Interval) : M (list (option Video)) :=
  if length bumpers =? 0 then ret (map Some vs)
  else
    match interval with
    | IntervalShows =>
        let* b1 := getRandomBumper env bumpers None in
        let* b2 := getRandomBumper env bumpers (snd b1) in
        ret [vs !! 0; fst b1; vs !! 1; vs !! 2; fst b2]
    | IntervalNum _ => positionalLoopDB env bumpers 0 None vs
    end.

(** ** Single-source blocks *)

(** [while (blockVideos.length < blockSize) { ... concat(availableVideos.slice(0, needed)) }] *)
Fixpoint fillBlock (steps : nat) (blockSize : nat) (availableVideos blockVideos : list Video)
  : option (list Video) :=
  if length blockVideos <? blockSize then
    match steps with
    | 0 => None
    | S steps' =>
        let needed := blockSize - length blockVideos in
        fillBlock steps' blockSize availableVideos (blockVideos ++ take needed availableVideos)
    end
  else Some blockVideos.

Definition fillBlockM (env : Env) (blockSize : nat) (availableVideos blockVideos : list Video)
  : M (list Video) :=
  match fillBlock (fuel env) blockSize availableVideos blockVideos with
  | Some vs => ret vs
  | None => diverge
  end.

(** The block before the bumpers are inserted: the shuffled available
    videos, cut or repeated to the block size. *)
Definition blockVideosOf (env : Env) (blockSize : nat) (availableVideos : list Video)
  : M (list Video) :=
  let blockVideos := take blockSize availableVideos in
  if length blockVideos <? blockSize
  then fillBlockM env blockSize availableVideos blockVideos
  else ret blockVideos.

(** The available videos of [createProgrammingBlock], shuffled: the videos
    not excluded, or all of them when none is left. *)
Definition availableVideosOf (env : Env) (playlistId : string) (excludeVideoIds : list string)
    (allVideos : list Video) : M (list Video) :=
  let filtered := excludeIds excludeVideoIds allVideos in
  if length filtered =? 0 then
    let* shuffled := shuffle env allVideos in
    do writeBack playlistId shuffled then
    ret shuffled
  else shuffle env filtered.

Definition blockShape (channel : string) : nat * Interval :=
  if String.eqb channel "shows" then (3, IntervalShows)
  else if String.eqb channel "live" then (12, IntervalNum 4)
  else (12, IntervalNum 4).

Definition createProgrammingBlock (env : Env) (playlistObj : Playlist) (channel : string)
    (excludeVideoIds : list string) : M Block :=
  let playlistId := pl_id playlistObj in
  let playlistLabel := pl_label playlistObj in
  let* allVideos := getPlaylistVideos env playlistId None None (Some channel) in
  let* availableVideos := availableVideosOf env playlistId excludeVideoIds allVideos in
  let '(blockSize, bumperInterval) := blockShape channel in
  let* blockVideos := blockVideosOf env blockSize availableVideos in
  let* items := insertBumpersIntoBlock env blockVideos bumperInterval in
  ret (mkBlock playlistLabel playlistId items).

(** [(await getPlaylistName(id)) || `Custom Playlist (${id})`].  The name
    comes from a request to the playlists endpoint, whose outcome the
    [playlistName] oracle gives ([None] when the request fails or there is
    no API key); that request is not a listing and is not logged in
    [upstreamCalls]. *)
Definition customLabel (env : Env) (playlistId : string) : string :=
  match playlistName env playlistId with
  | Some (String c s) => String c s
  | _ => ("Custom Playlist (" ++ playlistId ++ ")")%string
  end.

Definition customPlaylistsOf (customPlaylistIds : list string) : list Playlist :=
  map (fun i => mkPlaylist i None true)
      (filter (fun i => isValidPlaylistId i = true) customPlaylistIds).

(** The names every object inherits from [Object.prototype].  [CHANNELS]
    is an object literal: for such a name that is no key of its own
    [CHANNELS[channel]] is a function (or, for '__proto__', the prototype),
    truthy and not iterable. *)
Definition inheritedProperties : list string :=
  ["constructor"; "__proto__"; "hasOwnProperty"; "isPrototypeOf"; "propertyIsEnumerable";
   "toLocaleString"; "toString"; "valueOf"; "__defineGetter__"; "__defineSetter__";
   "__lookupGetter__"; "__lookupSetter__"].

(** [CHANNELS[channel]] is such an inherited value. *)
Definition inheritedLookup (env : Env) (channel : string) : bool :=
  match CHANNELS env channel with
  | Some _ => false
  | None => existsb (String.eqb channel) inheritedProperties
  end.

(** [CHANNELS[channel] || []], where the value is a list of playlists or
    undefined. *)
Definition officialOf (env : Env) (channel : string) : list Playlist :=
  default [] (CHANNELS env channel).

(** [selectRandomPlaylist]; the result is [None] where the source would
    index an empty array.  The spread [[...officialPlaylists, ...]] throws
    when [CHANNELS[channel]] is an inherited value. *)
Definition selectRandomPlaylist (env : Env) (channel : string) (customPlaylistIds : list string)
    (excludePlaylistIds : list string) (preferCustom : bool) : M (option Playlist) :=
  if inheritedLookup env channel then
    throw "TypeError: officialPlaylists is not iterable"
  else
  let officialPlaylists := officialOf env channel in
  let customPlaylists := customPlaylistsOf customPlaylistIds in
  let allPlaylists := officialPlaylists ++ customPlaylists in
  if length allPlaylists =? 0 then
    throw ("No playlists available for channel: " ++ channel)%string
  else
    let excludeSet : gset string := list_to_set excludePlaylistIds in
    let availablePlaylists := filter (fun p => pl_id p ∉ excludeSet) allPlaylists in
    if length availablePlaylists =? 0 then pickRandom env allPlaylists
    else
      let availableCustom := filter (fun p => pl_isCustom p = true) availablePlaylists in
      let availableOfficial := filter (fun p => pl_isCustom p = false) availablePlaylists in
      if (0 <? length customPlaylists) && preferCustom then
        if 0 <? length availableCustom then pickRandom env availableCustom
        else pickRandom env availableOfficial
      else if (0 <? length customPlaylists) && negb preferCustom then
        if 0 <? length availableOfficial then pickRandom env availableOfficial
        else pickRandom env availableCustom
      else pickRandom env availablePlaylists.

Definition undefinedRead {A} (prop : string) : M A :=
  throw ("TypeError: Cannot read properties of undefined (reading '" ++ prop ++ "')")%string.

(** The items of the store-backed paths: [{ id, title, artist, song,
    isLimited, isBumper: false }]. *)
Definition itemOfVideo (limited : bool) (v : Video) : Video :=
  mkVideo (id v) (title v) (artist v) (song v) None limited false None.

Definition itemOfRow (r : VideoRow) : Video :=
  mkVideo (youtube_video_id r) (row_title r) (row_artist r) (row_song r) None
          (is_limited r) false None.

(** [getSpecialChannelBlock()] *)
Definition getSpecialChannelBlock (env : Env) : M Block :=
  let config := SPECIAL_EVENT_CONFIG env in
  if negb (sp_enabled config) || (length (sp_playlists config) =? 0) then
    throw "Special channel is not active"
  else
    let* picked := pickRandom env (sp_playlists config) in
    match picked with
    | None => undefinedRead "id"
    | Some playlist =>
        let* allVideos0 := getPlaylistVideos env (pl_id playlist) None None (Some "special") in
        if length allVideos0 =? 0 then throw "No videos found for special channel"
        else
          let* allVideos := shuffle env allVideos0 in
          do writeBack (pl_id playlist) allVideos then
          let blockSize := 12 in
          let blockVideos0 := take blockSize allVideos in
          let* blockVideos :=
            if (length blockVideos0 <? blockSize) && (0 <? length allVideos)
            then fillBlockM env blockSize allVideos blockVideos0
            else ret blockVideos0 in
          let* items :=
            if USE_DATABASE env then
              let videoItems :=
                map (fun v => mkVideo (id v) (title v) (artist v) (song v) (year v)
                                      true false None) blockVideos in
              let* bumpers := getRandomBumpers env 4 in
              insertBumpersIntoBlockFromDB env videoItems bumpers (IntervalNum 4)
            else insertBumpersIntoBlock env blockVideos (IntervalNum 4) in
          ret (mkBlock (pl_label playlist) (pl_id playlist) items)
    end.

Definition channelsToInclude : list string :=
  ["rock"; "hiphop"; "2000s"; "1990s"; "1980s"; "live"; "shows"].

(** [{ ...v, playlistLabel: playlistName || `Custom Playlist (${pid})` }] *)
Definition labelCustom (env : Env) (pid : string) (v : Video) : Video :=
  mkVideo (id v) (title v) (artist v) (song v) (year v) (isLimited v) (isBumper v)
          (Some (customLabel env pid)).

(** [getRandomChannelBlock(customPlaylistIds, excludeVideoIds)]: the
    fetches of the sampled playlists and then those of the custom
    playlists are started, in list order; they settle while
    [Promise.all] is awaited. *)
Definition getRandomChannelBlock (env : Env) (customPlaylistIds : list string)
    (excludeVideoIds : list string) : M Block :=
  let allPlaylists0 := flat_map (officialOf env) channelsToInclude in
  let* allPlaylists := shuffle env allPlaylists0 in
  let selectedPlaylists := take 8 allPlaylists in
  let customIds := filter (fun i => isValidPlaylistId i = true) customPlaylistIds in
  let* sampledStarted :=
    mapM (fun p => startGetPlaylistVideos env (pl_id p) (Some 15) None (Some "random"))
         selectedPlaylists in
  let* customStarted :=
    mapM (fun pid => startGetPlaylistVideos env pid (Some 100) None (Some "random"))
         customIds in
  do settleAll env (sampledStarted ++ customStarted) then
  let sampled := map resolvedWith sampledStarted in
  let custom :=
    zip_with (fun pid s => map (labelCustom env pid) (resolvedWith s))
             customIds customStarted in
  let allVideos := dedupe (concat (sampled ++ custom)) in
  let filtered := excludeIds excludeVideoIds allVideos in
  let* availableVideos :=
    shuffle env (if length filtered =? 0 then allVideos else filtered) in
  let blockVideos := take 12 availableVideos in
  let* items := insertBumpersIntoBlock env blockVideos (IntervalNum 4) in
  ret (mkBlock (Some "") "random-mix" items).

(** [getChannelBlock]: the cache / external-API path. *)
Definition getChannelBlock (env : Env) (channel : string) (customPlaylistIds : list string)
    (excludePlaylistIds excludeVideoIds : list string) (preferCustom : bool) : M Block :=
  if String.eqb channel "random" then
    getRandomChannelBlock env customPlaylistIds excludeVideoIds
  else if String.eqb channel "special" then getSpecialChannelBlock env
  else
    let* selected :=
      selectRandomPlaylist env channel customPlaylistIds excludePlaylistIds preferCustom in
    match selected with
    | None => undefinedRead "isCustom"
    | Some selectedPlaylist =>
        let labelled :=
          if pl_isCustom selectedPlaylist
          then mkPlaylist (pl_id selectedPlaylist)
                          (Some (customLabel env (pl_id selectedPlaylist))) true
          else selectedPlaylist in
        createProgrammingBlock env labelled channel excludeVideoIds
    end.

(** ** The store-backed path and the fallback *)

Definition customDbPlaylistsOf (customPlaylistIds : list string) : list DbPlaylist :=
  map CustomPlaylist (filter (fun i => isValidPlaylistId i = true) customPlaylistIds).

(** The branch of the [try] block for the random channel. *)
Definition storeRandomBlock (env : Env) (customPlaylistIds excludeVideoIds : list string)
  : M Block :=
  let* allDbPlaylistsArrays := promiseAll (getAllPlaylistsForChannel env) channelsToInclude in
  let allDbPlaylists := concat allDbPlaylistsArrays in
  let customPlaylists := customDbPlaylistsOf customPlaylistIds in
  let allPlaylists := allDbPlaylists ++ customPlaylists in
  if length allPlaylists =? 0 then throw "No playlists available for random channel"
  else
    let* allVideosArrays :=
      promiseAll (fun playlist =>
        match playlist with
        | CustomPlaylist cid => fetchPlaylistItems env cid (Some 50) (Some "random")
        | StorePlaylist pid _ =>
            let* rows := getVideosByPlaylistId env pid (Some 50) [] in
            ret (map (fun r => mkVideo (youtube_video_id r) (row_title r) (row_artist r)
                                       (row_song r) None false false None) rows)
        end) allPlaylists in
    let allVideos := dedupe (concat allVideosArrays) in
    let filtered := excludeIds excludeVideoIds allVideos in
    let* availableVideos :=
      shuffle env (if length filtered =? 0 then allVideos else filtered) in
    let blockVideos := take 12 availableVideos in
    let items := map (itemOfVideo false) blockVideos in
    let* bumpers := getRandomBumpers env 4 in
    let* itemsWithBumpers := insertBumpersIntoBlockFromDB env items bumpers (IntervalNum 4) in
    ret (mkBlock (Some "") "random-mix" itemsWithBumpers).

(** The choice of [selectedPlaylist] in the store-backed path. *)
Definition storeSelectPlaylist (env : Env) (allPlaylists customPlaylists : list DbPlaylist)
    (excludePlaylistIds : list string) (preferCustom : bool) : M (option DbPlaylist) :=
  let excludeSet : gset string := list_to_set excludePlaylistIds in
  let availablePlaylists := filter (fun p => dbpl_idString p ∉ excludeSet) allPlaylists in
  let availableList :=
    if 0 <? length availablePlaylists then availablePlaylists else allPlaylists in
  let availableCustom := filter (fun p => dbpl_isCustom p = true) availableList in
  let availableDB := filter (fun p => dbpl_isCustom p = false) availableList in
  if length customPlaylists =? 0 then pickRandom env availableList
  else if preferCustom then
    if 0 <? length availableCustom then pickRandom env availableCustom
    else pickRandom env availableDB
  else
    if 0 <? length availableDB then pickRandom env availableDB
    else pickRandom env availableCustom.

(** The items and the label of the selected playlist. *)
Definition storePlaylistItems (env : Env) (channel : string) (blockSize : nat)
    (excludeVideoIds : list string) (selectedPlaylist : DbPlaylist)
  : M (list Video * option string) :=
  match selectedPlaylist with
  | CustomPlaylist cid =>
      let playlistLabel := customLabel env cid in
      let* vs := fetchPlaylistItems env cid None (Some channel) in
      let filtered := excludeIds excludeVideoIds vs in
      let* availableVideos :=
        shuffle env (if length filtered =? 0 then vs else filtered) in
      let blockVideos0 := take blockSize availableVideos in
      let* blockVideos :=
        if (length blockVideos0 <? blockSize) && (0 <? length availableVideos)
        then fillBlockM env blockSize availableVideos blockVideos0
        else ret blockVideos0 in
      ret (map (itemOfVideo false) blockVideos, Some playlistLabel)
  | StorePlaylist pid name =>
      let* rows := getVideosByPlaylistId env pid (Some blockSize) excludeVideoIds in
      ret (map itemOfRow rows, Some name)
  end.

(** The body of the [try] block of [getChannelBlockWithFallback]. *)
Definition storeChannelBlock (env : Env) (channel : string) (customPlaylistIds : list string)
    (excludePlaylistIds excludeVideoIds : list string) (preferCustom : bool) : M Block :=
  if String.eqb channel "special" then
    getChannelBlock env channel customPlaylistIds excludePlaylistIds excludeVideoIds preferCustom
  else if String.eqb channel "random" then
    storeRandomBlock env customPlaylistIds excludeVideoIds
  else
    let* dbPlaylists := getAllPlaylistsForChannel env channel in
    let customPlaylists := customDbPlaylistsOf customPlaylistIds in
    let allPlaylists := dbPlaylists ++ customPlaylists in
    if length allPlaylists =? 0 then
      throw ("No playlists available for channel: " ++ channel)%string
    else
      let* selected :=
        storeSelectPlaylist env allPlaylists customPlaylists excludePlaylistIds preferCustom in
      let blockSize := if String.eqb channel "shows" then 3 else 12 in
      match selected with
      | None => undefinedRead "isCustom"
      | Some selectedPlaylist =>
          let* il := storePlaylistItems env channel blockSize excludeVideoIds selectedPlaylist in
          let* bumpers := getRandomBumpers env 10 in
          let bumperInterval :=
            if String.eqb channel "shows" then IntervalShows else IntervalNum 4 in
          let* itemsWithBumpers :=
            insertBumpersIntoBlockFromDB env (fst il) bumpers bumperInterval in
          ret (mkBlock (snd il) (dbpl_idString selectedPlaylist) itemsWithBumpers)
      end.

(** [getChannelBlockWithFallback]: the store first when it is enabled; an
    error of the [try] block is logged and the API path runs. *)
Definition getChannelBlockWithFallback (env : Env) (channel : string)
    (customPlaylistIds : list string) (excludePlaylistIds excludeVideoIds : list string)
    (preferCustom : bool) : M Block :=
  if USE_DATABASE env then
    tryCatch
      (storeChannelBlock env channel customPlaylistIds excludePlaylistIds
                         excludeVideoIds preferCustom)
      (fun _dbError =>
         getChannelBlock env channel customPlaylistIds excludePlaylistIds
                         excludeVideoIds preferCustom)
  else
    getChannelBlock env channel customPlaylistIds excludePlaylistIds
                    excludeVideoIds preferCustom.

(** ** db-service.js: cache invalidation, flags and bumper administration *)

(** [key.startsWith(pattern)] *)
Fixpoint startsWith (key pattern : string) {struct pattern} : bool :=
  match pattern with
  | EmptyString => true
  | String p pattern' =>
      match key with
      | EmptyString => false
      | String k key' => Ascii.eqb k p && startsWith key' pattern'
      end
  end.

(** [key.includes(pattern)] *)
Fixpoint includes (key pattern : string) : bool :=
  startsWith key pattern ||
  match key with
  | EmptyString => false
  | String _ key' => includes key' pattern
  end.

(** [clearCache(pattern)]: with a pattern, the keys that contain it are
    deleted; without one (or with the empty string) the cache is cleared.
    The cache holds the one key 'bumpers:all' here. *)
Definition clearCache (pattern : option string) : M unit :=
  modify (fun w =>
    match pattern with
    | Some (String c p) =>
        if includes "bumpers:all" (String c p) then set_dbBumpersCache None w else w
    | _ => set_dbBumpersCache None w
    end).

(** [clearCachePattern(pattern)]: the keys that start with the pattern are
    deleted. *)
Definition clearCachePattern (pattern : string) : M unit :=
  modify (fun w =>
    if startsWith "bumpers:all" pattern then set_dbBumpersCache None w else w).

(** [UPDATE videos SET is_flagged = $f, flag_reason = $r
     WHERE youtube_video_id = $id], on one row. *)
Definition updateFlag (youtubeVideoId : string) (flagged : bool) (reason : option string)
    (v : VideoRow) : VideoRow :=
  if String.eqb (youtube_video_id v) youtubeVideoId then
    mkVideoRow (row_id v) (youtube_video_id v) (row_title v) (row_artist v)
               (row_song v) (row_year v) flagged reason
               (unavailable_count v) (last_unavailable_at v) (is_limited v)
  else v.

(** [flagVideo(youtubeVideoId, reason)] *)
Definition flagVideo (env : Env) (youtubeVideoId : string) (reason : option string) : M unit :=
  do dbExec env (fun db =>
       set_tbl_videos (map (updateFlag youtubeVideoId true reason) (tbl_videos db)) db) then
  clearCache (Some "videos:").

(** [unflagVideo(youtubeVideoId)] *)
Definition unflagVideo (env : Env) (youtubeVideoId : string) : M unit :=
  do dbExec env (fun db =>
       set_tbl_videos (map (updateFlag youtubeVideoId false None) (tbl_videos db)) db) then
  clearCache (Some "videos:").

Definition set_tbl_bumpers (bs : list BumperRow) (db : Database) : Database :=
  mkDatabase (tbl_videos db) (tbl_playlists db) (tbl_playlist_videos db)
             (tbl_channel_playlists db) bs.

(** The result objects of [addBumper] and [removeBumper]:
    [{ success: true, id }], [{ success: true }] or
    [{ success: false, error, existingId }]. *)
Inductive AdminResult : Type :=
| Success (newId : option Z)
| Failure (error : string) (existingId : option Z).

(** A statement that changes the tables or is refused by a constraint. *)
Definition dbExecChecked {A} (env : Env) (run : Database -> string + (A * Database)) : M A :=
  fun w =>
    let k := dbQueries w in
    match dbFault env k with
    | Some e => (Throw e, set_dbQueries (S k) w)
    | None =>
        match run (database w) with
        | inl e => (Throw e, set_dbQueries (S k) w)
        | inr (a, db') => (Ok a, set_database db' (set_dbQueries (S k) w))
        end
    end.

(** A value written to a [VARCHAR(n)] column: a longer value is refused,
    unless all that exceeds [n] characters is spaces, which are cut off. *)
Definition varchar (n : nat) (s : string) : option string :=
  if String.length s <=? n then Some s
  else if allChars (Ascii.eqb " ") (String.substring n (String.length s - n) s)
       then Some (String.substring 0 n s)
       else None.

(** [INSERT INTO bumpers (youtube_video_id, title, duration_seconds)
     VALUES ($1, $2, $3) RETURNING id]; [nextval] is the value the sequence
    of [bumpers.id] hands out.  The columns are [VARCHAR(50)] and
    [VARCHAR(500)]; the primary key and the UNIQUE constraint of the schema
    refuse a second row of the same id. *)
Definition insertBumperRow (nextval : Z) (youtubeVideoId title : string) (db : Database)
  : string + (Z * Database) :=
  match varchar 50 youtubeVideoId, varchar 500 title with
  | None, _ => inl "value too long for type character varying(50)"
  | Some _, None => inl "value too long for type character varying(500)"
  | Some storedId, Some storedTitle =>
      if existsb (fun b => (brow_id b =? nextval)%Z) (tbl_bumpers db) then
        inl "duplicate key value violates unique constraint bumpers_pkey"
      else if existsb (fun b => String.eqb (brow_youtube_video_id b) storedId)
                      (tbl_bumpers db) then
        inl "duplicate key value violates unique constraint bumpers_youtube_video_id_key"
      else
        inr (nextval,
             set_tbl_bumpers (tbl_bumpers db ++ [mkBumperRow nextval storedId storedTitle]) db)
  end.

(** JS truthiness of an optional string. *)
Definition truthy (s : option string) : bool :=
  match s with
  | Some (String _ _) => true
  | _ => false
  end.

(** [addBumper({ youtube_video_id, title, duration_seconds })] *)
Definition addBumper (env : Env) (nextval : Z) (youtube_video_id_ : option string)
    (title_ : option string) : M AdminResult :=
  if negb (truthy youtube_video_id_) then
    ret (Failure "youtube_video_id is required" None)
  else
    let youtubeVideoId := default "" youtube_video_id_ in
    let* existing := dbQuery env (fun _ db =>
      filter (fun b => brow_youtube_video_id b = youtubeVideoId) (tbl_bumpers db)) in
    match existing with
    | row :: _ => ret (Failure "Video is already a bumper" (Some (brow_id row)))
    | [] =>
        let* newId := dbExecChecked env
          (insertBumperRow nextval youtubeVideoId
             (if truthy title_ then default "" title_ else "Bumper")) in
        do clearCachePattern "bumpers:" then
        ret (Success (Some newId))
    end.


(** ** index.js: durations *)

(** [\d] *)
Definition isDigit (c : ascii) : bool :=
  let n := nat_of_ascii c in (48 <=? n) && (n <=? 57).

(** [\d+], greedy: the digits at the front of [s], and the rest. *)
Fixpoint spanDigits (s : string) : string * string :=
  match s with
  | String c s' =>
      if isDigit c then
        let '(digits, rest) := spanDigits s' in (String c digits, rest)
      else (EmptyString, s)
  | EmptyString => (EmptyString, EmptyString)
  end.

(** [(?:(\d+)X)?] at the front of [s]: the capture, when the group takes
    part in the match, and the rest.  The digits are taken greedily; a
    shorter run of digits is followed by a digit, never by the unit, so
    backtracking finds nothing more. *)
Definition optionalGroup (unit : ascii) (s : string) : option string * string :=
  match spanDigits s with
  | (String c digits, String u rest) =>
      if Ascii.eqb u unit then (Some (String c digits), rest) else (None, s)
  | _ => (None, s)
  end.

(** [isoDuration.match(/PT(?:(\d+)H)?(?:(\d+)M)?(?:(\d+)S)?/)]: the three
    captures of the leftmost match.  Every group is optional, so the match
    starts at the first 'PT'. *)
Fixpoint matchDuration (isoDuration : string)
  : option (option string * option string * option string) :=
  match isoDuration with
  | EmptyString => None
  | String c s' =>
      if Ascii.eqb c "P" && startsWith s' "T" then
        match s' with
        | String _ afterT =>
            let '(hours, r1) := optionalGroup "H" afterT in
            let '(minutes, r2) := optionalGroup "M" r1 in
            let '(seconds, _) := optionalGroup "S" r2 in
            Some (hours, minutes, seconds)
        | EmptyString => None
        end
      else matchDuration s'
  end.

(** [parseInt] of a run of decimal digits.  The value is exact; JS rounds
    it to a double from 2^53 on. *)
Definition parseIntFrom (acc : N) (digits : string) : N :=
  fold_left (fun a c => (a * 10 + (N.of_nat (nat_of_ascii c) - 48))%N)
            (list_ascii_of_string digits) acc.

(** [parseInt(capture || 0)] *)
Definition parseInt (capture : option string) : N :=
  match capture with
  | Some digits => parseIntFrom 0 digits
  | None => 0%N
  end.

(** [parseDuration(isoDuration)]: seconds. *)
Definition parseDuration (isoDuration : string) : N :=
  match matchDuration isoDuration with
  | None => 0%N
  | Some (hours, minutes, seconds) =>
      (parseInt hours * 3600 + parseInt minutes * 60 + parseInt seconds)%N
  end.

(** ** index.js: the bumper pool and the flat interleaver *)

Definition BUMPER_PLAYLISTS : list Playlist :=
  [ mkPlaylist "PLnG7oFaM6TYqDLvZ_PBY79Pn68BFbv17w" (Some "MTV Bumpers 1") false;
    mkPlaylist "PLLHK2qXpOJlq07tC0I0aMZ8LbdsSj3jAF" (Some "MTV Bumpers 2") false;
    mkPlaylist "PLMl84_AytMHWf2ZHFbtpskMANEwKoPvZ5" (Some "MTV Bumpers 3") false ].

Definition MAX_BUMPER_DURATION : N := 90.

(** [videoIds.slice(i, i + 50)] for [i = 0, 50, 100, ...]. *)
Fixpoint batchesOf (steps : nat) (videoIds : list string) : list (list string) :=
  match steps, videoIds with
  | S steps', _ :: _ => take 50 videoIds :: batchesOf steps' (drop 50 videoIds)
  | _, _ => []
  end.

Section BumperPool.

(** [process.env.YOUTUBE_API_KEY] *)
Variable API_KEY : option string.

(** The videos endpoint of the upstream, for the [k]-th batch of one call:
    the items (id and ISO 8601 duration) of the answer, or a failure. *)
Variable videosApi : nat -> list string -> option (list (string * string)).

(** [getVideoDurations(videoIds)]: a batch that fails is skipped. *)
Definition getVideoDurations (videoIds : list string) : M (list (string * N)) :=
  if negb (truthy API_KEY) then throw "YOUTUBE_API_KEY not set"
  else
    ret (concat
           (imap (fun k batch =>
                    match videosApi k batch with
                    | Some items => map (fun item => (fst item, parseDuration (snd item))) items
                    | None => []
                    end)
                 (batchesOf (length videoIds) videoIds))).

(** [durationsData.forEach(({ id, duration }) => durationMap.set(id, duration))] *)
Definition durationMapOf (durationsData : list (string * N)) : gmap string N :=
  fold_left (fun m entry => <[ fst entry := snd entry ]> m) durationsData ∅.

(** [duration && duration <= MAX_BUMPER_DURATION] *)
Definition shortEnough (durationMap : gmap string N) (b : Video) : bool :=
  match durationMap !! id b with
  | Some duration => negb (duration =? 0)%N && (duration <=? MAX_BUMPER_DURATION)%N
  | None => false
  end.

(** [fetchBumpers()] *)
Definition fetchBumpers (env : Env) : M (list Video) :=
  let* bumperResults :=
    promiseAll (fun p => tryCatch (fetchPlaylistItems env (pl_id p) None (Some "bumper"))
                                  (fun _ => ret []))
               BUMPER_PLAYLISTS in
  let allBumpers := concat bumperResults in
  let videoIds := map id allBumpers in
  let* durationsData := getVideoDurations videoIds in
  let durationMap := durationMapOf durationsData in
  ret (map (fun b => mkVideo (id b) (title b) (artist b) (song b) (year b)
                             (isLimited b) true (playlistLabel b))
           (filter (fun b => shortEnough durationMap b = true) allBumpers)).

End BumperPool.

(** The loop of [insertBumpers]. *)
Fixpoint insertBumpersLoop (shuffledBumpers : list Video) (bumperIndex songCount : nat)
    (vs : list Video) : list (option Video) :=
  match vs with
  | [] => []
  | video :: rest =>
      if isBumper video then
        Some video :: insertBumpersLoop shuffledBumpers bumperIndex songCount rest
      else if S songCount =? 4 then
        Some video :: bumperAt shuffledBumpers bumperIndex
                   :: insertBumpersLoop shuffledBumpers (S bumperIndex) 0 rest
      else Some video :: insertBumpersLoop shuffledBumpers bumperIndex (S songCount) rest
  end.

(** [insertBumpers(videos, bumpers)]: a bumper after every fourth song. *)
Definition insertBumpers (env : Env) (vs : list Video) (bumpers : option (list Video))
  : M (list (option Video)) :=
  match bumpers with
  | None => ret (map Some vs)
  | Some pool =>
      if length pool =? 0 then ret (map Some vs)
      else
        let* shuffledBumpers := sortShuffled env pool in
        ret (insertBumpersLoop shuffledBumpers 0 0 vs)
  end.

(** ** index.js: titles *)

(** A title as JS holds it: its UTF-16 code units. *)
Definition CodeUnits : Type := list N.

(** The code units [String.prototype.trim] strips: white space and line
    terminators. *)
Definition isWhiteSpace (cu : N) : bool :=
  ((9 <=? cu) && (cu <=? 13) || (cu =? 32) || (cu =? 160) || (cu =? 5760)
   || (8192 <=? cu) && (cu <=? 8202) || (cu =? 8232) || (cu =? 8233) || (cu =? 8239)
   || (cu =? 8287) || (cu =? 12288) || (cu =? 65279))%N.

Fixpoint trimStart (s : CodeUnits) : CodeUnits :=
  match s with
  | cu :: s' => if isWhiteSpace cu then trimStart s' else s
  | [] => []
  end.

Definition trimEnd (s : CodeUnits) : CodeUnits := rev (trimStart (rev s)).

(** [s.trim()] *)
Definition trim (s : CodeUnits) : CodeUnits := trimEnd (trimStart s).

(** [' - '] *)
Definition SEPARATOR : CodeUnits := [32; 45; 32]%N.

Fixpoint startsWithUnits (s pattern : CodeUnits) {struct pattern} : bool :=
  match pattern with
  | [] => true
  | p :: pattern' =>
      match s with
      | [] => false
      | cu :: s' => (cu =? p)%N && startsWithUnits s' pattern'
      end
  end.

(** [s.indexOf(pattern)]; [None] for -1. *)
Fixpoint indexOf (s pattern : CodeUnits) : option nat :=
  if startsWithUnits s pattern then Some 0
  else
    match s with
    | [] => None
    | _ :: s' => option_map S (indexOf s' pattern)
    end.

(** The object [parseTitle] returns: [{ title }] or [{ artist, song }]. *)
Inductive ParsedTitle : Type :=
| TitleOnly (parsed_title : CodeUnits)
| ArtistSong (parsed_artist parsed_song : CodeUnits).

(** [parseTitle(title, channel)] *)
Definition parseTitle (title_ : CodeUnits) (channel : option string) : ParsedTitle :=
  if match channel with
     | Some c => String.eqb c "live" || String.eqb c "bumper"
     | None => false
     end
  then TitleOnly (trim title_)
  else
    match indexOf title_ SEPARATOR with
    | Some (S i) =>
        let separatorIndex := S i in
        ArtistSong (trim (take separatorIndex title_))
                   (trim (drop (separatorIndex + 3) title_))
    | _ => TitleOnly (trim title_)
    end.

(** *** cleanTitle *)

(** The code units of a literal of the source (ASCII). *)
Definition unitsOf (s : string) : CodeUnits :=
  map (fun c => N.of_nat (nat_of_ascii c)) (list_ascii_of_string s).

(** [[\(\[\{]] and [[\)\]\}]] *)
Definition isOpenBracket (cu : N) : bool := ((cu =? 40) || (cu =? 91) || (cu =? 123))%N.
Definition isCloseBracket (cu : N) : bool := ((cu =? 41) || (cu =? 93) || (cu =? 125))%N.

(** The canonical form the [i] flag compares by, for a comparison with an
    ASCII character of the pattern: a lower-case ASCII letter stands for
    its capital, every other code unit for itself (a code unit from 128 on
    never stands for an ASCII one). *)
Definition canonicalize (cu : N) : N :=
  if ((97 <=? cu) && (cu <=? 122))%N then (cu - 32)%N else cu.

Definition sameIgnoringCase (p cu : N) : bool := (canonicalize p =? canonicalize cu)%N.

(** A literal of the pattern at the front of [s], case ignored: the rest. *)
Fixpoint matchWord (word s : CodeUnits) {struct word} : option CodeUnits :=
  match word with
  | [] => Some s
  | p :: word' =>
      match s with
      | cu :: s' => if sameIgnoringCase p cu then matchWord word' s' else None
      | [] => None
      end
  end.

(** [\s+] at the front of [s]: the rest.  The next thing in the pattern is
    a letter, so all the white space is taken. *)
Definition matchSpaces (s : CodeUnits) : option CodeUnits :=
  match s with
  | cu :: s' => if isWhiteSpace cu then Some (trimStart s') else None
  | [] => None
  end.

(** [word1\s+word2\s+ ... wordN] at the front of [s]. *)
Fixpoint matchWords (words : list CodeUnits) (s : CodeUnits) : bool :=
  match words with
  | [] => true
  | word :: rest =>
      match matchWord word s with
      | Some s1 =>
          match rest with
          | [] => true
          | _ :: _ =>
              match matchSpaces s1 with
              | Some s2 => matchWords rest s2
              | None => false
              end
          end
      | None => false
      end
  end.

(** The words occur somewhere in [run]. *)
Fixpoint occursIn (words : list CodeUnits) (run : CodeUnits) : bool :=
  matchWords words run ||
  match run with
  | _ :: run' => occursIn words run'
  | [] => false
  end.

(** [[^\)\]\}]*], greedy: the code units before the first closing bracket,
    and the rest from that bracket on. *)
Fixpoint spanInside (s : CodeUnits) : CodeUnits * CodeUnits :=
  match s with
  | cu :: s' =>
      if isCloseBracket cu then ([], s)
      else let '(run, rest) := spanInside s' in (cu :: run, rest)
  | [] => ([], [])
  end.

(** [s.replace(/[\(\[\{][^\)\]\}]*WORDS[^\)\]\}]*[\)\]\}]/gi, '')].  A match
    starts at an opening bracket and ends at the first closing bracket
    after it, with the words in between; the search goes on behind it. *)
Fixpoint removeTagged (steps : nat) (words : list CodeUnits) (s : CodeUnits) : CodeUnits :=
  match steps with
  | 0 => s
  | S steps' =>
      match s with
      | [] => []
      | cu :: s' =>
          if isOpenBracket cu then
            match spanInside s' with
            | (run, _ :: rest) =>
                if occursIn words run then removeTagged steps' words rest
                else cu :: removeTagged steps' words s'
            | (_, []) => cu :: removeTagged steps' words s'
            end
          else cu :: removeTagged steps' words s'
      end
  end.

(** [s.replace(/LITERAL/gi, '')] *)
Fixpoint removeLiteral (steps : nat) (literal s : CodeUnits) : CodeUnits :=
  match steps with
  | 0 => s
  | S steps' =>
      match s with
      | [] => []
      | cu :: s' =>
          match matchWord literal s with
          | Some rest => removeLiteral steps' literal rest
          | None => cu :: removeLiteral steps' literal s'
          end
      end
  end.

(** [cleanTitle(title)] *)
Definition cleanTitle (title_ : CodeUnits) : CodeUnits :=
  let s1 := removeTagged (length title_)
              [unitsOf "official"; unitsOf "music"; unitsOf "video"] title_ in
  let s2 := removeTagged (length s1) [unitsOf "official"; unitsOf "video"] s1 in
  let cleaned := removeLiteral (length s2) (unitsOf "[hd]") s2 in
  trim cleaned.

(** *** The listing of a playlist, page by page

    The block logic above takes the outcome of [fetchPlaylistItems] from
    the environment; this is the function itself. *)

Module Upstream.

(** An entry of [res.data.items]: [snippet.title] and
    [snippet.resourceId.videoId]. *)
Record Item : Type := mkItem {
  item_title : CodeUnits;
  item_videoId : string
}.

(** The answer to one page request: an error, an answer without [items],
    or the items with [nextPageToken]. *)
Inductive PageAnswer : Type :=
| PageFailed
| PageWithoutItems
| Page (items : list Item) (nextPageToken : option string).

(** [{ id, playlistId, ...parsed }] *)
Record FetchedVideo : Type := mkFetchedVideo {
  fv_id : string;
  fv_playlistId : string;
  fv_parsed : ParsedTitle
}.

Section Paging.

(** [process.env.YOUTUBE_API_KEY] *)
Variable API_KEY : option string.

(** The playlistItems endpoint: playlist id and page token. *)
Variable playlistItemsApi : string -> option string -> PageAnswer.

(** The videos of one page. *)
Definition videosOfPage (playlistId : string) (channel : option string) (items : list Item)
  : list FetchedVideo :=
  map (fun item =>
         mkFetchedVideo (item_videoId item) playlistId
                        (parseTitle (cleanTitle (item_title item)) channel))
      (filter (fun item => item_title item <> unitsOf "Deleted video" /\
                           item_title item <> unitsOf "Private video") items).

(** The [do ... while (nextPageToken)] loop. *)
Fixpoint fetchPages (steps : nat) (playlistId : string) (maxVideos : option nat)
    (channel : option string) (allVideos : list FetchedVideo) (nextPageToken : option string)
  : option (list FetchedVideo) :=
  match steps with
  | 0 => None
  | S steps' =>
      match playlistItemsApi playlistId nextPageToken with
      | PageFailed => Some allVideos
      | PageWithoutItems => Some allVideos
      | Page items next =>
          let allVideos' := allVideos ++ videosOfPage playlistId channel items in
          match maxVideos with
          | Some (S n) =>
              if S n <=? length allVideos' then Some (take (S n) allVideos')
              else if truthy next then
                fetchPages steps' playlistId maxVideos channel allVideos' next
              else Some allVideos'
          | _ =>
              if truthy next then
                fetchPages steps' playlistId maxVideos channel allVideos' next
              else Some allVideos'
          end
      end
  end.

(** [fetchPlaylistItems(playlistId, maxVideos, channel)] *)
Definition fetchPlaylistItems (env : Env) (playlistId : string) (maxVideos : option nat)
    (channel : option string) : M (list FetchedVideo) :=
  if negb (truthy API_KEY) then throw "YOUTUBE_API_KEY not set"
  else
    match fetchPages (fuel env) playlistId maxVideos channel [] None with
    | Some allVideos => ret allVideos
    | None => diverge
    end.

End Paging.

End Upstream.

(** * Vocabulary of the properties *)

(** The state of the fill loop of a single-source block whenever its test
    is evaluated: [blockVideos] is a prefix of the endless repetition of
    [availableVideos], and it is complete or ends on a whole repetition. *)
Definition cyclicPrefixOf (availableVideos : list Video) (blockSize : nat)
    (blockVideos : list Video) : Prop :=
  length blockVideos <= blockSize /\
  (forall i, i < length blockVideos ->
             blockVideos !! i = availableVideos !! (i mod length availableVideos)) /\
  (length blockVideos = blockSize \/
   length blockVideos mod length availableVideos = 0).

(** A regular item: not a bumper. *)
Definition regular (v : Video) : Prop := isBumper v = false.

(** A pool entry as [fetchBumpers] and [getRandomBumpers] build it. *)
Definition bumper (v : Video) : Prop := isBumper v = true.

(** The ids of the bumper entries of a block, in block order. *)
Definition bumperIds (items : list (option Video)) : list string :=
  flat_map (fun e => match e with
                     | Some v => if isBumper v then [id v] else []
                     | None => []
                     end) items.

(** No two neighbours of the list are equal. *)
Fixpoint adjacentDistinct (l : list string) : Prop :=
  match l with
  | x :: t => match t with
              | y :: _ => x <> y /\ adjacentDistinct t
              | [] => True
              end
  | [] => True
  end.

(** Position [k] (counted from 0) of the block holds a bumper. *)
Definition bumperAtPosition (items : list (option Video)) (k : nat) : Prop :=
  exists b, items !! k = Some (Some b) /\ isBumper b = true.

(** The music/live pattern on at least 12 videos: 2 videos, bumper,
    4 videos, bumper, 4 videos, bumper, 2 videos, bumper, the rest. *)
Definition positionalShape (vs : list Video) (b0 b1 b2 b3 : Video) : list (option Video) :=
  map Some (take 2 vs) ++ [Some b0] ++
  map Some (take 4 (drop 2 vs)) ++ [Some b1] ++
  map Some (take 4 (drop 6 vs)) ++ [Some b2] ++
  map Some (take 2 (drop 10 vs)) ++ [Some b3] ++
  map Some (drop 12 vs).

(** The draws of [Math.random] do not repeat one index for a whole budget
    of loop iterations: the rejection loop of [getRandomBumper] ends. *)
Definition DrawsFair (env : Env) : Prop :=
  forall pos n last, 2 <= n ->
    exists j, j < fuel env /\ rnd env (pos + j) mod n <> last.


(** A computation that, started on the tables [db], leaves them as they
    are and returns only values that satisfy [Q]. *)
Definition yields {A} (db : Database) (m : M A) (Q : A -> Prop) : Prop :=
  forall w a w', database w = db -> m w = (Ok a, w') -> database w' = db /\ Q a.



(** The ids of the regular (non-bumper) entries of a block. *)
Definition servedIds (items : list (option Video)) : list string :=
  flat_map (fun e => match e with
                     | Some v => if isBumper v then [] else [id v]
                     | None => []
                     end) items.

(** A computation that never touches the store: it issues no
    query and leaves the tables and the cache of the db-service as they
    were, however it ends. *)
Definition storeUntouched {A} (m : M A) : Prop :=
  forall w r w', m w = (r, w') ->
    database w' = database w /\ dbQueries w' = dbQueries w /\
    dbBumpersCache w' = dbBumpersCache w.

(** The ISO 8601 form the upstream gives durations below one
    day in: 'PT', then the hours, minutes and seconds that are not zero,
    each followed by its unit. *)
Definition isoPart (n : N) (unit : ascii) : string :=
  if (n =? 0)%N then "" else (pretty n ++ String unit "")%string.

Definition isoDuration (hours minutes seconds : N) : string :=
  ("PT" ++ isoPart hours "H" ++ isoPart minutes "M" ++ isoPart seconds "S")%string.

(** A title without an opening bracket, and one without any bracket. *)
Definition noOpenBracket (s : CodeUnits) : Prop :=
  Forall (fun cu => isOpenBracket cu = false) s.

Definition noBracket (s : CodeUnits) : Prop :=
  Forall (fun cu => isOpenBracket cu = false /\ isCloseBracket cu = false) s.

(** The chain of pages that starts at [token] ends within [k]
    requests: with an error, an answer without items, or a page without a
    next token. *)
Fixpoint pagesEnd (playlistItemsApi : string -> option string -> Upstream.PageAnswer)
    (playlistId : string) (k : nat) (token : option string) : bool :=
  match k with
  | 0 => false
  | S k' =>
      match playlistItemsApi playlistId token with
      | Upstream.Page _ next => if truthy next then pagesEnd playlistItemsApi playlistId k' next else true
      | _ => true
      end
  end.

(** [v] was made from an item of some page of the playlist
    that is neither deleted nor private. *)
Definition fromSomePage (playlistItemsApi : string -> option string -> Upstream.PageAnswer)
    (playlistId : string) (channel : option string) (v : Upstream.FetchedVideo) : Prop :=
  Upstream.fv_playlistId v = playlistId /\
  exists token items next item,
    playlistItemsApi playlistId token = Upstream.Page items next /\
    item ∈ items /\
    Upstream.item_title item <> unitsOf "Deleted video" /\
    Upstream.item_title item <> unitsOf "Private video" /\
    Upstream.fv_id v = Upstream.item_videoId item /\
    Upstream.fv_parsed v = parseTitle (cleanTitle (Upstream.item_title item)) channel.


(** * Sample configurations

    Concrete environments and states on which the properties below are
    exercised. *)

(** An environment with the store switched off, no channel, an upstream
    that answers at once with an empty listing, and draws 0, 1, 2, ... *)
Definition plainEnv : Env :=
  mkEnv false (fun _ => None) (mkSpecial false []) 1700000000000%Z
        (fun k => k) (fun _ _ l => l) (fun _ l => l)
        (fun _ _ _ _ => mkResponse 0%Z (inl []))
        (fun _ => None) (fun _ => None) 16.

Definition emptyDatabase : Database := mkDatabase [] [] [] [] [].

Definition emptyWorld : World := mkWorld ∅ None None emptyDatabase 0 [] 0.

Definition worldOfDb (db : Database) : World := mkWorld ∅ None None db 0 [] 0.

(** A video reported 49 times, the last time one second ago. *)
Definition rowReported49 : VideoRow :=
  mkVideoRow 7%Z "dQw4w9WgXcQ" "Some Song" None None None false None
             (Some 49%Z) (Some 1699999999000%Z) false.

Definition trackerDb : Database := mkDatabase [rowReported49] [] [] [] [].


Definition songA : Video :=
  mkVideo "aaaaaaaaaaa" "Artist A - Song A" (Some "Artist A") (Some "Song A")
          None false false None.

Definition songB : Video :=
  mkVideo "bbbbbbbbbbb" "Artist B - Song B" (Some "Artist B") (Some "Song B")
          None false false None.

Definition classicRock : Playlist :=
  mkPlaylist "PL300C32DA374417AA" (Some "Classic Rock") false.

(** The store switched off, one official playlist on the rock channel, an
    upstream that fails, and [steps] iterations for every loop.  A request
    that fails ends the paging loop of [fetchPlaylistItems], which resolves
    with the pages it has: none here. *)
Definition failingRockEnv (steps : nat) : Env :=
  mkEnv false
        (fun ch => if String.eqb ch "rock" then Some [classicRock] else None)
        (mkSpecial false []) 1700000000000%Z
        (fun k => k) (fun _ _ l => l) (fun _ l => l)
        (fun _ _ _ _ => mkResponse 120%Z (inl []))
        (fun _ => None) (fun _ => None) steps.

Definition bumperX : Video :=
  mkVideo "xxxxxxxxxxx" "Station ident X" None None None false true None.

Definition bumperY : Video :=
  mkVideo "yyyyyyyyyyy" "Station ident Y" None None None false true None.

Definition twelveSongs : list Video :=
  [songA; songB; songA; songB; songA; songB; songA; songB; songA; songB; songA; songB].

Definition worldOfBumpers (pool : list Video) : World :=
  mkWorld ∅ (Some pool) None emptyDatabase 0 [] 0.

Definition clip (n : nat) : Video :=
  mkVideo (pretty n) ("Clip " ++ pretty n)%string None None None false false None.

Definition official20 : list Video := map clip (seq 1 20).
Definition customFive : list Video := map clip [21; 22; 23; 24; 25].
Definition customThree : list Video := map clip [26; 27; 28].


(** A store with one rock playlist of two videos, the first of them
    flagged, and two bumpers. *)
Definition rockDb : Database :=
  mkDatabase
    [ mkVideoRow 1%Z "aaaaaaaaaaa" "Artist A - Song A" (Some "Artist A") (Some "Song A")
                 None true (Some "Auto-flagged: 50 unavailable reports")
                 (Some 50%Z) (Some 1699999999000%Z) false;
      mkVideoRow 2%Z "bbbbbbbbbbb" "Artist B - Song B" (Some "Artist B") (Some "Song B")
                 None false None (Some 0%Z) None false ]
    [ mkPlaylistRow 1%Z "Classic Rock" ]
    [ (1%Z, 1%Z); (1%Z, 2%Z) ]
    [ ("rock", 1%Z) ]
    [ mkBumperRow 1%Z "xxxxxxxxxxx" "Station ident X";
      mkBumperRow 2%Z "yyyyyyyyyyy" "Station ident Y" ].

(** The store switched on; every upstream listing holds both videos;
    [fault] says which store queries fail. *)
Definition storeEnv (fault : nat -> option string) : Env :=
  mkEnv true
        (fun ch => if String.eqb ch "rock" then Some [classicRock] else None)
        (mkSpecial false []) 1700000000000%Z
        (fun k => k) (fun _ _ l => l) (fun _ l => l)
        (fun _ _ _ _ => mkResponse 80%Z (inl [songA; songB]))
        (fun _ => None) fault 16.

Definition storeUpEnv : Env := storeEnv (fun _ => None).
Definition storeDownEnv : Env := storeEnv (fun _ => Some "connect ECONNREFUSED").

(** The rock playlist cached a second ago, two bumpers, the store above. *)
Definition rockCachedWorld : World :=
  mkWorld {[ "PL300C32DA374417AA" := mkCacheEntry [songA; songB] 1699999999000%Z ]}
          (Some [bumperX; bumperY]) None rockDb 0 [] 0.

(** A video reported three times, the last time [daysAgo] days ago. *)
Definition rowReportedDaysAgo (daysAgo : Z) : VideoRow :=
  mkVideoRow 9%Z "9bZkp7q19f0" "Other Song" None None None false None
             (Some 3%Z) (Some (1700000000000 - daysAgo * 86400000)%Z) false.

(** A video never reported. *)
Definition rowNeverReported : VideoRow :=
  mkVideoRow 9%Z "9bZkp7q19f0" "Other Song" None None None false None
             (Some 0%Z) None false.

(** The counter of the one row of the table after a report. *)
Definition counterAfterReport (row : VideoRow) : option (option Z) :=
  match markVideoUnavailable plainEnv "9bZkp7q19f0" NoCode
          (worldOfDb (mkDatabase [row] [] [] [] [])) with
  | (Ok _, w') => option_map unavailable_count (head (tbl_videos (database w')))
  | _ => None
  end.

(** An upstream that reports every video as 30 seconds long. *)
Definition halfMinuteApi (k : nat) (batch : list string) : option (list (string * string)) :=
  Some (map (fun i => (i, "PT30S")) batch).

(** The store switched off, one official playlist on the rock channel, an
    upstream that lists two videos. *)
Definition apiEnv : Env :=
  mkEnv false
        (fun ch => if String.eqb ch "rock" then Some [classicRock] else None)
        (mkSpecial false []) 1700000000000%Z
        (fun k => k) (fun _ _ l => l) (fun _ l => l)
        (fun _ _ _ _ => mkResponse 80%Z (inl [songA; songB]))
        (fun _ => None) (fun _ => None) 16.

(** One page of three items, the second a deleted video. *)
Definition onePageApi (playlistId : string) (token : option string) : Upstream.PageAnswer :=
  Upstream.Page
    [ Upstream.mkItem (unitsOf "Queen - Bohemian Rhapsody (Official Video)") "fJ9rUzIMcZQ";
      Upstream.mkItem (unitsOf "Deleted video") "00000000000";
      Upstream.mkItem (unitsOf "Nirvana - Lithium [HD]") "pkcJEvMcnEg" ]
    None.




(** The listings of the three bumper playlists: the first two list the
    same clip, the third another one. *)
Definition sharedClipEnv : Env :=
  mkEnv false (fun _ => None) (mkSpecial false []) 1700000000000%Z
        (fun k => k) (fun _ _ l => l) (fun _ l => l)
        (fun _ playlistId _ _ =>
           mkResponse 80%Z
             (inl (if String.eqb playlistId "PLMl84_AytMHWf2ZHFbtpskMANEwKoPvZ5"
                   then [mkVideo "yyyyyyyyyyy" "Station ident Y" None None None
                                 false false None]
                   else [mkVideo "xxxxxxxxxxx" "Station ident X" None None None
                                 false false None])))
        (fun _ => None) (fun _ => None) 16.

(** * Tactics *)

(** Evaluate the comparisons of string literals in the goal. *)
Ltac eval_string_tests :=
  repeat match goal with
         | |- context [String.eqb ?a ?b] =>
             let r := eval vm_compute in (String.eqb a b) in
             change (String.eqb a b) with r
         end.

Ltac by_compute :=
  match goal with
  | |- ?P => apply (@bool_decide_unpack P _); vm_compute; exact I
  end.

(** Reassociate concatenations of code units. *)
Ltac units_assoc :=
  unfold SEPARATOR; repeat first [rewrite <- app_assoc | progress cbn [app]]; reflexivity.

(** * Properties *)

(** ** Reasoning about the monad *)

Lemma bind_Ok {A B} (m : M A) (k : A -> M B) w a w1 :
  m w = (Ok a, w1) -> bind m k w = k a w1.
Proof. intros H. unfold bind. now rewrite H. Qed.

Lemma bind_Ok_inv {A B} (m : M A) (k : A -> M B) w b w' :
  bind m k w = (Ok b, w') ->
  exists a w1, m w = (Ok a, w1) /\ k a w1 = (Ok b, w').
Proof.
  unfold bind. destruct (m w) as [[a | e |] w1]; intros H; try discriminate.
  now exists a, w1.
Qed.

Lemma bind_Throw {A B} (m : M A) (k : A -> M B) w e w1 :
  m w = (Throw e, w1) -> bind m k w = (Throw e, w1).
Proof. intros H. unfold bind. now rewrite H. Qed.

Lemma bind_Diverge {A B} (m : M A) (k : A -> M B) w w1 :
  m w = (Diverge, w1) -> bind m k w = (Diverge, w1).
Proof. intros H. unfold bind. now rewrite H. Qed.

Lemma dbQuery_ok {A} env (run : nat -> Database -> A) w :
  dbFault env (dbQueries w) = None ->
  dbQuery env run w = (Ok (run (dbQueries w) (database w)), set_dbQueries (S (dbQueries w)) w).
Proof. intros H. unfold dbQuery. now rewrite H. Qed.

Lemma dbExec_ok env run w :
  dbFault env (dbQueries w) = None ->
  dbExec env run w =
    (Ok tt, set_database (run (database w)) (set_dbQueries (S (dbQueries w)) w)).
Proof. intros H. unfold dbExec. now rewrite H. Qed.

(** ** Availability tracker *)

Section Tracker.

Variable env : Env.

Lemma filter_unique_id (rows : list VideoRow) (video : VideoRow) :
  NoDup (map youtube_video_id rows) ->
  video ∈ rows ->
  filter (fun v => youtube_video_id v = youtube_video_id video) rows = [video].
Proof.
  induction rows as [| r rows IH]; intros Hnd Hin.
  - inversion Hin.
  - simpl in Hnd. apply NoDup_cons in Hnd as [Hnotin Hnd].
    rewrite filter_cons. apply elem_of_cons in Hin as [-> | Hin].
    + rewrite decide_True by reflexivity. f_equal.
      destruct (filter _ rows) as [| x l] eqn:E; [reflexivity |].
      assert (Hx : x ∈ filter (fun v => youtube_video_id v = youtube_video_id r) rows)
        by (rewrite E; left).
      apply list_elem_of_filter in Hx as [Hid Hx].
      exfalso. apply Hnotin. rewrite <- Hid.
      apply list_elem_of_fmap. now exists x.
    + rewrite decide_False.
      * now apply IH.
      * intros Heq. apply Hnotin. rewrite Heq.
        apply list_elem_of_fmap. now exists video.
Qed.

Lemma updateReported_id youtubeVideoId newCount nowMs flagReason v :
  youtube_video_id (updateReported youtubeVideoId newCount nowMs flagReason v)
  = youtube_video_id v.
Proof.
  unfold updateReported. destruct (String.eqb _ _); [| reflexivity].
  now destruct flagReason.
Qed.

(** A report that the store processes: the run of [markVideoUnavailable]
    and the table it leaves. *)
Lemma markVideoUnavailable_run w video errorCode :
  dbFault env (dbQueries w) = None ->
  dbFault env (S (dbQueries w)) = None ->
  NoDup (map youtube_video_id (tbl_videos (database w))) ->
  video ∈ tbl_videos (database w) ->
  let newCount := newCountOf (now env) video in
  let flagReason :=
    if shouldFlagAt newCount then Some (flagReasonOf newCount errorCode) else None in
  exists w',
    markVideoUnavailable env (youtube_video_id video) errorCode w = (Ok tt, w') /\
    tbl_videos (database w') =
      map (updateReported (youtube_video_id video) newCount (now env) flagReason)
          (tbl_videos (database w)).
Proof.
  intros Hq1 Hq2 Hnd Hin newCount flagReason.
  unfold markVideoUnavailable.
  erewrite bind_Ok by (apply dbQuery_ok; exact Hq1).
  rewrite (filter_unique_id _ _ Hnd Hin).
  eexists. split.
  - apply dbExec_ok. exact Hq2.
  - reflexivity.
Qed.

Lemma reported_row_in w w' video newCount flagReason :
  video ∈ tbl_videos (database w) ->
  tbl_videos (database w') =
    map (updateReported (youtube_video_id video) newCount (now env) flagReason)
        (tbl_videos (database w)) ->
  updateReported (youtube_video_id video) newCount (now env) flagReason video
    ∈ tbl_videos (database w').
Proof.
  intros Hin ->. apply list_elem_of_fmap. now exists video.
Qed.

Lemma reported_row_unique w w' video newCount flagReason v :
  NoDup (map youtube_video_id (tbl_videos (database w))) ->
  video ∈ tbl_videos (database w) ->
  tbl_videos (database w') =
    map (updateReported (youtube_video_id video) newCount (now env) flagReason)
        (tbl_videos (database w)) ->
  v ∈ tbl_videos (database w') ->
  youtube_video_id v = youtube_video_id video ->
  v = updateReported (youtube_video_id video) newCount (now env) flagReason video.
Proof.
  intros Hnd Hin Htbl Hv Hid. rewrite Htbl in Hv.
  apply list_elem_of_fmap in Hv as [u [-> Hu]].
  rewrite updateReported_id in Hid.
  f_equal.
  pose proof (filter_unique_id _ _ Hnd Hin) as Hf.
  assert (Hu' : u ∈ filter (fun v => youtube_video_id v = youtube_video_id video)
                            (tbl_videos (database w))).
  { apply list_elem_of_filter. now split. }
  rewrite Hf in Hu'. now apply list_elem_of_singleton in Hu'.
Qed.

(** C3. A failure report on a tracked video sets the counter to 1 when
    there is no earlier report or the earlier report is more than thirty
    days old, increments it otherwise, and always records the time of the
    report as the last-report time. *)
Theorem markVideoUnavailable_counter w video errorCode :
  dbFault env (dbQueries w) = None ->
  dbFault env (S (dbQueries w)) = None ->
  NoDup (map youtube_video_id (tbl_videos (database w))) ->
  video ∈ tbl_videos (database w) ->
  exists w' video',
    markVideoUnavailable env (youtube_video_id video) errorCode w = (Ok tt, w') /\
    video' ∈ tbl_videos (database w') /\
    (forall v, v ∈ tbl_videos (database w') ->
               youtube_video_id v = youtube_video_id video -> v = video') /\
    youtube_video_id video' = youtube_video_id video /\
    last_unavailable_at video' = Some (now env) /\
    (last_unavailable_at video = None -> unavailable_count video' = Some 1%Z) /\
    (forall t, last_unavailable_at video = Some t ->
               (t < now env - 2592000000)%Z ->
               unavailable_count video' = Some 1%Z) /\
    (forall t, last_unavailable_at video = Some t ->
               (now env - 2592000000 <= t)%Z ->
               unavailable_count video' =
                 Some (default 0%Z (unavailable_count video) + 1)%Z).
Proof.
  intros Hq1 Hq2 Hnd Hin.
  destruct (markVideoUnavailable_run w video errorCode Hq1 Hq2 Hnd Hin)
    as [w' [Hrun Htbl]].
  set (newCount := newCountOf (now env) video) in *.
  set (flagReason := if shouldFlagAt newCount
                     then Some (flagReasonOf newCount errorCode) else None) in *.
  exists w', (updateReported (youtube_video_id video) newCount (now env) flagReason video).
  split; [exact Hrun |].
  split; [eapply reported_row_in; eauto |].
  split; [intros v Hv Hid; eapply reported_row_unique; eauto |].
  split; [apply updateReported_id |].
  assert (Hfields :
    last_unavailable_at
      (updateReported (youtube_video_id video) newCount (now env) flagReason video)
      = Some (now env) /\
    unavailable_count
      (updateReported (youtube_video_id video) newCount (now env) flagReason video)
      = Some newCount).
  { unfold updateReported. rewrite String.eqb_refl. now destruct flagReason. }
  destruct Hfields as [Hlast Hcount].
  split; [exact Hlast |]. rewrite Hcount.
  unfold newCount, newCountOf, THIRTY_DAYS.
  repeat split.
  - intros ->. reflexivity.
  - intros t -> Hlt.
    destruct (Z.ltb_spec t (now env - 30 * 24 * 60 * 60 * 1000)%Z); [reflexivity | lia].
  - intros t -> Hge.
    destruct (Z.ltb_spec t (now env - 30 * 24 * 60 * 60 * 1000)%Z); [lia | reflexivity].
Qed.

(** C9, as the code has it.  A processed report that brings the counter to
    50 or more sets [is_flagged] and records a reason built from the new
    counter and the error code, whether or not the video was flagged
    before; a report that leaves the counter below 50 changes neither
    [is_flagged] nor [flag_reason]. *)
Theorem markVideoUnavailable_flagging w video errorCode :
  dbFault env (dbQueries w) = None ->
  dbFault env (S (dbQueries w)) = None ->
  NoDup (map youtube_video_id (tbl_videos (database w))) ->
  video ∈ tbl_videos (database w) ->
  exists w' video' n,
    markVideoUnavailable env (youtube_video_id video) errorCode w = (Ok tt, w') /\
    video' ∈ tbl_videos (database w') /\
    (forall v, v ∈ tbl_videos (database w') ->
               youtube_video_id v = youtube_video_id video -> v = video') /\
    unavailable_count video' = Some n /\
    ((50 <= n)%Z ->
       is_flagged video' = true /\
       (errorCode_truthy errorCode = true ->
          flag_reason video' =
            Some ("Auto-flagged: " ++ pretty n ++ " unavailable reports (Error: "
                    ++ errorCode_toString errorCode ++ ")")%string) /\
       (errorCode_truthy errorCode = false ->
          flag_reason video' =
            Some ("Auto-flagged: " ++ pretty n ++ " unavailable reports")%string)) /\
    ((n < 50)%Z ->
       is_flagged video' = is_flagged video /\ flag_reason video' = flag_reason video).
Proof.
  intros Hq1 Hq2 Hnd Hin.
  destruct (markVideoUnavailable_run w video errorCode Hq1 Hq2 Hnd Hin)
    as [w' [Hrun Htbl]].
  set (newCount := newCountOf (now env) video) in *.
  set (flagReason := if shouldFlagAt newCount
                     then Some (flagReasonOf newCount errorCode) else None) in *.
  exists w', (updateReported (youtube_video_id video) newCount (now env) flagReason video),
    newCount.
  split; [exact Hrun |].
  split; [eapply reported_row_in; eauto |].
  split; [intros v Hv Hid; eapply reported_row_unique; eauto |].
  unfold updateReported. rewrite String.eqb_refl.
  unfold flagReason, shouldFlagAt, FLAG_THRESHOLD.
  destruct (Z.leb_spec 50 newCount) as [Hge | Hlt]; simpl.
  - split; [reflexivity |]. split; [| lia].
    intros _. split; [reflexivity |].
    unfold flagReasonOf. split; intros ->; reflexivity.
  - split; [reflexivity |]. split; [lia |].
    intros _. split; reflexivity.
Qed.

End Tracker.

Lemma markVideoUnavailable_counter_witness :
  exists w' video',
    markVideoUnavailable plainEnv "dQw4w9WgXcQ" NoCode (worldOfDb trackerDb) = (Ok tt, w') /\
    video' ∈ tbl_videos (database w') /\
    (forall v, v ∈ tbl_videos (database w') ->
               youtube_video_id v = "dQw4w9WgXcQ" -> v = video') /\
    youtube_video_id video' = "dQw4w9WgXcQ" /\
    last_unavailable_at video' = Some 1700000000000%Z /\
    (last_unavailable_at rowReported49 = None -> unavailable_count video' = Some 1%Z) /\
    (forall t, last_unavailable_at rowReported49 = Some t ->
               (t < 1700000000000 - 2592000000)%Z ->
               unavailable_count video' = Some 1%Z) /\
    (forall t, last_unavailable_at rowReported49 = Some t ->
               (1700000000000 - 2592000000 <= t)%Z ->
               unavailable_count video' = Some (49 + 1)%Z).
Proof.
  apply (markVideoUnavailable_counter plainEnv (worldOfDb trackerDb) rowReported49 NoCode).
  - reflexivity.
  - reflexivity.
  - by_compute.
  - apply list_elem_of_here.
Defined.

Lemma markVideoUnavailable_flagging_witness :
  exists w' video' n,
    markVideoUnavailable plainEnv "dQw4w9WgXcQ" (OtherCode true "150") (worldOfDb trackerDb)
      = (Ok tt, w') /\
    video' ∈ tbl_videos (database w') /\
    (forall v, v ∈ tbl_videos (database w') ->
               youtube_video_id v = "dQw4w9WgXcQ" -> v = video') /\
    unavailable_count video' = Some n /\
    ((50 <= n)%Z ->
       is_flagged video' = true /\
       (errorCode_truthy (OtherCode true "150") = true ->
          flag_reason video' =
            Some ("Auto-flagged: " ++ pretty n ++ " unavailable reports (Error: "
                    ++ errorCode_toString (OtherCode true "150") ++ ")")%string) /\
       (errorCode_truthy (OtherCode true "150") = false ->
          flag_reason video' =
            Some ("Auto-flagged: " ++ pretty n ++ " unavailable reports")%string)) /\
    ((n < 50)%Z ->
       is_flagged video' = is_flagged rowReported49 /\
       flag_reason video' = flag_reason rowReported49).
Proof.
  apply (markVideoUnavailable_flagging plainEnv (worldOfDb trackerDb) rowReported49
           (OtherCode true "150")).
  - reflexivity.
  - reflexivity.
  - by_compute.
  - apply list_elem_of_here.
Defined.

(** The reason recorded for the JSON number 1e21, which a template
    literal writes as 1e+21, and for the falsy code 0. *)
Example flagReasonOf_large_number :
  flagReasonOf 50 (OtherCode true "1e+21")
  = "Auto-flagged: 50 unavailable reports (Error: 1e+21)"%string /\
  flagReasonOf 50 (OtherCode false "0") = "Auto-flagged: 50 unavailable reports"%string.
Proof. split; vm_compute; reflexivity. Qed.

(** The scenarios of the tracker: first report, report after 31 days,
    report after 10 days, report after exactly 30 days. *)
Example first_report_sets_one : counterAfterReport rowNeverReported = Some (Some 1%Z).
Proof. vm_compute. reflexivity. Qed.

Example report_after_31_days_resets : counterAfterReport (rowReportedDaysAgo 31) = Some (Some 1%Z).
Proof. vm_compute. reflexivity. Qed.

Example report_after_10_days_increments :
  counterAfterReport (rowReportedDaysAgo 10) = Some (Some 4%Z).
Proof. vm_compute. reflexivity. Qed.

Example report_after_30_days_increments :
  counterAfterReport (rowReportedDaysAgo 30) = Some (Some 4%Z).
Proof. vm_compute. reflexivity. Qed.

(** C9, as the claim states it, fails: the fiftieth report flags the video
    with the reason "... 50 ...", and the next report, one that arrives
    after the video is suppressed, records the different reason
    "... 51 ...". *)
Lemma report_after_flagging_rewrites_reason :
  exists w1 w2 row1 row2,
    markVideoUnavailable plainEnv "dQw4w9WgXcQ" NoCode (worldOfDb trackerDb) = (Ok tt, w1) /\
    tbl_videos (database w1) = [row1] /\
    is_flagged row1 = true /\
    flag_reason row1 = Some "Auto-flagged: 50 unavailable reports" /\
    markVideoUnavailable plainEnv "dQw4w9WgXcQ" NoCode w1 = (Ok tt, w2) /\
    tbl_videos (database w2) = [row2] /\
    is_flagged row2 = true /\
    flag_reason row2 = Some "Auto-flagged: 51 unavailable reports" /\
    flag_reason row2 <> flag_reason row1.
Proof.
  do 4 eexists.
  split; [vm_compute; reflexivity |].
  split; [reflexivity |].
  split; [reflexivity |].
  split; [reflexivity |].
  split; [vm_compute; reflexivity |].
  split; [reflexivity |].
  split; [reflexivity |].
  split; [reflexivity |].
  discriminate.
Qed.

(** ** Playlist cache *)

Lemma getPlaylistVideos_hit env playlistId maxVideos timeout channel w c :
  playlistCache w !! playlistId = Some c ->
  (now env - timestamp c < CACHE_DURATION)%Z ->
  getPlaylistVideos env playlistId maxVideos timeout channel w = (Ok (videos c), w).
Proof.
  intros Hc Hfresh. unfold getPlaylistVideos, bind, gets. rewrite Hc.
  destruct (Z.ltb_spec (now env - timestamp c) CACHE_DURATION); [reflexivity | lia].
Qed.

Lemma getPlaylistVideos_miss env playlistId maxVideos timeout channel w :
  (forall c, playlistCache w !! playlistId = Some c ->
             (CACHE_DURATION <= now env - timestamp c)%Z) ->
  getPlaylistVideos env playlistId maxVideos timeout channel w
  = fetchAndCache env playlistId maxVideos timeout channel w.
Proof.
  intros Hstale. unfold getPlaylistVideos, bind, gets.
  destruct (playlistCache w !! playlistId) as [c |] eqn:Hc; [| reflexivity].
  specialize (Hstale c eq_refl).
  destruct (Z.ltb_spec (now env - timestamp c) CACHE_DURATION); [lia | reflexivity].
Qed.


(** What the listing does when it has no API key, and when its first
    request fails or is answered without items. *)
Lemma fetchPlaylistItems_without_key playlistItemsApi env playlistId maxVideos channel w :
  Upstream.fetchPlaylistItems None playlistItemsApi env playlistId maxVideos channel w
  = (Throw "YOUTUBE_API_KEY not set", w).
Proof. reflexivity. Qed.






(** ** Shuffling *)

Lemma swap_Permutation {A} (arr : list A) i j : Permutation (swap arr i j) arr.
Proof.
  unfold swap.
  destruct (arr !! i) as [x |] eqn:Hi; [| reflexivity].
  destruct (arr !! j) as [y |] eqn:Hj; [| reflexivity].
  now apply Permutation_insert_swap.
Qed.

Lemma shuffleLoop_Permutation {A} env pos i (arr : list A) :
  Permutation (shuffleLoop env pos i arr) arr.
Proof.
  revert pos arr. induction i as [| i IH]; intros pos arr; simpl.
  - reflexivity.
  - rewrite IH. apply swap_Permutation.
Qed.

Lemma shuffle_run {A} env (arr : list A) w :
  exists arr' w',
    shuffle env arr w = (Ok arr', w') /\ Permutation arr' arr /\
    playlistCache w' = playlistCache w /\ bumpersCache w' = bumpersCache w /\
    database w' = database w /\ upstreamCalls w' = upstreamCalls w /\
    dbQueries w' = dbQueries w /\ dbBumpersCache w' = dbBumpersCache w.
Proof.
  eexists _, _. split; [reflexivity |].
  split; [apply shuffleLoop_Permutation |].
  repeat split.
Qed.

(** ** Single-source blocks *)

Lemma fillBlock_eq steps blockSize availableVideos blockVideos :
  fillBlock steps blockSize availableVideos blockVideos =
  if length blockVideos <? blockSize then
    match steps with
    | 0 => None
    | S steps' =>
        fillBlock steps' blockSize availableVideos
          (blockVideos ++ take (blockSize - length blockVideos) availableVideos)
    end
  else Some blockVideos.
Proof. destruct steps; reflexivity. Qed.

(** With nothing to repeat the loop never leaves its first state. *)
Lemma fillBlock_empty steps blockSize :
  0 < blockSize -> fillBlock steps blockSize [] [] = None.
Proof.
  intros Hpos. induction steps as [| steps IH]; rewrite fillBlock_eq; simpl.
  - destruct (Nat.ltb_spec 0 blockSize); [reflexivity | lia].
  - destruct (Nat.ltb_spec 0 blockSize); [| lia].
    rewrite take_nil. exact IH.
Qed.

Section Fill.

Variable availableVideos : list Video.
Variable blockSize : nat.
Hypothesis nonempty : availableVideos <> [].

Abbreviation cyclicPrefix := (cyclicPrefixOf availableVideos blockSize).

Lemma n_pos : 0 < length availableVideos.
Proof.
  destruct availableVideos; [congruence | simpl; lia].
Qed.

Lemma cyclicPrefix_take : cyclicPrefix (take blockSize availableVideos).
Proof.
  pose proof n_pos as Hn. unfold cyclicPrefix. rewrite length_take.
  set (n := length availableVideos) in *.
  split; [lia |]. split.
  - intros i Hi. rewrite lookup_take_lt by lia.
    rewrite Nat.mod_small by lia. reflexivity.
  - destruct (Nat.le_gt_cases blockSize n).
    + left. lia.
    + right. rewrite Nat.min_r by lia. apply Nat.Div0.mod_same.
Qed.

Lemma cyclicPrefix_step blockVideos :
  cyclicPrefix blockVideos ->
  length blockVideos < blockSize ->
  cyclicPrefix (blockVideos ++ take (blockSize - length blockVideos) availableVideos) /\
  length blockVideos <
    length (blockVideos ++ take (blockSize - length blockVideos) availableVideos).
Proof.
  pose proof n_pos as Hn.
  intros (Hle & Hcyc & Hmod) Hlt.
  destruct Hmod as [Heq | Hmod]; [lia |].
  unfold cyclicPrefixOf. rewrite length_app, length_take.
  set (n := length availableVideos) in *.
  split; [| lia].
  split; [lia |]. split.
  - intros i Hi.
    destruct (Nat.lt_ge_cases i (length blockVideos)) as [Hlow | Hhigh].
    + rewrite lookup_app_l by exact Hlow. now apply Hcyc.
    + rewrite lookup_app_r by exact Hhigh.
      rewrite lookup_take_lt by lia.
      f_equal.
      apply Nat.Div0.div_exact in Hmod. rewrite Nat.mul_comm in Hmod.
      assert (Hi' : i = (i - length blockVideos) + (length blockVideos / n) * n) by lia.
      rewrite Hi' at 2.
      rewrite Nat.Div0.mod_add. rewrite Nat.mod_small by lia. reflexivity.
  - destruct (Nat.le_gt_cases (blockSize - length blockVideos) n).
    + left. lia.
    + right. rewrite Nat.min_r by lia.
      rewrite <- Nat.Div0.add_mod_idemp_l, Hmod. simpl. apply Nat.Div0.mod_same.
Qed.

Lemma fillBlock_total steps blockVideos :
  cyclicPrefix blockVideos ->
  blockSize - length blockVideos <= steps ->
  exists vs,
    fillBlock steps blockSize availableVideos blockVideos = Some vs /\
    length vs = blockSize /\
    forall i, i < blockSize -> vs !! i = availableVideos !! (i mod length availableVideos).
Proof.
  revert blockVideos. induction steps as [| steps IH]; intros blockVideos Hinv Hsteps;
    rewrite fillBlock_eq; destruct (Nat.ltb_spec (length blockVideos) blockSize) as [Hlt | Hge].
  - lia.
  - destruct Hinv as (Hle & Hcyc & _). exists blockVideos.
    assert (length blockVideos = blockSize) as Hlen by lia.
    split; [reflexivity |]. split; [exact Hlen |].
    intros i Hi. apply Hcyc. lia.
  - destruct (cyclicPrefix_step blockVideos Hinv Hlt) as [Hinv' Hgrow].
    apply IH; [exact Hinv' | lia].
  - destruct Hinv as (Hle & Hcyc & _). exists blockVideos.
    assert (length blockVideos = blockSize) as Hlen by lia.
    split; [reflexivity |]. split; [exact Hlen |].
    intros i Hi. apply Hcyc. lia.
Qed.

End Fill.

Lemma blockVideosOf_run env w blockSize availableVideos :
  availableVideos <> [] ->
  blockSize <= fuel env ->
  exists blockVideos,
    blockVideosOf env blockSize availableVideos w = (Ok blockVideos, w) /\
    length blockVideos = blockSize /\
    forall i, i < blockSize ->
      blockVideos !! i = availableVideos !! (i mod length availableVideos).
Proof.
  intros Hne Hfuel.
  pose proof (cyclicPrefix_take availableVideos blockSize Hne) as Hinv.
  destruct (fillBlock_total availableVideos blockSize Hne (fuel env)
              (take blockSize availableVideos) Hinv ltac:(lia))
    as (vs & Hfill & Hlen & Hcyc).
  unfold blockVideosOf, fillBlockM.
  destruct (Nat.ltb_spec (length (take blockSize availableVideos)) blockSize) as [Hlt | Hge].
  - rewrite Hfill. now exists vs.
  - rewrite fillBlock_eq in Hfill.
    destruct (Nat.ltb_spec (length (take blockSize availableVideos)) blockSize); [lia |].
    injection Hfill as <-. eexists. split; [reflexivity |]. now split.
Qed.

Lemma availableVideosOf_run env playlistId excludeVideoIds allVideos w :
  exists availableVideos w',
    availableVideosOf env playlistId excludeVideoIds allVideos w = (Ok availableVideos, w') /\
    Permutation availableVideos
      (if length (excludeIds excludeVideoIds allVideos) =? 0 then allVideos
       else excludeIds excludeVideoIds allVideos) /\
    bumpersCache w' = bumpersCache w.
Proof.
  unfold availableVideosOf.
  destruct (length (excludeIds excludeVideoIds allVideos) =? 0).
  - destruct (shuffle_run env allVideos w) as (arr & w1 & Hs & Hperm & Hrest).
    eexists _, _. split.
    + erewrite bind_Ok by exact Hs. reflexivity.
    + split; [exact Hperm |]. simpl. apply Hrest.
  - destruct (shuffle_run env (excludeIds excludeVideoIds allVideos) w)
      as (arr & w1 & Hs & Hperm & Hrest).
    eexists _, _. split; [exact Hs |]. split; [exact Hperm | apply Hrest].
Qed.

(** The two steps of [createProgrammingBlock] between the fetch and the
    bumpers both return when the playlist has a video. *)
Lemma createProgrammingBlock_steps env w playlistId excludeVideoIds allVideos blockSize :
  allVideos <> [] ->
  blockSize <= fuel env ->
  exists availableVideos blockVideos w1,
    availableVideosOf env playlistId excludeVideoIds allVideos w = (Ok availableVideos, w1) /\
    blockVideosOf env blockSize availableVideos w1 = (Ok blockVideos, w1).
Proof.
  intros Hne Hfuel.
  destruct (availableVideosOf_run env playlistId excludeVideoIds allVideos w)
    as (availableVideos & w1 & Hav & Hperm & _).
  assert (Hne' : availableVideos <> []).
  { intros ->. apply Permutation_nil_l in Hperm.
    destruct (Nat.eqb_spec (length (excludeIds excludeVideoIds allVideos)) 0) as [H0 | Hn0].
    - now apply Hne.
    - apply Hn0. now rewrite <- Hperm. }
  destruct (blockVideosOf_run env w1 blockSize availableVideos Hne' Hfuel)
    as (blockVideos & Hblock & _).
  now exists availableVideos, blockVideos, w1.
Qed.

(** The fill of [createProgrammingBlock]: when the playlist has a video,
    the available videos (those not excluded, or all when none is left)
    are shuffled and repeated cyclically up to the block size. *)
Lemma blockVideos_cyclic env w playlistId excludeVideoIds allVideos blockSize :
  allVideos <> [] ->
  blockSize <= fuel env ->
  exists availableVideos blockVideos w1,
    availableVideosOf env playlistId excludeVideoIds allVideos w = (Ok availableVideos, w1) /\
    Permutation availableVideos
      (if length (excludeIds excludeVideoIds allVideos) =? 0 then allVideos
       else excludeIds excludeVideoIds allVideos) /\
    blockVideosOf env blockSize availableVideos w1 = (Ok blockVideos, w1) /\
    length blockVideos = blockSize /\
    (forall i, i < blockSize ->
       blockVideos !! i = availableVideos !! (i mod length availableVideos)) /\
    (blockSize = 12 ->
     forall item1 item2, availableVideos = [item1; item2] ->
       blockVideos = [item1; item2; item1; item2; item1; item2;
                      item1; item2; item1; item2; item1; item2]).
Proof.
  intros Hne Hfuel.
  destruct (availableVideosOf_run env playlistId excludeVideoIds allVideos w)
    as (availableVideos & w1 & Hav & Hperm & _).
  assert (Hne' : availableVideos <> []).
  { intros ->. apply Permutation_nil_l in Hperm.
    destruct (Nat.eqb_spec (length (excludeIds excludeVideoIds allVideos)) 0) as [H0 | Hn0].
    - now apply Hne.
    - apply Hn0. now rewrite <- Hperm. }
  destruct (blockVideosOf_run env w1 blockSize availableVideos Hne' Hfuel)
    as (blockVideos & Hblock & Hlen & Hcyc).
  exists availableVideos, blockVideos, w1.
  repeat (split; [assumption |]).
  intros -> item1 item2 ->.
  do 13 (destruct blockVideos as [| ? blockVideos]; try discriminate Hlen).
  pose proof (Hcyc 0 ltac:(lia)) as H0. pose proof (Hcyc 1 ltac:(lia)) as H1.
  pose proof (Hcyc 2 ltac:(lia)) as H2. pose proof (Hcyc 3 ltac:(lia)) as H3.
  pose proof (Hcyc 4 ltac:(lia)) as H4. pose proof (Hcyc 5 ltac:(lia)) as H5.
  pose proof (Hcyc 6 ltac:(lia)) as H6. pose proof (Hcyc 7 ltac:(lia)) as H7.
  pose proof (Hcyc 8 ltac:(lia)) as H8. pose proof (Hcyc 9 ltac:(lia)) as H9.
  pose proof (Hcyc 10 ltac:(lia)) as H10. pose proof (Hcyc 11 ltac:(lia)) as H11.
  simpl in *. congruence.
Qed.

(** The interleavers only add entries: the input videos stay, in order. *)
Lemma positionalLoop_sublist shuffledBumpers vs :
  forall i bumperIndex,
    sublist (map Some vs) (positionalLoop shuffledBumpers i bumperIndex vs).
Proof.
  induction vs as [| v rest IH]; intros i bumperIndex; [constructor |].
  cbn [positionalLoop map]. destruct (isBumperSlot i).
  - apply sublist_skip, sublist_cons, IH.
  - apply sublist_skip, IH.
Qed.

Lemma insertBumpersIntoBlock_keeps env vs interval w :
  (interval = IntervalShows -> length vs = 3) ->
  exists items w',
    insertBumpersIntoBlock env vs interval w = (Ok items, w') /\
    sublist (map Some vs) items.
Proof.
  intros Hshows. unfold insertBumpersIntoBlock, bind, gets, sortShuffled, ret.
  destruct (bumpersCache w) as [bumpers |]; [| eexists _, _; split; reflexivity].
  destruct ((length bumpers =? 0) || interval_falsy interval);
    [eexists _, _; split; reflexivity |].
  destruct interval as [| n].
  - eexists _, _. split; [reflexivity |].
    specialize (Hshows eq_refl).
    destruct vs as [| v0 [| v1 [| v2 [| ? ?]]]]; try discriminate Hshows.
    simpl. apply sublist_skip, sublist_cons, sublist_skip, sublist_skip, sublist_cons.
    constructor.
  - eexists _, _. split; [reflexivity |]. apply positionalLoop_sublist.
Qed.

(** C5. [createProgrammingBlock] on a playlist that has a video returns a
    block.  Its list before the bumpers go in, [blockVideos], is the
    shuffled available videos (those not excluded, or all when none is
    left) repeated cyclically: it has exactly as many entries as the block
    size of the channel, 12 (3 on the shows channel), entry [i] being
    available video [i mod n]; two available videos and a block size of 12
    give item1, item2, item1, item2, ... twelve entries long.  The block
    returned holds these entries in this order, with the bumpers added
    between them, so it never has fewer entries than the block size. *)
Theorem createProgrammingBlock_fills env w playlistObj channel excludeVideoIds allVideos w0 :
  getPlaylistVideos env (pl_id playlistObj) None None (Some channel) w = (Ok allVideos, w0) ->
  allVideos <> [] ->
  12 <= fuel env ->
  exists availableVideos blockVideos w1 items w',
    availableVideosOf env (pl_id playlistObj) excludeVideoIds allVideos w0
      = (Ok availableVideos, w1) /\
    Permutation availableVideos
      (if length (excludeIds excludeVideoIds allVideos) =? 0 then allVideos
       else excludeIds excludeVideoIds allVideos) /\
    blockVideosOf env (fst (blockShape channel)) availableVideos w1 = (Ok blockVideos, w1) /\
    insertBumpersIntoBlock env blockVideos (snd (blockShape channel)) w1 = (Ok items, w') /\
    createProgrammingBlock env playlistObj channel excludeVideoIds w
      = (Ok (mkBlock (pl_label playlistObj) (pl_id playlistObj) items), w') /\
    fst (blockShape channel) = (if String.eqb channel "shows" then 3 else 12) /\
    length blockVideos = fst (blockShape channel) /\
    (forall i, i < fst (blockShape channel) ->
       blockVideos !! i = availableVideos !! (i mod length availableVideos)) /\
    (String.eqb channel "shows" = false ->
     forall item1 item2, availableVideos = [item1; item2] ->
       blockVideos = [item1; item2; item1; item2; item1; item2;
                      item1; item2; item1; item2; item1; item2]) /\
    sublist (map Some blockVideos) items /\
    fst (blockShape channel) <= length items.
Proof.
  intros Hget Hne Hfuel.
  assert (Hshape : fst (blockShape channel) = (if String.eqb channel "shows" then 3 else 12)
                   /\ (snd (blockShape channel) = IntervalShows ->
                       fst (blockShape channel) = 3)).
  { unfold blockShape. destruct (String.eqb channel "shows"); [now split |].
    destruct (String.eqb channel "live"); (split; [reflexivity | discriminate]). }
  destruct Hshape as [Hsize Hshows].
  assert (Hle : fst (blockShape channel) <= fuel env).
  { rewrite Hsize. destruct (String.eqb channel "shows"); lia. }
  destruct (blockVideos_cyclic env w0 (pl_id playlistObj) excludeVideoIds allVideos
              (fst (blockShape channel)) Hne Hle)
    as (availableVideos & blockVideos & w1 & Hav & Hperm & Hblock & Hlen & Hcyc & Htwo).
  destruct (insertBumpersIntoBlock_keeps env blockVideos (snd (blockShape channel)) w1)
    as (items & w' & Hins & Hsub).
  { intros Hs. rewrite Hlen. apply Hshows, Hs. }
  exists availableVideos, blockVideos, w1, items, w'.
  split; [exact Hav |]. split; [exact Hperm |]. split; [exact Hblock |].
  split; [exact Hins |].
  split.
  { unfold createProgrammingBlock. cbv zeta.
    erewrite bind_Ok by exact Hget.
    erewrite bind_Ok by exact Hav.
    destruct (blockShape channel) as [blockSize bumperInterval]. simpl fst in *. simpl snd in *.
    erewrite bind_Ok by exact Hblock.
    erewrite bind_Ok by exact Hins.
    reflexivity. }
  split; [exact Hsize |]. split; [exact Hlen |]. split; [exact Hcyc |].
  split.
  { intros Hch. apply Htwo. rewrite Hsize, Hch. reflexivity. }
  split; [exact Hsub |].
  apply sublist_length in Hsub. rewrite length_map in Hsub. lia.
Qed.

Lemma createProgrammingBlock_fills_witness :
  exists w0,
    getPlaylistVideos apiEnv "PL300C32DA374417AA" None None (Some "rock") emptyWorld
      = (Ok [songA; songB], w0) /\
  exists availableVideos blockVideos w1 items w',
    availableVideosOf apiEnv "PL300C32DA374417AA" [] [songA; songB] w0
      = (Ok availableVideos, w1) /\
    Permutation availableVideos
      (if length (excludeIds [] [songA; songB]) =? 0 then [songA; songB]
       else excludeIds [] [songA; songB]) /\
    blockVideosOf apiEnv (fst (blockShape "rock")) availableVideos w1 = (Ok blockVideos, w1) /\
    insertBumpersIntoBlock apiEnv blockVideos (snd (blockShape "rock")) w1 = (Ok items, w') /\
    createProgrammingBlock apiEnv classicRock "rock" [] emptyWorld
      = (Ok (mkBlock (Some "Classic Rock") "PL300C32DA374417AA" items), w') /\
    fst (blockShape "rock") = 12 /\
    length blockVideos = fst (blockShape "rock") /\
    (forall i, i < fst (blockShape "rock") ->
       blockVideos !! i = availableVideos !! (i mod length availableVideos)) /\
    (String.eqb "rock" "shows" = false ->
     forall item1 item2, availableVideos = [item1; item2] ->
       blockVideos = [item1; item2; item1; item2; item1; item2;
                      item1; item2; item1; item2; item1; item2]) /\
    sublist (map Some blockVideos) items /\
    fst (blockShape "rock") <= length items.
Proof.
  eexists. split; [vm_compute; reflexivity |].
  eapply (createProgrammingBlock_fills apiEnv emptyWorld classicRock "rock" []).
  - vm_compute. reflexivity.
  - discriminate.
  - simpl. lia.
Defined.

(** The block of the two-video playlist, as it is computed: the shuffle
    puts the second video first, and no bumper is loaded. *)
Example createProgrammingBlock_two_videos :
  exists w',
    createProgrammingBlock apiEnv classicRock "rock" [] emptyWorld
    = (Ok (mkBlock (Some "Classic Rock") "PL300C32DA374417AA"
             (map Some [songB; songA; songB; songA; songB; songA;
                        songB; songA; songB; songA; songB; songA])), w').
Proof. eexists. vm_compute. reflexivity. Qed.

Lemma insertBumpersIntoBlock_total env vs interval w :
  exists out w', insertBumpersIntoBlock env vs interval w = (Ok out, w').
Proof.
  unfold insertBumpersIntoBlock, bind, gets, sortShuffled, ret.
  destruct (bumpersCache w) as [bumpers |]; [| eexists _, _; reflexivity].
  destruct ((length bumpers =? 0) || interval_falsy interval);
    [eexists _, _; reflexivity |].
  destruct interval; eexists _, _; reflexivity.
Qed.

(** A playlist with a video always gives a block. *)
Lemma createProgrammingBlock_returns env w playlistObj channel excludeVideoIds vs w1 :
  getPlaylistVideos env (pl_id playlistObj) None None (Some channel) w = (Ok vs, w1) ->
  vs <> [] ->
  12 <= fuel env ->
  exists block w',
    createProgrammingBlock env playlistObj channel excludeVideoIds w = (Ok block, w') /\
    blk_playlistId block = pl_id playlistObj.
Proof.
  intros Hget Hne Hfuel. unfold createProgrammingBlock. cbv zeta.
  erewrite bind_Ok by exact Hget.
  assert (Hshape : exists bs iv, blockShape channel = (bs, iv) /\ bs <= 12).
  { unfold blockShape. destruct (String.eqb channel "shows").
    - eexists _, _. split; [reflexivity | lia].
    - destruct (String.eqb channel "live"); eexists _, _; (split; [reflexivity | lia]). }
  destruct Hshape as (bs & iv & Hshape & Hbs).
  destruct (createProgrammingBlock_steps env w1 (pl_id playlistObj) excludeVideoIds vs bs
              Hne ltac:(lia))
    as (available & blockVideos & w2 & Hav & Hblock).
  erewrite bind_Ok by exact Hav. rewrite Hshape.
  erewrite bind_Ok by exact Hblock.
  destruct (insertBumpersIntoBlock_total env blockVideos iv w2) as (out & w3 & Hins).
  erewrite bind_Ok by exact Hins.
  eexists _, _. split; reflexivity.
Qed.

(** With an empty playlist the fill loop of [createProgrammingBlock] is
    still running after any number of iterations. *)
Lemma createProgrammingBlock_empty env w playlistObj channel excludeVideoIds w1 :
  getPlaylistVideos env (pl_id playlistObj) None None (Some channel) w = (Ok [], w1) ->
  fst (createProgrammingBlock env playlistObj channel excludeVideoIds w) = Diverge.
Proof.
  intros Hget. unfold createProgrammingBlock. cbv zeta.
  erewrite bind_Ok by exact Hget.
  unfold availableVideosOf. unfold excludeIds at 1. rewrite filter_nil. simpl length.
  simpl Nat.eqb. cbv iota.
  unfold bind at 1. unfold bind at 1. unfold shuffle. simpl shuffleLoop.
  unfold writeBack, modify, ret.
  assert (Hshape : exists bs iv, blockShape channel = (bs, iv) /\ 0 < bs).
  { unfold blockShape. destruct (String.eqb channel "shows").
    - eexists _, _. split; [reflexivity | lia].
    - destruct (String.eqb channel "live"); eexists _, _; (split; [reflexivity | lia]). }
  destruct Hshape as (bs & iv & -> & Hbs).
  unfold bind at 1. unfold blockVideosOf. rewrite take_nil. simpl length.
  destruct (Nat.ltb_spec 0 bs); [| lia].
  unfold fillBlockM. rewrite fillBlock_empty by exact Hbs. reflexivity.
Qed.

(** The special channel guards the same loop: an empty playlist is
    reported as an error. *)
Lemma getSpecialChannelBlock_empty env w playlist w0 w1 :
  sp_enabled (SPECIAL_EVENT_CONFIG env) = true ->
  pickRandom env (sp_playlists (SPECIAL_EVENT_CONFIG env)) w = (Ok (Some playlist), w0) ->
  getPlaylistVideos env (pl_id playlist) None None (Some "special") w0 = (Ok [], w1) ->
  getSpecialChannelBlock env w = (Throw "No videos found for special channel", w1).
Proof.
  intros Hen Hpick Hget. unfold getSpecialChannelBlock. cbv zeta. rewrite Hen. simpl negb.
  destruct (length (sp_playlists (SPECIAL_EVENT_CONFIG env)) =? 0) eqn:Hlen.
  - apply Nat.eqb_eq in Hlen. destruct (sp_playlists (SPECIAL_EVENT_CONFIG env));
      [| discriminate Hlen].
    unfold pickRandom, bind, randomBelow, ret in Hpick. simpl in Hpick. discriminate.
  - cbv [negb orb]. erewrite bind_Ok by exact Hpick. cbv beta iota.
    erewrite bind_Ok by exact Hget. reflexivity.
Qed.

(** C10 fails on the code.  On the rock channel with one official playlist
    whose fetch fails, the listing comes back empty and is cached as the
    empty list, and the block assembly is still in the fill loop of
    [createProgrammingBlock] after [steps] iterations, for every [steps]. *)
Theorem createProgrammingBlock_empty_playlist_loops :
  forall steps,
    fst (getChannelBlockWithFallback (failingRockEnv steps) "rock" [] [] [] false emptyWorld)
    = Diverge.
Proof.
  intros steps.
  unfold getChannelBlockWithFallback.
  change (USE_DATABASE (failingRockEnv steps)) with false. cbv iota.
  unfold getChannelBlock. eval_string_tests. cbv iota.
  assert (Hsel : exists w0,
    selectRandomPlaylist (failingRockEnv steps) "rock" [] [] false emptyWorld
    = (Ok (Some classicRock), w0)).
  { eexists. vm_compute. reflexivity. }
  destruct Hsel as [w0 Hsel].
  erewrite bind_Ok by exact Hsel.
  change (pl_isCustom classicRock) with false. cbv iota.
  assert (Hget : exists w1,
    getPlaylistVideos (failingRockEnv steps) (pl_id classicRock) None None (Some "rock") w0
    = (Ok [], w1)).
  { vm_compute in Hsel. injection Hsel as <-. eexists. vm_compute. reflexivity. }
  destruct Hget as [w1 Hget].
  eapply createProgrammingBlock_empty. exact Hget.
Qed.

(** ** Bumper interleaving *)

Lemma mod_succ_neq k n : 2 <= n -> k mod n <> S k mod n.
Proof.
  intros Hn Heq.
  assert (Hlt : k mod n < n) by (apply Nat.mod_upper_bound; lia).
  replace (S k) with (k + 1) in Heq by lia.
  rewrite <- Nat.Div0.add_mod_idemp_l in Heq.
  destruct (Nat.lt_ge_cases (k mod n + 1) n) as [Hsmall | Hbig].
  - rewrite (Nat.mod_small (k mod n + 1)) in Heq by exact Hsmall. lia.
  - assert (Hk : k mod n + 1 = n) by lia.
    rewrite Hk, Nat.Div0.mod_same in Heq. lia.
Qed.

Lemma ids_distinct (s : list Video) i j a b :
  NoDup (map id s) -> s !! i = Some a -> s !! j = Some b -> i <> j -> id a <> id b.
Proof.
  intros Hnd Ha Hb Hij Heq. apply Hij.
  apply (NoDup_lookup (map id s) i j (id a)); [exact Hnd | |].
  - change (map id s) with (id <$> s). rewrite list_lookup_fmap, Ha. reflexivity.
  - change (map id s) with (id <$> s). rewrite list_lookup_fmap, Hb, Heq. reflexivity.
Qed.

Lemma bumperAt_Some (s : list Video) k :
  s <> [] -> exists b, bumperAt s k = Some b /\ b ∈ s.
Proof.
  intros Hne. unfold bumperAt.
  assert (Hlt : k mod length s < length s).
  { apply Nat.mod_upper_bound. destruct s; [congruence | simpl; lia]. }
  apply lookup_lt_is_Some_2 in Hlt as [b Hb].
  exists b. split; [exact Hb |]. eapply list_elem_of_lookup_2. exact Hb.
Qed.

Lemma isBumperSlot_ge i : 12 <= i -> isBumperSlot i = false.
Proof.
  intros Hi. unfold isBumperSlot.
  destruct (Nat.eqb_spec i 1); [lia |]. destruct (Nat.eqb_spec i 5); [lia |].
  destruct (Nat.eqb_spec i 9); [lia |]. destruct (Nat.eqb_spec i 11); [lia |].
  reflexivity.
Qed.

Lemma positionalLoop_tail s i k vs :
  12 <= i -> positionalLoop s i k vs = map Some vs.
Proof.
  revert i. induction vs as [| v vs IH]; intros i Hi; simpl; [reflexivity |].
  rewrite isBumperSlot_ge by exact Hi. rewrite IH by lia. reflexivity.
Qed.

Lemma positionalLoop_12 s vs :
  12 <= length vs ->
  positionalLoop s 0 0 vs =
    map Some (take 2 vs) ++ [bumperAt s 0] ++
    map Some (take 4 (drop 2 vs)) ++ [bumperAt s 1] ++
    map Some (take 4 (drop 6 vs)) ++ [bumperAt s 2] ++
    map Some (take 2 (drop 10 vs)) ++ [bumperAt s 3] ++
    map Some (drop 12 vs).
Proof.
  intros Hlen.
  do 12 (destruct vs as [| ? vs]; [simpl in Hlen; lia |]).
  cbn [positionalLoop isBumperSlot Nat.eqb orb].
  rewrite positionalLoop_tail by lia. reflexivity.
Qed.

(** Where the bumpers of the music/live pattern sit. *)
Lemma positionalShape_positions vs b0 b1 b2 b3 :
  12 <= length vs ->
  Forall regular vs ->
  bumper b0 -> bumper b1 -> bumper b2 -> bumper b3 ->
  length (positionalShape vs b0 b1 b2 b3) = length vs + 4 /\
  forall k, bumperAtPosition (positionalShape vs b0 b1 b2 b3) k <->
            k = 2 \/ k = 7 \/ k = 12 \/ k = 15.
Proof.
  intros Hlen Hreg H0 H1 H2 H3.
  do 12 (destruct vs as [| ? vs]; [simpl in Hlen; lia |]).
  repeat match goal with
         | H : Forall regular (_ :: _) |- _ =>
             apply Forall_cons in H; destruct H as [? H]
         end.
  unfold positionalShape. cbn [take drop map app]. rewrite take_0, drop_0.
  cbn [map app].
  split; [simpl; rewrite length_map; lia |].
  intros k. unfold bumperAtPosition, regular, bumper in *.
  do 16 (destruct k as [| k];
         [simpl; split;
          [intros (b & Hb & Hbump); injection Hb as <-;
           first [ congruence | lia ]
          | intros Hk; first [ lia | eexists; split; [reflexivity | assumption] ] ] |]).
  simpl. split.
  - intros (b & Hb & Hbump). exfalso.
    change (map Some vs) with (Some <$> vs) in Hb.
    rewrite list_lookup_fmap in Hb.
    destruct (vs !! k) as [x |] eqn:Hx; [| discriminate].
    injection Hb as <-.
    rewrite Forall_forall in Hreg.
    assert (isBumper x = false) by (apply Hreg; eapply list_elem_of_lookup_2; exact Hx).
    congruence.
  - intros Hk. lia.
Qed.

(** The rejection loop of [getRandomBumper] ends on the first draw that is
    not the last index. *)
Lemma drawBumperIndex_run env n lastBumperIndex steps w :
  0 < n ->
  (exists j, j < steps /\ Some (rnd env (rndPos w + j) mod n) <> lastBumperIndex) ->
  exists i w',
    drawBumperIndex env steps n lastBumperIndex w = (Ok i, w') /\
    i < n /\ Some i <> lastBumperIndex.
Proof.
  intros Hn. revert w. induction steps as [| steps IH]; intros w (j & Hj & Hne).
  - lia.
  - simpl. unfold bind at 1. unfold randomBelow.
    destruct n as [| n']; [lia |].
    destruct (decide (Some (rnd env (rndPos w) mod S n') = lastBumperIndex)) as [Heq | Hdiff].
    + destruct j as [| j'].
      * rewrite Nat.add_0_r in Hne. contradiction.
      * apply IH. exists j'. split; [lia |].
        simpl. rewrite <- Nat.add_succ_r. exact Hne.
    + eexists _, _. split; [reflexivity |]. split; [| exact Hdiff].
      apply Nat.mod_upper_bound. lia.
Qed.

Lemma fair_draw env n lastBumperIndex w :
  DrawsFair env -> 2 <= n ->
  exists j, j < fuel env /\ Some (rnd env (rndPos w + j) mod n) <> lastBumperIndex.
Proof.
  intros Hfair Hn. destruct lastBumperIndex as [l |].
  - destruct (Hfair (rndPos w) n l Hn) as (j & Hj & Hne).
    exists j. split; [exact Hj | congruence].
  - destruct (Hfair (rndPos w) n 0 Hn) as (j & Hj & _).
    exists j. split; [exact Hj | discriminate].
Qed.

Lemma getRandomBumper_run env bumpers lastBumperIndex w :
  DrawsFair env -> bumpers <> [] ->
  exists b last' w',
    getRandomBumper env bumpers lastBumperIndex w = (Ok (Some b, last'), w') /\
    b ∈ bumpers /\
    (2 <= length bumpers ->
       exists i, last' = Some i /\ bumpers !! i = Some b /\ Some i <> lastBumperIndex).
Proof.
  intros Hfair Hne. unfold getRandomBumper.
  destruct bumpers as [| b0 rest]; [congruence |].
  destruct rest as [| b1 rest].
  - simpl. exists b0, lastBumperIndex, w. split; [reflexivity |].
    split; [apply list_elem_of_here | simpl; lia].
  - assert (Hlen : 2 <= length (b0 :: b1 :: rest)) by (simpl; lia).
    change (length (b0 :: b1 :: rest) =? 1) with false. cbv iota.
    destruct (drawBumperIndex_run env (length (b0 :: b1 :: rest)) lastBumperIndex
                (fuel env) w ltac:(lia) (fair_draw env _ lastBumperIndex w Hfair Hlen))
      as (i & w' & Hdraw & Hi & Hdiff).
    erewrite bind_Ok by exact Hdraw.
    apply lookup_lt_is_Some_2 in Hi as [b Hb].
    exists b, (Some i), w'. unfold ret. rewrite Hb.
    split; [reflexivity |]. split; [eapply list_elem_of_lookup_2; exact Hb |].
    intros _. now exists i.
Qed.

Lemma positionalLoopDB_plain env bumpers i last v rest w tl w' :
  isBumperSlot i = false ->
  positionalLoopDB env bumpers (S i) last rest w = (Ok tl, w') ->
  positionalLoopDB env bumpers i last (v :: rest) w = (Ok (Some v :: tl), w').
Proof.
  intros Hslot Htl. simpl. rewrite Hslot.
  erewrite bind_Ok by exact Htl. reflexivity.
Qed.

Lemma positionalLoopDB_slot env bumpers i last v rest w b last' w1 tl w' :
  isBumperSlot i = true ->
  getRandomBumper env bumpers last w = (Ok (b, last'), w1) ->
  positionalLoopDB env bumpers (S i) last' rest w1 = (Ok tl, w') ->
  positionalLoopDB env bumpers i last (v :: rest) w = (Ok (Some v :: b :: tl), w').
Proof.
  intros Hslot Hb Htl. simpl. rewrite Hslot.
  erewrite bind_Ok by exact Hb. simpl.
  erewrite bind_Ok by exact Htl. reflexivity.
Qed.

Lemma positionalLoopDB_tail env bumpers i last vs w :
  12 <= i -> positionalLoopDB env bumpers i last vs w = (Ok (map Some vs), w).
Proof.
  revert i. induction vs as [| v vs IH]; intros i Hi; [reflexivity |].
  apply positionalLoopDB_plain; [apply isBumperSlot_ge; exact Hi |].
  apply IH. lia.
Qed.

Lemma positionalLoopDB_12 env bumpers vs w :
  DrawsFair env -> bumpers <> [] ->
  12 <= length vs ->
  exists b0 b1 b2 b3 w',
    positionalLoopDB env bumpers 0 None vs w = (Ok (positionalShape vs b0 b1 b2 b3), w') /\
    b0 ∈ bumpers /\ b1 ∈ bumpers /\ b2 ∈ bumpers /\ b3 ∈ bumpers.
Proof.
  intros Hfair Hne Hlen.
  do 12 (destruct vs as [| ? vs]; [simpl in Hlen; lia |]).
  destruct (getRandomBumper_run env bumpers None w Hfair Hne)
    as (b0 & l0 & w0 & Hb0 & Hin0 & _).
  destruct (getRandomBumper_run env bumpers l0 w0 Hfair Hne)
    as (b1 & l1 & w1 & Hb1 & Hin1 & _).
  destruct (getRandomBumper_run env bumpers l1 w1 Hfair Hne)
    as (b2 & l2 & w2 & Hb2 & Hin2 & _).
  destruct (getRandomBumper_run env bumpers l2 w2 Hfair Hne)
    as (b3 & l3 & w3 & Hb3 & Hin3 & _).
  exists b0, b1, b2, b3, w3.
  split; [| tauto].
  unfold positionalShape. cbn [take drop map app]. rewrite take_0, drop_0.
  cbn [map app].
  apply positionalLoopDB_plain; [reflexivity |].
  eapply positionalLoopDB_slot; [reflexivity | exact Hb0 |].
  do 3 (apply positionalLoopDB_plain; [reflexivity |]).
  eapply positionalLoopDB_slot; [reflexivity | exact Hb1 |].
  do 3 (apply positionalLoopDB_plain; [reflexivity |]).
  eapply positionalLoopDB_slot; [reflexivity | exact Hb2 |].
  apply positionalLoopDB_plain; [reflexivity |].
  eapply positionalLoopDB_slot; [reflexivity | exact Hb3 |].
  apply positionalLoopDB_tail. lia.
Qed.

Lemma sortShuffled_run {A} env (arr : list A) w :
  EnvOk env ->
  exists arr' w', sortShuffled env arr w = (Ok arr', w') /\ Permutation arr' arr.
Proof.
  intros [Hsort _]. eexists _, _. split; [reflexivity | apply Hsort].
Qed.

(** C2. On at least 12 regular items and a non-empty pool the music/live
    pattern inserts one bumper after the source positions 2, 6, 10 and 12:
    the block is 2 items, bumper, 4 items, bumper, 4 items, bumper,
    2 items, bumper and the remaining items, so that bumpers sit exactly at
    the positions 3, 8, 13 and 16 (2, 7, 12 and 15 counted from 0).  This
    holds of [insertBumpersIntoBlock] (pool [bumpersCache]) and of
    [insertBumpersIntoBlockFromDB] (pool passed in). *)
Theorem insertBumpers_positions env w vs pool n :
  12 <= length vs ->
  Forall regular vs ->
  pool <> [] ->
  Forall bumper pool ->
  EnvOk env ->
  DrawsFair env ->
  (bumpersCache w = Some pool ->
   exists b0 b1 b2 b3 w',
     insertBumpersIntoBlock env vs (IntervalNum (S n)) w
       = (Ok (positionalShape vs b0 b1 b2 b3), w') /\
     b0 ∈ pool /\ b1 ∈ pool /\ b2 ∈ pool /\ b3 ∈ pool /\
     length (positionalShape vs b0 b1 b2 b3) = length vs + 4 /\
     forall k, bumperAtPosition (positionalShape vs b0 b1 b2 b3) k <->
               k = 2 \/ k = 7 \/ k = 12 \/ k = 15) /\
  (exists b0 b1 b2 b3 w',
     insertBumpersIntoBlockFromDB env vs pool (IntervalNum n) w
       = (Ok (positionalShape vs b0 b1 b2 b3), w') /\
     b0 ∈ pool /\ b1 ∈ pool /\ b2 ∈ pool /\ b3 ∈ pool /\
     length (positionalShape vs b0 b1 b2 b3) = length vs + 4 /\
     forall k, bumperAtPosition (positionalShape vs b0 b1 b2 b3) k <->
               k = 2 \/ k = 7 \/ k = 12 \/ k = 15).
Proof.
  intros Hlen Hreg Hne Hbump Hok Hfair.
  rewrite Forall_forall in Hbump.
  split.
  - intros Hcache. unfold insertBumpersIntoBlock, bind at 1, gets. rewrite Hcache.
    destruct pool as [| p0 pool']; [congruence |].
    change (length (p0 :: pool') =? 0) with false.
    change (interval_falsy (IntervalNum (S n))) with false. cbv [orb].
    destruct (sortShuffled_run env (p0 :: pool') w Hok) as (s & w' & Hs & Hperm).
    erewrite bind_Ok by exact Hs.
    assert (Hsne : s <> []).
    { intros ->. apply Permutation_nil_l in Hperm. discriminate. }
    destruct (bumperAt_Some s 0 Hsne) as (b0 & Hb0 & Hin0).
    destruct (bumperAt_Some s 1 Hsne) as (b1 & Hb1 & Hin1).
    destruct (bumperAt_Some s 2 Hsne) as (b2 & Hb2 & Hin2).
    destruct (bumperAt_Some s 3 Hsne) as (b3 & Hb3 & Hin3).
    rewrite Hperm in Hin0, Hin1, Hin2, Hin3.
    exists b0, b1, b2, b3, w'.
    split.
    { unfold ret. rewrite positionalLoop_12 by exact Hlen.
      rewrite Hb0, Hb1, Hb2, Hb3. reflexivity. }
    repeat (split; [assumption |]).
    apply positionalShape_positions; auto.
  - unfold insertBumpersIntoBlockFromDB.
    destruct pool as [| p0 pool']; [congruence |].
    change (length (p0 :: pool') =? 0) with false. cbv iota.
    destruct (positionalLoopDB_12 env (p0 :: pool') vs w Hfair Hne Hlen)
      as (b0 & b1 & b2 & b3 & w' & Hrun & Hin0 & Hin1 & Hin2 & Hin3).
    exists b0, b1, b2, b3, w'.
    split; [exact Hrun |].
    repeat (split; [assumption |]).
    apply positionalShape_positions; auto.
Qed.

Lemma plainEnv_ok : EnvOk plainEnv.
Proof. split; intros; reflexivity. Qed.

Lemma plainEnv_fair : DrawsFair plainEnv.
Proof.
  intros pos n last Hn. simpl.
  destruct (decide (pos mod n = last)) as [Heq | Hne].
  - exists 1. split; [lia |]. rewrite <- Heq.
    replace (pos + 1) with (S pos) by lia.
    intros H. symmetry in H. revert H. now apply mod_succ_neq.
  - exists 0. split; [lia |]. now rewrite Nat.add_0_r.
Qed.

Lemma insertBumpers_positions_witness :
  (exists b0 b1 b2 b3 w',
     insertBumpersIntoBlock plainEnv twelveSongs (IntervalNum 4)
       (worldOfBumpers [bumperX; bumperY])
       = (Ok (positionalShape twelveSongs b0 b1 b2 b3), w') /\
     forall k, bumperAtPosition (positionalShape twelveSongs b0 b1 b2 b3) k <->
               k = 2 \/ k = 7 \/ k = 12 \/ k = 15) /\
  (exists b0 b1 b2 b3 w',
     insertBumpersIntoBlockFromDB plainEnv twelveSongs [bumperX; bumperY] (IntervalNum 4)
       (worldOfBumpers [bumperX; bumperY])
       = (Ok (positionalShape twelveSongs b0 b1 b2 b3), w') /\
     forall k, bumperAtPosition (positionalShape twelveSongs b0 b1 b2 b3) k <->
               k = 2 \/ k = 7 \/ k = 12 \/ k = 15).
Proof.
  destruct (insertBumpers_positions plainEnv (worldOfBumpers [bumperX; bumperY])
              twelveSongs [bumperX; bumperY] 3) as [Hapi Hdb].
  - simpl. lia.
  - repeat constructor.
  - discriminate.
  - repeat constructor.
  - exact plainEnv_ok.
  - exact plainEnv_fair.
  - split.
    + destruct (Hapi eq_refl) as (b0 & b1 & b2 & b3 & w' & Hrun & _ & _ & _ & _ & _ & Hpos).
      now exists b0, b1, b2, b3, w'.
    + destruct Hdb as (b0 & b1 & b2 & b3 & w' & Hrun & _ & _ & _ & _ & _ & Hpos).
      now exists b0, b1, b2, b3, w'.
Defined.

(** *** No immediate repeat *)

Lemma adjacentDistinct_cons x t :
  (forall y, head t = Some y -> x <> y) ->
  adjacentDistinct t ->
  adjacentDistinct (x :: t).
Proof.
  intros Hhead Ht. destruct t as [| y t']; simpl; [exact I |].
  split; [apply Hhead; reflexivity | exact Ht].
Qed.

Lemma bumperIds_regular v rest :
  regular v -> bumperIds (Some v :: rest) = bumperIds rest.
Proof. intros Hv. unfold bumperIds. simpl. unfold regular in Hv. now rewrite Hv. Qed.

Lemma bumperIds_bumper b rest :
  bumper b -> bumperIds (Some b :: rest) = id b :: bumperIds rest.
Proof. intros Hb. unfold bumperIds. simpl. unfold bumper in Hb. now rewrite Hb. Qed.

Lemma bumperIds_lookup (vs : list Video) i rest :
  Forall regular vs -> bumperIds (vs !! i :: rest) = bumperIds rest.
Proof.
  intros Hreg. destruct (vs !! i) as [v |] eqn:Hv; [| reflexivity].
  apply bumperIds_regular. rewrite Forall_forall in Hreg. apply Hreg.
  eapply list_elem_of_lookup_2. exact Hv.
Qed.

Lemma two_nonempty {A} (l : list A) : 2 <= length l -> l <> [].
Proof. destruct l; [simpl; lia | discriminate]. Qed.

Section NoRepeat.

Variable pool : list Video.
Hypothesis pool_two : 2 <= length pool.
Hypothesis pool_ids : NoDup (map id pool).
Hypothesis pool_bumpers : Forall bumper pool.

Lemma pool_nonempty : pool <> [].
Proof. apply two_nonempty. exact pool_two. Qed.

Lemma pool_lookup_bumper i b : pool !! i = Some b -> bumper b.
Proof.
  intros Hb. rewrite Forall_forall in pool_bumpers. apply pool_bumpers.
  eapply list_elem_of_lookup_2. exact Hb.
Qed.

Lemma bumperAt_next_distinct k a b :
  bumperAt pool k = Some a -> bumperAt pool (S k) = Some b -> id a <> id b.
Proof.
  unfold bumperAt. intros Ha Hb.
  eapply ids_distinct; [exact pool_ids | exact Ha | exact Hb |].
  apply mod_succ_neq. exact pool_two.
Qed.

(** The bumpers of the loop of [insertBumpersIntoBlock] are consecutive
    entries of the shuffled pool. *)
Lemma positionalLoop_distinct vs :
  Forall regular vs ->
  forall i k,
    adjacentDistinct (bumperIds (positionalLoop pool i k vs)) /\
    forall x, head (bumperIds (positionalLoop pool i k vs)) = Some x ->
              exists b, bumperAt pool k = Some b /\ id b = x.
Proof.
  induction 1 as [| v vs Hv Hvs IH]; intros i k; simpl.
  - split; [exact I | discriminate].
  - destruct (isBumperSlot i).
    + destruct (bumperAt_Some pool k pool_nonempty) as (b & Hb & Hin).
      rewrite Hb. rewrite bumperIds_regular by exact Hv.
      rewrite bumperIds_bumper by (rewrite Forall_forall in pool_bumpers; auto).
      destruct (IH (S i) (S k)) as [Hadj Hhead].
      split.
      * apply adjacentDistinct_cons; [| exact Hadj].
        intros y Hy. destruct (Hhead y Hy) as (b' & Hb' & <-).
        eapply bumperAt_next_distinct; eassumption.
      * intros x Hx. injection Hx as <-. now exists b.
    + rewrite bumperIds_regular by exact Hv. apply IH.
Qed.

Variable env : Env.
Hypothesis fair : DrawsFair env.

(** The bumpers of the loop of [insertBumpersIntoBlockFromDB]: each index
    drawn differs from the one drawn before. *)
Lemma positionalLoopDB_distinct vs :
  Forall regular vs ->
  forall i last w,
    exists out w',
      positionalLoopDB env pool i last vs w = (Ok out, w') /\
      adjacentDistinct (bumperIds out) /\
      forall j b x, last = Some j -> pool !! j = Some b ->
                    head (bumperIds out) = Some x -> id b <> x.
Proof.
  induction 1 as [| v vs Hv Hvs IH]; intros i last w.
  - exists [], w. split; [reflexivity |]. split; [exact I | discriminate].
  - destruct (isBumperSlot i) eqn:Hslot.
    + destruct (getRandomBumper_run env pool last w fair pool_nonempty)
        as (b & last' & w1 & Hb & Hin & Htwo).
      destruct (Htwo pool_two) as (i' & -> & Hlook & Hdiff).
      destruct (IH (S i) (Some i') w1) as (tl & w' & Htl & Hadj & Hhead).
      exists (Some v :: Some b :: tl), w'.
      split; [eapply positionalLoopDB_slot; eassumption |].
      rewrite bumperIds_regular by exact Hv.
      rewrite bumperIds_bumper by (eapply pool_lookup_bumper; exact Hlook).
      split.
      * apply adjacentDistinct_cons; [| exact Hadj].
        intros y Hy. eapply Hhead; [reflexivity | exact Hlook | exact Hy].
      * intros j b' x -> Hj Hx. injection Hx as <-.
        eapply ids_distinct; [exact pool_ids | exact Hj | exact Hlook |].
        congruence.
    + destruct (IH (S i) last w) as (tl & w' & Htl & Hadj & Hhead).
      exists (Some v :: tl), w'.
      split; [apply positionalLoopDB_plain; assumption |].
      rewrite bumperIds_regular by exact Hv. split; assumption.
Qed.

End NoRepeat.

Lemma bumperIds_map_Some vs : Forall regular vs -> bumperIds (map Some vs) = [].
Proof.
  induction 1 as [| v vs Hv Hvs IH]; [reflexivity |].
  simpl map. rewrite bumperIds_regular by exact Hv. exact IH.
Qed.

(** The interleavers on a pool without a repeated id.  When the pool has
    at least two entries with pairwise different ids, no bumper inserted
    into a block has the id of the bumper inserted before it, in either
    interleaver and either pattern; with an empty pool (or none) the block
    is the input. *)
Theorem interleave_no_immediate_repeat env w vs pool interval :
  EnvOk env ->
  DrawsFair env ->
  Forall regular vs ->
  Forall bumper pool ->
  NoDup (map id pool) ->
  2 <= length pool ->
  (bumpersCache w = Some pool ->
   exists out w',
     insertBumpersIntoBlock env vs interval w = (Ok out, w') /\
     adjacentDistinct (bumperIds out)) /\
  (exists out w',
     insertBumpersIntoBlockFromDB env vs pool interval w = (Ok out, w') /\
     adjacentDistinct (bumperIds out)) /\
  (bumpersCache w = None \/ bumpersCache w = Some [] ->
   insertBumpersIntoBlock env vs interval w = (Ok (map Some vs), w)) /\
  insertBumpersIntoBlockFromDB env vs [] interval w = (Ok (map Some vs), w).
Proof.
  intros Hok Hfair Hreg Hbump Hnd Htwo.
  assert (Hne : pool <> []) by (apply two_nonempty; exact Htwo).
  split; [| split; [| split]].
  - intros Hcache. unfold insertBumpersIntoBlock, bind at 1, gets. rewrite Hcache.
    destruct (Nat.eqb_spec (length pool) 0) as [H0 | _]; [lia |]. cbv [orb].
    destruct (interval_falsy interval) eqn:Hfalsy.
    { eexists _, _. split; [reflexivity |].
      rewrite bumperIds_map_Some by exact Hreg. exact I. }
    destruct (sortShuffled_run env pool w Hok) as (s & w' & Hs & Hperm).
    erewrite bind_Ok by exact Hs.
    assert (Hs2 : 2 <= length s) by (rewrite Hperm; exact Htwo).
    assert (Hsnd : NoDup (map id s)) by (rewrite Hperm; exact Hnd).
    assert (Hsb : Forall bumper s) by (rewrite Hperm; exact Hbump).
    destruct interval as [| m].
    + eexists _, _. split; [reflexivity |].
      destruct (bumperAt_Some s 0 (two_nonempty s Hs2)) as (b0 & Hb0 & Hin0).
      destruct (bumperAt_Some s 1 (two_nonempty s Hs2)) as (b1 & Hb1 & Hin1).
      rewrite Hb0, Hb1. rewrite Forall_forall in Hsb.
      rewrite bumperIds_lookup by exact Hreg.
      rewrite bumperIds_bumper by auto.
      rewrite !bumperIds_lookup by exact Hreg.
      rewrite bumperIds_bumper by auto.
      simpl. split; [| exact I].
      eapply bumperAt_next_distinct; eassumption.
    + eexists _, _. split; [reflexivity |].
      apply positionalLoop_distinct; assumption.
  - unfold insertBumpersIntoBlockFromDB.
    destruct (Nat.eqb_spec (length pool) 0) as [H0 | _]; [lia |].
    destruct interval as [| m].
    + destruct (getRandomBumper_run env pool None w Hfair Hne)
        as (b1 & l1 & w1 & Hb1 & Hin1 & Ht1).
      destruct (Ht1 Htwo) as (i1 & -> & Hl1 & _).
      destruct (getRandomBumper_run env pool (Some i1) w1 Hfair Hne)
        as (b2 & l2 & w2 & Hb2 & Hin2 & Ht2).
      destruct (Ht2 Htwo) as (i2 & -> & Hl2 & Hdiff).
      erewrite bind_Ok by exact Hb1. simpl snd.
      erewrite bind_Ok by exact Hb2. simpl fst.
      eexists _, _. split; [reflexivity |].
      rewrite Forall_forall in Hbump.
      rewrite bumperIds_lookup by exact Hreg.
      rewrite bumperIds_bumper by auto.
      rewrite !bumperIds_lookup by exact Hreg.
      rewrite bumperIds_bumper by auto.
      simpl. split; [| exact I].
      eapply ids_distinct; [exact Hnd | exact Hl1 | exact Hl2 | congruence].
    + destruct (positionalLoopDB_distinct pool Htwo Hnd Hbump env Hfair vs Hreg 0 None w)
        as (out & w' & Hrun & Hadj & _).
      now exists out, w'.
  - intros [Hnone | Hempty]; unfold insertBumpersIntoBlock, bind, gets.
    + rewrite Hnone. reflexivity.
    + rewrite Hempty. reflexivity.
  - reflexivity.
Qed.

Lemma interleave_no_immediate_repeat_witness :
  (exists out w',
     insertBumpersIntoBlock plainEnv twelveSongs (IntervalNum 4)
       (worldOfBumpers [bumperX; bumperY]) = (Ok out, w') /\
     adjacentDistinct (bumperIds out)) /\
  (exists out w',
     insertBumpersIntoBlockFromDB plainEnv twelveSongs [bumperX; bumperY] (IntervalNum 4)
       (worldOfBumpers [bumperX; bumperY]) = (Ok out, w') /\
     adjacentDistinct (bumperIds out)).
Proof.
  destruct (interleave_no_immediate_repeat plainEnv (worldOfBumpers [bumperX; bumperY])
              twelveSongs [bumperX; bumperY] (IntervalNum 4))
    as (Hapi & Hdb & _).
  - exact plainEnv_ok.
  - exact plainEnv_fair.
  - repeat constructor.
  - repeat constructor.
  - by_compute.
  - simpl. lia.
  - split; [apply Hapi; reflexivity | exact Hdb].
Defined.

Lemma bumperIds_app l k : bumperIds (l ++ k) = bumperIds l ++ bumperIds k.
Proof. unfold bumperIds. apply flat_map_app. Qed.

(** A pool of three entries that do not have three different ids puts,
    in whichever order the shuffle leaves it, one id at two successive
    bumper slots of a block of twelve: the four slots take the entries
    0, 1, 2 and 0 again. *)
Lemma repeated_id_meets_itself env w vs pool :
  EnvOk env ->
  Forall regular vs ->
  12 <= length vs ->
  Forall bumper pool ->
  length pool = 3 ->
  ~ NoDup (map id pool) ->
  bumpersCache w = Some pool ->
  exists out w',
    insertBumpersIntoBlock env vs (IntervalNum 4) w = (Ok out, w') /\
    ~ adjacentDistinct (bumperIds out).
Proof.
  intros Hok Hreg Hlen Hbump H3 Hdup Hcache.
  unfold insertBumpersIntoBlock, bind at 1, gets. rewrite Hcache.
  destruct (Nat.eqb_spec (length pool) 0) as [H0 | _]; [lia |]. cbv [orb interval_falsy].
  destruct (sortShuffled_run env pool w Hok) as (s & w' & Hs & Hperm).
  erewrite bind_Ok by exact Hs.
  eexists _, _. split; [reflexivity |].
  assert (Hs3 : length s = 3) by (rewrite Hperm; exact H3).
  assert (Hsb : Forall bumper s) by (rewrite Hperm; exact Hbump).
  assert (Hsd : ~ NoDup (map id s)) by (rewrite Hperm; exact Hdup).
  destruct s as [| a [| b [| c [| ? ?]]]]; try discriminate Hs3.
  apply Forall_cons in Hsb as [Ha Hsb]. apply Forall_cons in Hsb as [Hb Hsb].
  apply Forall_cons in Hsb as [Hc _].
  rewrite positionalLoop_12 by exact Hlen.
  change (bumperAt [a; b; c] 0) with (Some a).
  change (bumperAt [a; b; c] 1) with (Some b).
  change (bumperAt [a; b; c] 2) with (Some c).
  change (bumperAt [a; b; c] 3) with (Some a).
  rewrite !bumperIds_app.
  rewrite !bumperIds_map_Some
    by (repeat first [exact Hreg | apply Forall_take | apply Forall_drop]).
  cbn [app].
  rewrite (bumperIds_bumper a []) by exact Ha. rewrite (bumperIds_bumper b []) by exact Hb.
  rewrite (bumperIds_bumper c []) by exact Hc.
  change (bumperIds []) with (@nil string). cbn [app].
  intros (Hab & Hbc & Hca & _). apply Hsd. simpl.
  apply NoDup_cons. split.
  { intros Hin. apply elem_of_cons in Hin as [Heq | Hin]; [now apply Hab |].
    apply elem_of_cons in Hin as [Heq | Hin]; [now apply Hca | inversion Hin]. }
  apply NoDup_cons. split.
  { intros Hin. apply elem_of_cons in Hin as [Heq | Hin]; [now apply Hbc | inversion Hin]. }
  apply NoDup_singleton.
Qed.

(** C7.  The first two bumper playlists list the same clip and the third
    another one: [fetchBumpers] keeps both copies, so the pool loaded at
    start-up has three entries, two with one id, and the block of twelve
    songs shows that clip at two successive bumper slots.  Every order of
    this pool does so, and the pool of the store cannot hold an id twice,
    so the store-backed interleaver does not. *)
Lemma shared_bumper_clip_is_repeated :
  exists w1 out w2,
    fetchBumpers (Some "key") halfMinuteApi sharedClipEnv emptyWorld
      = (Ok [bumperX; bumperX; bumperY], w1) /\
    2 <= length [bumperX; bumperX; bumperY] /\
    insertBumpersIntoBlock sharedClipEnv twelveSongs (IntervalNum 4)
      (worldOfBumpers [bumperX; bumperX; bumperY]) = (Ok out, w2) /\
    bumperIds out = ["xxxxxxxxxxx"; "xxxxxxxxxxx"; "yyyyyyyyyyy"; "xxxxxxxxxxx"] /\
    ~ adjacentDistinct (bumperIds out) /\
    (forall env w,
       EnvOk env ->
       bumpersCache w = Some [bumperX; bumperX; bumperY] ->
       exists out' w',
         insertBumpersIntoBlock env twelveSongs (IntervalNum 4) w = (Ok out', w') /\
         ~ adjacentDistinct (bumperIds out')).
Proof.
  eexists _, _, _.
  split; [vm_compute; reflexivity |].
  split; [simpl; lia |].
  split; [vm_compute; reflexivity |].
  split; [reflexivity |].
  split; [simpl; intros [Hne _]; now apply Hne |].
  intros env w Hok Hcache.
  apply (repeated_id_meets_itself env w twelveSongs [bumperX; bumperX; bumperY]);
    [exact Hok | repeat constructor | simpl; lia | repeat constructor | reflexivity
    | | exact Hcache].
  simpl. intros Hnd. apply NoDup_cons in Hnd as [Hin _]. apply Hin. apply list_elem_of_here.
Qed.

(** ** Multi-source blend *)

(** The pass budget of [roundRobin] is never the reason the loop stops: a
    pass that asks for another one has pushed a video, and the loop stops
    at 100 videos. *)
Lemma roundRobinPass_more customPlaylists playlistIndices pushed ks :
  roundRobinPass customPlaylists playlistIndices = (pushed, ks, true) ->
  0 < length pushed.
Proof.
  revert playlistIndices pushed ks.
  induction customPlaylists as [| playlist ps IH]; intros playlistIndices pushed ks Hpass.
  - discriminate Hpass.
  - destruct playlistIndices as [| index idxs]; [discriminate Hpass |].
    simpl in Hpass.
    destruct (roundRobinPass ps idxs) as [[pushed' ks'] more] eqn:Hrest.
    destruct (playlist !! index).
    + injection Hpass as <- _. simpl. lia.
    + injection Hpass as <- _ ->. eapply IH. exact Hrest.
Qed.

Lemma roundRobinLoop_budget passes customPlaylists weightedCustom playlistIndices hasMore :
  101 <= passes + length weightedCustom ->
  roundRobinLoop (S passes) customPlaylists weightedCustom playlistIndices hasMore
  = roundRobinLoop passes customPlaylists weightedCustom playlistIndices hasMore.
Proof.
  revert weightedCustom playlistIndices hasMore.
  induction passes as [| passes IH]; intros weightedCustom playlistIndices hasMore Hbudget.
  - simpl. destruct (Nat.ltb_spec (length weightedCustom) 100); [lia |].
    now rewrite andb_false_r.
  - change (roundRobinLoop (S (S passes)) customPlaylists weightedCustom playlistIndices hasMore)
      with (if hasMore && (length weightedCustom <? 100) then
              let '(pushed, ks, more) := roundRobinPass customPlaylists playlistIndices in
              roundRobinLoop (S passes) customPlaylists (weightedCustom ++ pushed) ks more
            else weightedCustom).
    change (roundRobinLoop (S passes) customPlaylists weightedCustom playlistIndices hasMore)
      with (if hasMore && (length weightedCustom <? 100) then
              let '(pushed, ks, more) := roundRobinPass customPlaylists playlistIndices in
              roundRobinLoop passes customPlaylists (weightedCustom ++ pushed) ks more
            else weightedCustom).
    destruct (hasMore && (length weightedCustom <? 100)); [| reflexivity].
    destruct (roundRobinPass customPlaylists playlistIndices) as [[pushed ks] more] eqn:Hpass.
    destruct more.
    + apply IH. rewrite length_app.
      pose proof (roundRobinPass_more _ _ _ _ Hpass). lia.
    + destruct passes; reflexivity.
Qed.

Lemma roundRobin_budget extra customPlaylists :
  roundRobinLoop (101 + extra) customPlaylists []
    (replicate (length customPlaylists) 0) true
  = roundRobin customPlaylists.
Proof.
  induction extra as [| extra IH]; [reflexivity |].
  rewrite Nat.add_succ_r, roundRobinLoop_budget by lia. exact IH.
Qed.

Lemma filter_all {A} (P : A -> Prop) `{forall x, Decision (P x)} (l : list A) :
  Forall P l -> filter P l = l.
Proof.
  induction 1 as [| x l Hx Hl IH]; [reflexivity |].
  rewrite filter_cons_True by exact Hx. now rewrite IH.
Qed.

Lemma NoDup_submseteq_inv {A} (l k : list A) : l ⊆+ k -> NoDup k -> NoDup l.
Proof.
  intros Hsub Hnd. apply submseteq_Permutation in Hsub as [k' Hk'].
  rewrite Hk' in Hnd. now apply NoDup_app in Hnd as [Hl _].
Qed.

(** Pools without a common id pass the two filters of Step 3 whole. *)
Lemma disjoint_pools_keep (custom official : list Video) :
  NoDup (map id (custom ++ official)) ->
  Forall (fun v => id v ∉ (list_to_set (map id official) : gset string)) custom /\
  Forall (fun v => id v ∉ (list_to_set (map id custom) : gset string)) official.
Proof.
  rewrite map_app. intros Hnd. apply NoDup_app in Hnd as (_ & Hdisj & _).
  split; apply Forall_forall; intros v Hv; rewrite elem_of_list_to_set.
  - apply Hdisj. change (map id custom) with (id <$> custom).
    apply list_elem_of_fmap. now exists v.
  - intros Hin. apply (Hdisj (id v) Hin).
    change (map id official) with (id <$> official).
    apply list_elem_of_fmap. now exists v.
Qed.

Lemma mixVideos_two_sources env w c1 c2 official :
  0 < length c1 -> 0 < length c2 -> 0 < length official ->
  exists s1 s2 w',
    Permutation s1 c1 /\ Permutation s2 c2 /\
    mixVideos env [c1; c2] official w = (Ok (mixShuffled [s1; s2] official), w').
Proof.
  intros H1 H2 H3. unfold mixVideos.
  change (length [c1; c2] =? 0) with false. cbv iota.
  destruct (Nat.eqb_spec (length official) 0) as [H0 | _]; [lia |].
  rewrite filter_cons_True by exact H1.
  rewrite filter_cons_True by exact H2.
  rewrite filter_nil.
  destruct (shuffle_run env c1 w) as (s1 & w1 & Hs1 & Hp1 & _).
  destruct (shuffle_run env c2 w1) as (s2 & w2 & Hs2 & Hp2 & _).
  exists s1, s2, w2. split; [exact Hp1 |]. split; [exact Hp2 |].
  unfold mapM.
  erewrite bind_Ok; [| erewrite bind_Ok by exact Hs1;
                       erewrite bind_Ok; [| erewrite bind_Ok by exact Hs2; reflexivity];
                       reflexivity].
  reflexivity.
Qed.

(** The blend of sources without a repeated id.  Two custom sources of 5
    and 3 videos and 20 official videos, all 28 ids different: the
    round-robin pool holds the 8 custom videos, and the blend has 16
    entries, the custom pool at the even places and the first 8 official
    videos at the odd places, each in order, with no id twice. *)
Theorem mixVideos_blend_5_3_20 env w c1 c2 official :
  length c1 = 5 ->
  length c2 = 3 ->
  length official = 20 ->
  NoDup (map id (c1 ++ c2 ++ official)) ->
  exists s1 s2 out w',
    Permutation s1 c1 /\ Permutation s2 c2 /\
    mixVideos env [c1; c2] official w = (Ok out, w') /\
    Permutation (roundRobin [s1; s2]) (c1 ++ c2) /\
    length (roundRobin [s1; s2]) = 8 /\
    length out = 16 /\
    (forall i, i < 8 ->
       out !! (2 * i) = roundRobin [s1; s2] !! i /\
       out !! (2 * i + 1) = official !! i) /\
    NoDup (map id out).
Proof.
  intros Hl1 Hl2 Hl3 Hnd.
  destruct (mixVideos_two_sources env w c1 c2 official) as (s1 & s2 & w' & Hp1 & Hp2 & Hrun);
    [lia | lia | lia |].
  exists s1, s2, (mixShuffled [s1; s2] official), w'.
  split; [exact Hp1 |]. split; [exact Hp2 |]. split; [exact Hrun |].
  assert (Hnd' : NoDup (map id (s1 ++ s2 ++ official))).
  { rewrite Hp1, Hp2. exact Hnd. }
  rewrite <- Hp1, <- Hp2.
  rewrite <- (Permutation_length Hp1) in Hl1. rewrite <- (Permutation_length Hp2) in Hl2.
  clear Hp1 Hp2 Hrun Hnd c1 c2.
  do 6 (destruct s1 as [| ? s1]; try discriminate Hl1).
  do 4 (destruct s2 as [| ? s2]; try discriminate Hl2).
  do 21 (destruct official as [| ? official]; try discriminate Hl3).
  clear Hl1 Hl2 Hl3.
  match goal with
  | |- context [roundRobin ?ps] =>
      let r := eval vm_compute in (roundRobin ps) in
      change (roundRobin ps) with r
  end.
  assert (Hperm : Permutation [v; v4; v0; v5; v1; v6; v2; v3]
                              ([v; v0; v1; v2; v3] ++ [v4; v5; v6])).
  { solve_Permutation. }
  split; [exact Hperm |]. split; [reflexivity |].
  unfold mixShuffled.
  match goal with
  | |- context [roundRobin ?ps] =>
      let r := eval vm_compute in (roundRobin ps) in
      change (roundRobin ps) with r
  end.
  cbv zeta.
  rewrite app_assoc in Hnd'. rewrite <- Hperm in Hnd'.
  destruct (disjoint_pools_keep _ _ Hnd') as [Hkc Hko].
  rewrite (filter_all _ _ Hkc), (filter_all _ _ Hko).
  split; [reflexivity |].
  split.
  { intros i Hi. do 8 (destruct i as [| i]; [split; reflexivity |]). lia. }
  eapply NoDup_submseteq_inv; [| exact Hnd'].
  vm_compute. solve_submseteq.
Qed.

Lemma mixVideos_blend_5_3_20_witness :
  exists s1 s2 out w',
    Permutation s1 customFive /\ Permutation s2 customThree /\
    mixVideos plainEnv [customFive; customThree] official20 emptyWorld = (Ok out, w') /\
    Permutation (roundRobin [s1; s2]) (customFive ++ customThree) /\
    length (roundRobin [s1; s2]) = 8 /\
    length out = 16 /\
    (forall i, i < 8 ->
       out !! (2 * i) = roundRobin [s1; s2] !! i /\
       out !! (2 * i + 1) = official20 !! i) /\
    NoDup (map id out).
Proof.
  apply (mixVideos_blend_5_3_20 plainEnv emptyWorld customFive customThree official20).
  - reflexivity.
  - reflexivity.
  - reflexivity.
  - by_compute.
Defined.


(** ** The store-backed path serves no flagged video *)










Lemma yields_sortShuffled {A} db env (arr : list A) :
  EnvOk env ->
  yields db (sortShuffled env arr) (fun arr' => Permutation arr' arr).
Proof.
  intros [Hsort _] w a w' Hdb Hrun. injection Hrun as <- <-.
  split; [exact Hdb | apply Hsort].
Qed.



Lemma sqlLimit_subset {A} limit (rows : list A) x :
  x ∈ sqlLimit limit rows -> x ∈ rows.
Proof.
  unfold sqlLimit. destruct limit as [[| n] |]; auto.
  intros Hx. eapply subseteq_take. exact Hx.
Qed.








Lemma elem_of_concat {A} (x : A) (ls : list (list A)) :
  x ∈ concat ls -> exists l, x ∈ l /\ l ∈ ls.
Proof.
  rewrite list_elem_of_In, in_concat. intros (l & Hl & Hx).
  exists l. now rewrite !list_elem_of_In.
Qed.


Lemma excludeIds_subset excludeVideoIds vs x : x ∈ excludeIds excludeVideoIds vs -> x ∈ vs.
Proof. unfold excludeIds. intros Hx. now apply list_elem_of_filter in Hx as [_ Hx]. Qed.










Lemma storeUpEnv_ok : EnvOk storeUpEnv.
Proof. split; intros; reflexivity. Qed.



(** ** Fallback *)

(** Two ways the store path fails: the first query is refused, or the
    channel has no playlist in the store and none is supplied. *)
Lemma storeChannelBlock_first_query_fails env w channel customPlaylistIds excludePlaylistIds
    excludeVideoIds preferCustom e :
  String.eqb channel "special" = false ->
  String.eqb channel "random" = false ->
  dbFault env (dbQueries w) = Some e ->
  storeChannelBlock env channel customPlaylistIds excludePlaylistIds excludeVideoIds
                    preferCustom w
  = (Throw e, set_dbQueries (S (dbQueries w)) w).
Proof.
  intros Hs Hr Hfault. unfold storeChannelBlock. rewrite Hs, Hr.
  unfold getAllPlaylistsForChannel, bind, dbQuery. rewrite Hfault. reflexivity.
Qed.

Lemma storeChannelBlock_no_playlists env w channel excludePlaylistIds excludeVideoIds
    preferCustom :
  String.eqb channel "special" = false ->
  String.eqb channel "random" = false ->
  dbFault env (dbQueries w) = None ->
  selectPlaylistsForChannel channel (database w) = [] ->
  storeChannelBlock env channel [] excludePlaylistIds excludeVideoIds preferCustom w
  = (Throw ("No playlists available for channel: " ++ channel)%string,
     set_dbQueries (S (dbQueries w)) w).
Proof.
  intros Hs Hr Hfault Hnone. unfold storeChannelBlock. rewrite Hs, Hr.
  unfold getAllPlaylistsForChannel.
  erewrite bind_Ok; [| erewrite bind_Ok by (apply dbQuery_ok; exact Hfault); reflexivity].
  rewrite Hnone. reflexivity.
Qed.

(** C6. With the store enabled, whenever the store-backed path throws,
    whatever the error, [getChannelBlockWithFallback] does what the
    cache/API path does from the state the failed attempt left: the error
    of the store path is not passed on, and the value is a [Block] as on
    the store path. *)
Theorem getChannelBlockWithFallback_falls_back env w channel customPlaylistIds
    excludePlaylistIds excludeVideoIds preferCustom dbError w1 :
  USE_DATABASE env = true ->
  storeChannelBlock env channel customPlaylistIds excludePlaylistIds excludeVideoIds
                    preferCustom w = (Throw dbError, w1) ->
  getChannelBlockWithFallback env channel customPlaylistIds excludePlaylistIds
                              excludeVideoIds preferCustom w
  = getChannelBlock env channel customPlaylistIds excludePlaylistIds excludeVideoIds
                    preferCustom w1.
Proof.
  intros Hdb Hthrow. unfold getChannelBlockWithFallback, tryCatch.
  rewrite Hdb, Hthrow. reflexivity.
Qed.

Lemma getChannelBlockWithFallback_falls_back_witness :
  exists w1 block w',
    storeChannelBlock storeDownEnv "rock" [] [] [] false rockCachedWorld
      = (Throw "connect ECONNREFUSED", w1) /\
    getChannelBlock storeDownEnv "rock" [] [] [] false w1 = (Ok block, w') /\
    getChannelBlockWithFallback storeDownEnv "rock" [] [] [] false rockCachedWorld
      = (Ok block, w') /\
    blk_playlistId block = "PL300C32DA374417AA" /\
    length (blk_items block) = 16.
Proof.
  eexists _, _, _.
  assert (Hthrow :
    storeChannelBlock storeDownEnv "rock" [] [] [] false rockCachedWorld
    = (Throw "connect ECONNREFUSED", set_dbQueries 1 rockCachedWorld))
    by (vm_compute; reflexivity).
  split; [exact Hthrow |].
  rewrite (getChannelBlockWithFallback_falls_back storeDownEnv rockCachedWorld "rock"
             [] [] [] false _ _ eq_refl Hthrow).
  split; [vm_compute; reflexivity |].
  split; [vm_compute; reflexivity |].
  split; reflexivity.
Defined.

(** * Further properties

    Helpers of [index.js] and operations of [db-service.js] beyond the
    block assembly. *)

(** ** dedupe *)

Lemma dedupeFrom_spec vs :
  forall seenIds,
    NoDup (map id (dedupeFrom seenIds vs)) /\
    sublist (dedupeFrom seenIds vs) vs /\
    (forall u, u ∈ dedupeFrom seenIds vs -> id u ∉ seenIds) /\
    (forall v, v ∈ vs -> id v ∈ seenIds \/ exists u, u ∈ dedupeFrom seenIds vs /\ id u = id v) /\
    (forall u, u ∈ dedupeFrom seenIds vs ->
               find (fun v => String.eqb (id v) (id u)) vs = Some u).
Proof.
  induction vs as [| v rest IH]; intros seenIds.
  - simpl. repeat split.
    + constructor.
    + constructor.
    + intros u Hu. inversion Hu.
    + intros v Hv. inversion Hv.
    + intros u Hu. inversion Hu.
  - simpl. destruct (decide (id v ∈ seenIds)) as [Hseen | Hnew].
    + destruct (IH seenIds) as (Hnd & Hsub & Hfresh & Hcover & Hfirst).
      repeat split.
      * exact Hnd.
      * now apply sublist_cons.
      * exact Hfresh.
      * intros v' Hv'. apply elem_of_cons in Hv' as [-> | Hv'].
        -- now left.
        -- now apply Hcover.
      * intros u Hu.
        destruct (String.eqb_spec (id v) (id u)) as [Heq | _].
        -- exfalso. apply (Hfresh u Hu). now rewrite <- Heq.
        -- now apply Hfirst.
    + destruct (IH ({[ id v ]} ∪ seenIds)) as (Hnd & Hsub & Hfresh & Hcover & Hfirst).
      repeat split.
      * simpl. apply NoDup_cons. split; [| exact Hnd].
        intros Hin. change (map id ?l) with (id <$> l) in Hin.
        apply list_elem_of_fmap in Hin as (u & Hid & Hu).
        apply (Hfresh u Hu). rewrite <- Hid.
        apply elem_of_union. left. now apply elem_of_singleton.
      * now apply sublist_skip.
      * intros u Hu. apply elem_of_cons in Hu as [-> | Hu].
        -- exact Hnew.
        -- intros Hin. apply (Hfresh u Hu). apply elem_of_union. now right.
      * intros v' Hv'. apply elem_of_cons in Hv' as [-> | Hv'].
        -- right. exists v. split; [apply list_elem_of_here | reflexivity].
        -- destruct (Hcover v' Hv') as [Hin | (u & Hu & Hid)].
           ++ apply elem_of_union in Hin as [Hin | Hin].
              ** apply elem_of_singleton in Hin. right. exists v.
                 split; [apply list_elem_of_here | now symmetry].
              ** now left.
           ++ right. exists u. split; [now apply list_elem_of_further | exact Hid].
      * intros u Hu. apply elem_of_cons in Hu as [-> | Hu].
        -- now rewrite String.eqb_refl.
        -- destruct (String.eqb_spec (id v) (id u)) as [Heq | _].
           ++ exfalso. apply (Hfresh u Hu). rewrite <- Heq.
              apply elem_of_union. left. now apply elem_of_singleton.
           ++ now apply Hfirst.
Qed.

Lemma dedupeFrom_fresh vs :
  forall seenIds,
    NoDup (map id vs) ->
    (forall v, v ∈ vs -> id v ∉ seenIds) ->
    dedupeFrom seenIds vs = vs.
Proof.
  induction vs as [| v rest IH]; intros seenIds Hnd Hfresh; [reflexivity |].
  simpl. simpl in Hnd. apply NoDup_cons in Hnd as [Hv Hnd].
  destruct (decide (id v ∈ seenIds)) as [Hseen | _].
  - exfalso. apply (Hfresh v); [apply list_elem_of_here | exact Hseen].
  - f_equal. apply IH; [exact Hnd |].
    intros u Hu Hin. apply elem_of_union in Hin as [Hin | Hin].
    + apply elem_of_singleton in Hin. apply Hv. rewrite <- Hin.
      change (map id rest) with (id <$> rest). apply list_elem_of_fmap. now exists u.
    + apply (Hfresh u); [now apply list_elem_of_further | exact Hin].
Qed.

(** X1: [dedupe] keeps, in order, exactly the first video of every id: the
    result has no repeated id, is a sub-list of the input, holds an entry
    for every id of the input, and each entry is the first video of its id
    in the input.  A list without a repeated id passes unchanged, so
    [dedupe] is idempotent. *)
Theorem dedupe_keeps_first_of_each_id vs :
  NoDup (map id (dedupe vs)) /\
  sublist (dedupe vs) vs /\
  (forall v, v ∈ vs -> exists u, u ∈ dedupe vs /\ id u = id v) /\
  (forall u, u ∈ dedupe vs -> find (fun v => String.eqb (id v) (id u)) vs = Some u) /\
  (NoDup (map id vs) -> dedupe vs = vs) /\
  dedupe (dedupe vs) = dedupe vs.
Proof.
  destruct (dedupeFrom_spec vs ∅) as (Hnd & Hsub & _ & Hcover & Hfirst).
  assert (Hfix : forall l, NoDup (map id l) -> dedupe l = l).
  { intros l Hl. apply dedupeFrom_fresh; [exact Hl |].
    intros v _. apply not_elem_of_empty. }
  split; [exact Hnd |]. split; [exact Hsub |]. split; [| split; [exact Hfirst |]].
  - intros v Hv. destruct (Hcover v Hv) as [Hin | Hex]; [| exact Hex].
    now apply not_elem_of_empty in Hin.
  - split; [apply Hfix | now apply Hfix].
Qed.

(** ** shuffle *)

(** X2: whatever the random draws are, [shuffle] returns a rearrangement of
    its argument and makes one draw per index from the last down to 1. *)
Theorem shuffle_permutes {A} env (arr : list A) w :
  exists arr',
    shuffle env arr w = (Ok arr', set_rndPos (rndPos w + (length arr - 1)) w) /\
    Permutation arr' arr /\
    length arr' = length arr.
Proof.
  eexists. split; [reflexivity |].
  pose proof (shuffleLoop_Permutation env (rndPos w) (length arr - 1) arr) as Hp.
  split; [exact Hp | now apply Permutation_length].
Qed.

(** ** selectRandomPlaylist *)

Lemma pickRandom_nonempty {A} env (arr : list A) w :
  arr <> [] ->
  exists x, pickRandom env arr w = (Ok (Some x), set_rndPos (S (rndPos w)) w) /\ x ∈ arr.
Proof.
  intros Hne. unfold pickRandom, bind, randomBelow, ret.
  destruct arr as [| a arr']; [congruence |].
  set (n := length (a :: arr')).
  assert (Hlt : rnd env (rndPos w) mod n < n) by (apply Nat.mod_upper_bound; subst n; simpl; lia).
  destruct (lookup_lt_is_Some_2 (a :: arr') _ Hlt) as [x Hx].
  exists x. split.
  - subst n. simpl length in *. cbv beta iota. now rewrite Hx.
  - eapply list_elem_of_lookup_2. exact Hx.
Qed.

Lemma length_zero_nil {A} (l : list A) : (length l =? 0) = true -> l = [].
Proof. destruct l; [reflexivity | discriminate]. Qed.

Lemma length_pos_nonempty {A} (l : list A) : (0 <? length l) = true -> l <> [].
Proof. destruct l; [discriminate | congruence]. Qed.

Lemma filter_nonempty {A} (P : A -> Prop) `{forall x, Decision (P x)} (l : list A) x :
  x ∈ l -> P x -> filter P l <> [].
Proof.
  intros Hin HP Hnil.
  assert (Hx : x ∈ filter P l) by (apply list_elem_of_filter; now split).
  rewrite Hnil in Hx. inversion Hx.
Qed.

(** The two halves of a non-empty list of playlists are not both empty. *)
Lemma custom_or_official (l : list Playlist) :
  l <> [] ->
  filter (fun p => pl_isCustom p = true) l = [] ->
  filter (fun p => pl_isCustom p = false) l <> [].
Proof.
  intros Hne Hc. destruct l as [| p l']; [congruence |].
  destruct (pl_isCustom p) eqn:Hp.
  - rewrite filter_cons_True in Hc by exact Hp. discriminate.
  - rewrite filter_cons_True by exact Hp. discriminate.
Qed.

Lemma official_or_custom (l : list Playlist) :
  l <> [] ->
  filter (fun p => pl_isCustom p = false) l = [] ->
  filter (fun p => pl_isCustom p = true) l <> [].
Proof.
  intros Hne Hc. destruct l as [| p l']; [congruence |].
  destruct (pl_isCustom p) eqn:Hp.
  - rewrite filter_cons_True by exact Hp. discriminate.
  - rewrite filter_cons_True in Hc by exact Hp. discriminate.
Qed.

(** The list [selectRandomPlaylist] draws from. *)
Lemma selectRandomPlaylist_run env channel customPlaylistIds excludePlaylistIds preferCustom w :
  inheritedLookup env channel = false ->
  officialOf env channel ++ customPlaylistsOf customPlaylistIds <> [] ->
  exists candidates,
    selectRandomPlaylist env channel customPlaylistIds excludePlaylistIds preferCustom w
      = pickRandom env candidates w /\
    candidates <> [] /\
    let allPlaylists := officialOf env channel ++ customPlaylistsOf customPlaylistIds in
    let excludeSet : gset string := list_to_set excludePlaylistIds in
    let availablePlaylists := filter (fun p => pl_id p ∉ excludeSet) allPlaylists in
    (availablePlaylists = [] /\ candidates = allPlaylists) \/
    (availablePlaylists <> [] /\
     ((candidates = filter (fun p => pl_isCustom p = true) availablePlaylists /\
       (preferCustom = true \/
        filter (fun p => pl_isCustom p = false) availablePlaylists = [])) \/
      (candidates = filter (fun p => pl_isCustom p = false) availablePlaylists /\
       (preferCustom = false \/
        filter (fun p => pl_isCustom p = true) availablePlaylists = [])) \/
      (candidates = availablePlaylists /\ customPlaylistsOf customPlaylistIds = []))).
Proof.
  intros Hown Hne. unfold selectRandomPlaylist. rewrite Hown. cbv zeta.
  set (allPlaylists := officialOf env channel ++ customPlaylistsOf customPlaylistIds) in *.
  set (excludeSet := list_to_set excludePlaylistIds : gset string).
  set (availablePlaylists := filter (fun p => pl_id p ∉ excludeSet) allPlaylists).
  destruct (length allPlaylists =? 0) eqn:Hall.
  { apply length_zero_nil in Hall. congruence. }
  destruct (length availablePlaylists =? 0) eqn:Hav.
  { apply length_zero_nil in Hav. exists allPlaylists.
    split; [reflexivity |]. split; [exact Hne |]. left. now split. }
  assert (Hav' : availablePlaylists <> []).
  { intros Hnil. rewrite Hnil in Hav. discriminate. }
  destruct (0 <? length (customPlaylistsOf customPlaylistIds)) eqn:Hcust.
  - destruct preferCustom; cbv [andb negb].
    + destruct (0 <? length (filter (fun p => pl_isCustom p = true) availablePlaylists)) eqn:Hc.
      * eexists. split; [reflexivity |]. split; [now apply length_pos_nonempty |].
        right. split; [exact Hav' |]. left. split; [reflexivity | now left].
      * assert (Hnil : filter (fun p => pl_isCustom p = true) availablePlaylists = []).
        { destruct (filter _ availablePlaylists); [reflexivity | discriminate]. }
        eexists. split; [reflexivity |].
        split; [now apply custom_or_official |].
        right. split; [exact Hav' |]. right. left. split; [reflexivity | now right].
    + destruct (0 <? length (filter (fun p => pl_isCustom p = false) availablePlaylists)) eqn:Hc.
      * eexists. split; [reflexivity |]. split; [now apply length_pos_nonempty |].
        right. split; [exact Hav' |]. right. left. split; [reflexivity | now left].
      * assert (Hnil : filter (fun p => pl_isCustom p = false) availablePlaylists = []).
        { destruct (filter _ availablePlaylists); [reflexivity | discriminate]. }
        eexists. split; [reflexivity |].
        split; [now apply official_or_custom |].
        right. split; [exact Hav' |]. left. split; [reflexivity | now right].
  - cbv [andb]. eexists. split; [reflexivity |]. split; [exact Hav' |].
    right. split; [exact Hav' |]. right. right. split; [reflexivity |].
    destruct (customPlaylistsOf customPlaylistIds); [reflexivity | discriminate].
Qed.

(** X3: [selectRandomPlaylist] on a channel whose name [CHANNELS] holds
    or no object inherits.  With at least one official playlist or one
    valid custom id it returns a playlist (never [undefined]) that is an
    official playlist of the channel or a custom playlist of a valid id;
    and when some playlist is not excluded, the one returned is not
    excluded either.  For an inherited name that [CHANNELS] does not hold
    ('constructor', 'toString', ...) it throws a TypeError instead,
    whatever the custom ids. *)
Theorem selectRandomPlaylist_returns_available env channel customPlaylistIds
    excludePlaylistIds preferCustom w :
  inheritedLookup env channel = false ->
  officialOf env channel ++ customPlaylistsOf customPlaylistIds <> [] ->
  (exists p,
     selectRandomPlaylist env channel customPlaylistIds excludePlaylistIds preferCustom w
       = (Ok (Some p), set_rndPos (S (rndPos w)) w) /\
     (p ∈ officialOf env channel \/
      (pl_isCustom p = true /\ pl_label p = None /\
       pl_id p ∈ customPlaylistIds /\ isValidPlaylistId (pl_id p) = true)) /\
     ((exists q, q ∈ officialOf env channel ++ customPlaylistsOf customPlaylistIds /\
                 pl_id q ∉ excludePlaylistIds) ->
      pl_id p ∉ excludePlaylistIds)) /\
  (forall channel',
     inheritedLookup env channel' = true ->
     selectRandomPlaylist env channel' customPlaylistIds excludePlaylistIds preferCustom w
     = (Throw "TypeError: officialPlaylists is not iterable", w)).
Proof.
  intros Hown Hne. split.
  2: { intros channel' Hin. unfold selectRandomPlaylist. now rewrite Hin. }
  destruct (selectRandomPlaylist_run env channel customPlaylistIds excludePlaylistIds
              preferCustom w Hown Hne) as (candidates & Hrun & Hcne & Hcases).
  destruct (pickRandom_nonempty env candidates w Hcne) as (p & Hpick & Hp).
  exists p. rewrite Hrun. split; [exact Hpick |].
  cbv zeta in Hcases.
  set (allPlaylists := officialOf env channel ++ customPlaylistsOf customPlaylistIds) in *.
  set (excludeSet := list_to_set excludePlaylistIds : gset string) in *.
  set (availablePlaylists := filter (fun p => pl_id p ∉ excludeSet) allPlaylists) in *.
  assert (Hall : p ∈ allPlaylists /\
                 (availablePlaylists <> [] -> p ∈ availablePlaylists)).
  { destruct Hcases as [[Hnil ->] | [Hav [[-> _] | [[-> _] | [-> _]]]]].
    - split; [exact Hp | congruence].
    - apply list_elem_of_filter in Hp as [_ Hp].
      split; [| intros _; exact Hp].
      now apply list_elem_of_filter in Hp as [_ Hp].
    - apply list_elem_of_filter in Hp as [_ Hp].
      split; [| intros _; exact Hp].
      now apply list_elem_of_filter in Hp as [_ Hp].
    - split; [| intros _; exact Hp].
      now apply list_elem_of_filter in Hp as [_ Hp]. }
  destruct Hall as [Hall Havail]. split.
  - subst allPlaylists. apply elem_of_app in Hall as [Hoff | Hcust]; [now left | right].
    unfold customPlaylistsOf in Hcust.
    change (map ?f ?l) with (f <$> l) in Hcust.
    apply list_elem_of_fmap in Hcust as (i & -> & Hi).
    apply list_elem_of_filter in Hi as [Hvalid Hi]. simpl. auto.
  - intros (q & Hq & Hqex).
    assert (Hne' : availablePlaylists <> []).
    { apply (filter_nonempty _ _ q); [exact Hq |].
      subst excludeSet. now rewrite elem_of_list_to_set. }
    specialize (Havail Hne'). apply list_elem_of_filter in Havail as [Hex _].
    subst excludeSet. now rewrite elem_of_list_to_set in Hex.
Qed.

Lemma selectRandomPlaylist_returns_available_witness :
  (exists p,
     selectRandomPlaylist storeUpEnv "rock" ["PLuser0000000001"] [] true emptyWorld
       = (Ok (Some p), set_rndPos (S (rndPos emptyWorld)) emptyWorld) /\
     (p ∈ officialOf storeUpEnv "rock" \/
      (pl_isCustom p = true /\ pl_label p = None /\
       pl_id p ∈ ["PLuser0000000001"] /\ isValidPlaylistId (pl_id p) = true)) /\
     ((exists q, q ∈ officialOf storeUpEnv "rock" ++ customPlaylistsOf ["PLuser0000000001"] /\
                 pl_id q ∉ []) ->
      pl_id p ∉ [])) /\
  (forall channel',
     inheritedLookup storeUpEnv channel' = true ->
     selectRandomPlaylist storeUpEnv channel' ["PLuser0000000001"] [] true emptyWorld
     = (Throw "TypeError: officialPlaylists is not iterable", emptyWorld)).
Proof.
  apply (selectRandomPlaylist_returns_available storeUpEnv "rock" ["PLuser0000000001"] []
           true emptyWorld).
  - reflexivity.
  - vm_compute. discriminate.
Defined.

(** The channel 'constructor' with a valid custom id: the lookup finds
    [Object], and the spread throws. *)
Example selectRandomPlaylist_constructor :
  selectRandomPlaylist storeUpEnv "constructor" ["PLuser0000000001"] [] true emptyWorld
  = (Throw "TypeError: officialPlaylists is not iterable", emptyWorld).
Proof. reflexivity. Qed.

(** X4: the alternation flag is honoured whenever it can be.  The official
    playlists carry no [isCustom] field.  With [preferCustom] set, a custom
    playlist is returned as soon as one valid custom id is not excluded;
    without it, an official playlist is returned as soon as one is not
    excluded. *)
Theorem selectRandomPlaylist_prefers env channel customPlaylistIds excludePlaylistIds
    preferCustom w p w' :
  Forall (fun q => pl_isCustom q = false) (officialOf env channel) ->
  selectRandomPlaylist env channel customPlaylistIds excludePlaylistIds preferCustom w
    = (Ok (Some p), w') ->
  (preferCustom = true ->
   (exists i, i ∈ customPlaylistIds /\ isValidPlaylistId i = true /\ i ∉ excludePlaylistIds) ->
   pl_isCustom p = true) /\
  (preferCustom = false ->
   (exists q, q ∈ officialOf env channel /\ pl_id q ∉ excludePlaylistIds) ->
   pl_isCustom p = false).
Proof.
  intros Hoff Hsel.
  assert (Hown : inheritedLookup env channel = false).
  { unfold selectRandomPlaylist in Hsel.
    destruct (inheritedLookup env channel); [discriminate Hsel | reflexivity]. }
  assert (Hne : officialOf env channel ++ customPlaylistsOf customPlaylistIds <> []).
  { intros Hnil. unfold selectRandomPlaylist in Hsel. rewrite Hown in Hsel.
    cbv zeta in Hsel. rewrite Hnil in Hsel. discriminate Hsel. }
  destruct (selectRandomPlaylist_run env channel customPlaylistIds excludePlaylistIds
              preferCustom w Hown Hne) as (candidates & Hrun & Hcne & Hcases).
  rewrite Hrun in Hsel.
  destruct (pickRandom_nonempty env candidates w Hcne) as (p' & Hpick & Hp).
  rewrite Hpick in Hsel. injection Hsel as <- <-.
  cbv zeta in Hcases.
  set (allPlaylists := officialOf env channel ++ customPlaylistsOf customPlaylistIds) in *.
  set (excludeSet := list_to_set excludePlaylistIds : gset string) in *.
  set (availablePlaylists := filter (fun p => pl_id p ∉ excludeSet) allPlaylists) in *.
  assert (Hcustom_in : forall i, i ∈ customPlaylistIds -> isValidPlaylistId i = true ->
                                 i ∉ excludePlaylistIds ->
                                 mkPlaylist i None true ∈ availablePlaylists).
  { intros i Hi Hvalid Hex. apply list_elem_of_filter. split.
    - subst excludeSet. now rewrite elem_of_list_to_set.
    - subst allPlaylists. apply elem_of_app. right. unfold customPlaylistsOf.
      change (map ?f ?l) with (f <$> l). apply list_elem_of_fmap.
      exists i. split; [reflexivity |]. apply list_elem_of_filter. now split. }
  assert (Hofficial_in : forall q, q ∈ officialOf env channel -> pl_id q ∉ excludePlaylistIds ->
                                   q ∈ availablePlaylists /\ pl_isCustom q = false).
  { intros q Hq Hex. split.
    - apply list_elem_of_filter. split.
      + subst excludeSet. now rewrite elem_of_list_to_set.
      + subst allPlaylists. apply elem_of_app. now left.
    - rewrite Forall_forall in Hoff. now apply Hoff. }
  split.
  - intros -> (i & Hi & Hvalid & Hex).
    specialize (Hcustom_in i Hi Hvalid Hex).
    destruct Hcases as [[Hnil _] | [_ [[-> _] | [[-> [Hpc | Hnil]] | [-> Hnil]]]]].
    + rewrite Hnil in Hcustom_in. inversion Hcustom_in.
    + now apply list_elem_of_filter in Hp as [Hp _].
    + discriminate Hpc.
    + exfalso.
      assert (Hin : mkPlaylist i None true
                      ∈ filter (fun p => pl_isCustom p = true) availablePlaylists).
      { apply list_elem_of_filter. now split. }
      rewrite Hnil in Hin. inversion Hin.
    + exfalso.
      assert (Hin : mkPlaylist i None true ∈ customPlaylistsOf customPlaylistIds).
      { unfold customPlaylistsOf. change (map ?f ?l) with (f <$> l).
        apply list_elem_of_fmap. exists i. split; [reflexivity |].
        apply list_elem_of_filter. now split. }
      rewrite Hnil in Hin. inversion Hin.
  - intros -> (q & Hq & Hex).
    destruct (Hofficial_in q Hq Hex) as [Hqav Hqo].
    destruct Hcases as [[Hnil _] | [_ [[-> [Hpc | Hnil]] | [[-> _] | [-> Hnil]]]]].
    + rewrite Hnil in Hqav. inversion Hqav.
    + discriminate Hpc.
    + exfalso.
      assert (Hin : q ∈ filter (fun p => pl_isCustom p = false) availablePlaylists).
      { apply list_elem_of_filter. now split. }
      rewrite Hnil in Hin. inversion Hin.
    + now apply list_elem_of_filter in Hp as [Hp _].
    + apply list_elem_of_filter in Hp as [_ Hp].
      subst allPlaylists. rewrite Hnil, app_nil_r in Hp.
      rewrite Forall_forall in Hoff. now apply Hoff.
Qed.

Lemma selectRandomPlaylist_prefers_witness :
  selectRandomPlaylist storeUpEnv "rock" ["PLuser0000000001"] [] true emptyWorld
  = (Ok (Some (mkPlaylist "PLuser0000000001" None true)), set_rndPos 1 emptyWorld) /\
  (true = true ->
   (exists i, i ∈ ["PLuser0000000001"] /\ isValidPlaylistId i = true /\ i ∉ []) ->
   pl_isCustom (mkPlaylist "PLuser0000000001" None true) = true) /\
  (true = false ->
   (exists q, q ∈ officialOf storeUpEnv "rock" /\ pl_id q ∉ []) ->
   pl_isCustom (mkPlaylist "PLuser0000000001" None true) = false).
Proof.
  assert (Hrun :
    selectRandomPlaylist storeUpEnv "rock" ["PLuser0000000001"] [] true emptyWorld
    = (Ok (Some (mkPlaylist "PLuser0000000001" None true)), set_rndPos 1 emptyWorld))
    by (vm_compute; reflexivity).
  split; [exact Hrun |].
  apply (selectRandomPlaylist_prefers storeUpEnv "rock" ["PLuser0000000001"] [] true
           emptyWorld (mkPlaylist "PLuser0000000001" None true)
           (set_rndPos 1 emptyWorld)).
  - vm_compute. repeat constructor.
  - exact Hrun.
Defined.

(** ** mixVideos in general *)

Lemma mapM_shuffle_run {A} env (ls : list (list A)) w :
  exists ls' w',
    mapM (shuffle env) ls w = (Ok ls', w') /\ Forall2 Permutation ls' ls.
Proof.
  revert w. induction ls as [| l ls IH]; intros w.
  - exists [], w. split; [reflexivity | constructor].
  - destruct (shuffle_run env l w) as (l' & w1 & Hl & Hp & _).
    destruct (IH w1) as (ls' & w2 & Hls & Hps).
    exists (l' :: ls'), w2. split; [| now constructor].
    simpl. erewrite bind_Ok by exact Hl. erewrite bind_Ok by exact Hls. reflexivity.
Qed.

Lemma Forall2_Permutation_concat {A} (ls' ls : list (list A)) x :
  Forall2 Permutation ls' ls -> x ∈ concat ls' -> x ∈ concat ls.
Proof.
  induction 1 as [| l' l ls' ls Hp _ IH]; [easy |].
  simpl. rewrite !elem_of_app. intros [Hx | Hx].
  - left. now rewrite <- Hp.
  - right. now apply IH.
Qed.

Lemma roundRobinPass_pushed customPlaylists :
  forall playlistIndices pushed ks more,
    roundRobinPass customPlaylists playlistIndices = (pushed, ks, more) ->
    length pushed <= length customPlaylists /\
    forall x, x ∈ pushed -> x ∈ concat customPlaylists.
Proof.
  induction customPlaylists as [| playlist ps IH]; intros playlistIndices pushed ks more Hpass.
  - injection Hpass as <- _ _. split; [simpl; lia | intros x Hx; inversion Hx].
  - destruct playlistIndices as [| index idxs].
    { injection Hpass as <- _ _. split; [simpl; lia | intros x Hx; inversion Hx]. }
    simpl in Hpass.
    destruct (roundRobinPass ps idxs) as [[pushed' ks'] more'] eqn:Hrest.
    destruct (IH _ _ _ _ Hrest) as [Hlen Hsub].
    destruct (playlist !! index) as [v |] eqn:Hv.
    + injection Hpass as <- _ _. split; [simpl; lia |].
      intros x Hx. simpl. apply elem_of_app.
      apply elem_of_cons in Hx as [-> | Hx].
      * left. eapply list_elem_of_lookup_2. exact Hv.
      * right. now apply Hsub.
    + injection Hpass as <- _ _. split; [simpl; lia |].
      intros x Hx. simpl. apply elem_of_app. right. now apply Hsub.
Qed.

Lemma roundRobinLoop_pool passes customPlaylists :
  forall weightedCustom playlistIndices hasMore,
    length (roundRobinLoop passes customPlaylists weightedCustom playlistIndices hasMore)
      <= Nat.max (length weightedCustom) (99 + length customPlaylists) /\
    forall x,
      x ∈ roundRobinLoop passes customPlaylists weightedCustom playlistIndices hasMore ->
      x ∈ weightedCustom \/ x ∈ concat customPlaylists.
Proof.
  induction passes as [| passes IH]; intros weightedCustom playlistIndices hasMore.
  - simpl. split; [lia | now left].
  - simpl. destruct hasMore; cbv [andb]; [| split; [lia | now left]].
    destruct (Nat.ltb_spec (length weightedCustom) 100) as [Hlt | _];
      [| split; [lia | now left]].
    destruct (roundRobinPass customPlaylists playlistIndices) as [[pushed ks] more] eqn:Hpass.
    destruct (roundRobinPass_pushed _ _ _ _ _ Hpass) as [Hlen Hsub].
    destruct (IH (weightedCustom ++ pushed) ks more) as [Hbound Hin].
    rewrite length_app in Hbound. split; [lia |].
    intros x Hx. destruct (Hin x Hx) as [Hacc | Hps]; [| now right].
    apply elem_of_app in Hacc as [Hacc | Hacc]; [now left | right; now apply Hsub].
Qed.

Lemma flat_map_map_S {A} (f : nat -> list A) (l : list nat) :
  flat_map f (map S l) = flat_map (fun i => f (S i)) l.
Proof. induction l as [| i l IH]; [reflexivity |]. simpl. now rewrite IH. Qed.

Lemma interleave_cons x uniqueCustom y uniqueOfficial :
  interleave (x :: uniqueCustom) (y :: uniqueOfficial)
  = x :: y :: interleave uniqueCustom uniqueOfficial.
Proof.
  unfold interleave. simpl length.
  change (Nat.max (S ?a) (S ?b)) with (S (Nat.max a b)).
  rewrite <- cons_seq, <- seq_shift. simpl flat_map at 1.
  now rewrite flat_map_map_S.
Qed.

Lemma interleave_even_odd uniqueCustom :
  forall uniqueOfficial,
    length uniqueCustom = length uniqueOfficial ->
    length (interleave uniqueCustom uniqueOfficial) = 2 * length uniqueCustom /\
    forall i, i < length uniqueCustom ->
      interleave uniqueCustom uniqueOfficial !! (2 * i) = uniqueCustom !! i /\
      interleave uniqueCustom uniqueOfficial !! (2 * i + 1) = uniqueOfficial !! i.
Proof.
  induction uniqueCustom as [| x a IH]; intros [| y b] Hlen; try discriminate Hlen.
  - split; [reflexivity | intros i Hi; simpl in Hi; lia].
  - rewrite interleave_cons. injection Hlen as Hlen.
    destruct (IH b Hlen) as [Hl Hix]. split; [simpl; lia |].
    intros [| i] Hi; [split; reflexivity |].
    simpl in Hi. destruct (Hix i) as [He Ho]; [lia |].
    replace (2 * S i) with (S (S (2 * i))) by lia.
    replace (S (S (2 * i)) + 1) with (S (S (2 * i + 1))) by lia.
    simpl. split; [exact He | exact Ho].
Qed.

(** X5: the general blend.  With official videos and at least one non-empty
    custom list, the result alternates custom, official, custom, official,
    ... with as many of the one as of the other.  The custom half comes
    from the custom lists, shares no id with the official videos and is
    capped by the pool of the round-robin (below 100 plus the number of
    lists); the official half is a sub-sequence of the official videos. *)
Theorem mixVideos_alternates env w customPlaylistResults officialVideos :
  officialVideos <> [] ->
  (exists c, c ∈ customPlaylistResults /\ c <> []) ->
  exists out w' customHalf officialHalf,
    mixVideos env customPlaylistResults officialVideos w = (Ok out, w') /\
    length customHalf = length officialHalf /\
    length out = 2 * length customHalf /\
    (forall i, i < length customHalf ->
       out !! (2 * i) = customHalf !! i /\ out !! (2 * i + 1) = officialHalf !! i) /\
    Forall (fun c => c ∈ concat customPlaylistResults /\ (id c ∉ map id officialVideos))
           customHalf /\
    length customHalf <= 99 + length customPlaylistResults /\
    sublist officialHalf officialVideos.
Proof.
  intros Hoff (c0 & Hc0 & Hc0ne). unfold mixVideos.
  destruct (length customPlaylistResults =? 0) eqn:Hcl.
  { apply Nat.eqb_eq in Hcl. destruct customPlaylistResults; [inversion Hc0 | discriminate]. }
  destruct (length officialVideos =? 0) eqn:Hol.
  { apply Nat.eqb_eq in Hol. destruct officialVideos; [congruence | discriminate]. }
  set (nonEmpty := filter (fun arr : list Video => 0 < length arr) customPlaylistResults).
  destruct (mapM_shuffle_run env nonEmpty w) as (ps & w' & Hrun & Hperm).
  erewrite bind_Ok by exact Hrun.
  assert (Hne : nonEmpty <> []).
  { apply (filter_nonempty _ _ c0); [exact Hc0 |]. destruct c0; [congruence | simpl; lia]. }
  assert (Hpsl : length ps = length nonEmpty) by (eapply Forall2_length; exact Hperm).
  destruct (length ps =? 0) eqn:Hps0.
  { apply Nat.eqb_eq in Hps0. rewrite Hpsl in Hps0.
    destruct nonEmpty; [congruence | discriminate]. }
  unfold mixShuffled. cbv zeta.
  set (weightedCustom := roundRobin ps).
  set (customIds := list_to_set (map id weightedCustom) : gset string).
  set (officialIds := list_to_set (map id officialVideos) : gset string).
  set (uniqueCustom := filter (fun v => id v ∉ officialIds) weightedCustom).
  set (uniqueOfficial := filter (fun v => id v ∉ customIds) officialVideos).
  set (n := Nat.min (length uniqueCustom) (length uniqueOfficial)).
  assert (Hlc : length (take n uniqueCustom) = n) by (rewrite length_take; lia).
  assert (Hlo : length (take n uniqueOfficial) = n) by (rewrite length_take; lia).
  destruct (interleave_even_odd (take n uniqueCustom) (take n uniqueOfficial)) as [Hlen Hix];
    [congruence |].
  destruct (roundRobinLoop_pool 101 ps [] (replicate (length ps) 0) true) as [Hcap Hpool].
  fold (roundRobin ps) in Hcap, Hpool. fold weightedCustom in Hcap, Hpool.
  assert (Hfl : length nonEmpty <= length customPlaylistResults) by apply length_filter.
  assert (Huc : length uniqueCustom <= length weightedCustom) by apply length_filter.
  exists (interleave (take n uniqueCustom) (take n uniqueOfficial)), w',
         (take n uniqueCustom), (take n uniqueOfficial).
  split; [reflexivity |]. split; [congruence |]. split; [exact Hlen |].
  split; [exact Hix |]. split; [| split].
  - apply Forall_forall. intros c Hc.
    apply subseteq_take in Hc.
    apply list_elem_of_filter in Hc as [Hcid Hc]. split.
    + destruct (Hpool c Hc) as [Hnil | Hin]; [inversion Hnil |].
      apply (Forall2_Permutation_concat _ _ _ Hperm) in Hin.
      apply elem_of_concat in Hin as (l & Hcl' & Hl).
      apply list_elem_of_filter in Hl as [_ Hl].
      apply list_elem_of_In, in_concat. exists l. split; apply list_elem_of_In; assumption.
    + subst officialIds. now rewrite elem_of_list_to_set in Hcid.
  - rewrite Hlc. simpl in Hcap. lia.
  - etransitivity; [apply sublist_take |]. apply sublist_filter.
Qed.

Lemma mixVideos_alternates_witness :
  exists out w' customHalf officialHalf,
    mixVideos plainEnv [customFive; customThree] official20 emptyWorld = (Ok out, w') /\
    length customHalf = length officialHalf /\
    length out = 2 * length customHalf /\
    (forall i, i < length customHalf ->
       out !! (2 * i) = customHalf !! i /\ out !! (2 * i + 1) = officialHalf !! i) /\
    Forall (fun c => c ∈ concat [customFive; customThree] /\ (id c ∉ map id official20))
           customHalf /\
    length customHalf <= 99 + length [customFive; customThree] /\
    sublist officialHalf official20.
Proof.
  apply (mixVideos_alternates plainEnv emptyWorld [customFive; customThree] official20).
  - discriminate.
  - exists customFive. split; [apply list_elem_of_here | discriminate].
Defined.

(** ** Playlist cache, continued *)

(** What one access through the cache does, whatever the upstream
    answers. *)
Lemma getPlaylistVideos_run env playlistId maxVideos timeout channel w :
  exists vs w',
    getPlaylistVideos env playlistId maxVideos timeout channel w = (Ok vs, w') /\
    bumpersCache w' = bumpersCache w /\
    dbBumpersCache w' = dbBumpersCache w /\
    database w' = database w /\
    dbQueries w' = dbQueries w /\
    (upstreamCalls w' = upstreamCalls w \/
     upstreamCalls w' = playlistId :: upstreamCalls w) /\
    exists c, playlistCache w' !! playlistId = Some c /\ videos c = vs /\
              (now env - timestamp c < CACHE_DURATION)%Z.
Proof.
  assert (Hfetch : exists vs w',
    fetchAndCache env playlistId maxVideos timeout channel w = (Ok vs, w') /\
    bumpersCache w' = bumpersCache w /\
    dbBumpersCache w' = dbBumpersCache w /\
    database w' = database w /\
    dbQueries w' = dbQueries w /\
    (upstreamCalls w' = upstreamCalls w \/
     upstreamCalls w' = playlistId :: upstreamCalls w) /\
    exists c, playlistCache w' !! playlistId = Some c /\ videos c = vs /\
              (now env - timestamp c < CACHE_DURATION)%Z).
  { unfold fetchAndCache, tryCatch, bind, fetchWithTimeout, bind, upstream, settle, throw,
      cachePut, modify, ret.
    set (r := youtube env (length (upstreamCalls w)) playlistId maxVideos channel).
    destruct (elapsed r <? actualTimeoutOf maxVideos timeout)%Z;
      [destruct (payload r) as [vs | e] |];
      eexists _, _; (split; [reflexivity |]);
      repeat (split; [reflexivity || (right; reflexivity) |]);
      eexists; (split; [simpl; apply lookup_insert_eq |]);
      (split; [reflexivity |]); simpl; unfold CACHE_DURATION; lia. }
  unfold getPlaylistVideos, bind, gets.
  destruct (playlistCache w !! playlistId) as [c |] eqn:Hc; [| exact Hfetch].
  destruct (Z.ltb_spec (now env - timestamp c) CACHE_DURATION) as [Hfresh | _];
    [| exact Hfetch].
  exists (videos c), w. split; [reflexivity |].
  repeat (split; [reflexivity || (left; reflexivity) |]).
  exists c. now repeat split.
Qed.

(** X6: an access through the playlist cache never rejects, whatever the
    upstream does: it returns a list, makes at most one upstream call, and
    leaves under the playlist id a fresh entry that holds the list it
    returned. *)
Theorem getPlaylistVideos_never_rejects env playlistId maxVideos timeout channel w :
  exists vs w',
    getPlaylistVideos env playlistId maxVideos timeout channel w = (Ok vs, w') /\
    (upstreamCalls w' = upstreamCalls w \/
     upstreamCalls w' = playlistId :: upstreamCalls w) /\
    exists c, playlistCache w' !! playlistId = Some c /\ videos c = vs /\
              (now env - timestamp c < 24 * 60 * 60 * 1000)%Z.
Proof.
  destruct (getPlaylistVideos_run env playlistId maxVideos timeout channel w)
    as (vs & w' & Hrun & _ & _ & _ & _ & Hcalls & Hentry).
  now exists vs, w'.
Qed.

(** X7: a listing that the upstream delivers within the timeout is stored
    under the playlist id with the time of the call and returned.  In any
    state, an access to a playlist whose entry is less than 24 hours old
    returns the videos that entry holds at that moment (block assembly may
    have reordered them in place) and changes nothing: no upstream call,
    whatever limit, timeout or channel the access passes; an access to an
    entry that is 24 hours old or older calls the upstream again. *)
Theorem getPlaylistVideos_caches_listing env w playlistId maxVideos timeout channel vs :
  (forall c, playlistCache w !! playlistId = Some c ->
             (CACHE_DURATION <= now env - timestamp c)%Z) ->
  (let r := youtube env (length (upstreamCalls w)) playlistId maxVideos channel in
   payload r = inl vs /\ (elapsed r < actualTimeoutOf maxVideos timeout)%Z) ->
  exists w',
    getPlaylistVideos env playlistId maxVideos timeout channel w = (Ok vs, w') /\
    playlistCache w' !! playlistId = Some (mkCacheEntry vs (now env)) /\
    upstreamCalls w' = playlistId :: upstreamCalls w /\
    (forall env' maxVideos' timeout' channel',
       (now env' - now env < 24 * 60 * 60 * 1000)%Z ->
       getPlaylistVideos env' playlistId maxVideos' timeout' channel' w' = (Ok vs, w')) /\
    (forall env' maxVideos' timeout' channel' w2 c,
       playlistCache w2 !! playlistId = Some c ->
       (now env' - timestamp c < 24 * 60 * 60 * 1000)%Z ->
       getPlaylistVideos env' playlistId maxVideos' timeout' channel' w2
       = (Ok (videos c), w2)) /\
    (forall env' maxVideos' timeout' channel' w2 c,
       playlistCache w2 !! playlistId = Some c ->
       (24 * 60 * 60 * 1000 <= now env' - timestamp c)%Z ->
       exists vs' w'',
         getPlaylistVideos env' playlistId maxVideos' timeout' channel' w2 = (Ok vs', w'') /\
         upstreamCalls w'' = playlistId :: upstreamCalls w2).
Proof.
  intros Hstale Hgood.
  rewrite getPlaylistVideos_miss by exact Hstale.
  unfold fetchAndCache, tryCatch, bind, fetchWithTimeout, bind, upstream, settle, throw,
    cachePut, modify, ret.
  set (r := youtube env (length (upstreamCalls w)) playlistId maxVideos channel) in *.
  simpl in Hgood. destruct Hgood as [Hpay Hfast].
  destruct (Z.ltb_spec (elapsed r) (actualTimeoutOf maxVideos timeout)) as [_ | Hslow];
    [| lia].
  rewrite Hpay.
  eexists. split; [reflexivity |].
  set (w' := set_playlistCache _ _).
  assert (Hentry : playlistCache w' !! playlistId = Some (mkCacheEntry vs (now env))).
  { subst w'. simpl. apply lookup_insert_eq. }
  split; [exact Hentry |]. split; [reflexivity |].
  split; [| split].
  - intros env' mv' to' ch' Hnow.
    apply (getPlaylistVideos_hit env' playlistId mv' to' ch' w' _ Hentry). exact Hnow.
  - intros env' mv' to' ch' w2 c Hc Hnow.
    apply (getPlaylistVideos_hit env' playlistId mv' to' ch' w2 c Hc). exact Hnow.
  - intros env' mv' to' ch' w2 c Hc Hnow.
    rewrite getPlaylistVideos_miss.
    2:{ intros c0 Hc0. rewrite Hc in Hc0. injection Hc0 as <-.
        unfold CACHE_DURATION. lia. }
    unfold fetchAndCache, tryCatch, bind, fetchWithTimeout, bind, upstream, settle, throw,
      cachePut, modify, ret.
    set (r' := youtube env' _ playlistId mv' ch').
    destruct (elapsed r' <? actualTimeoutOf mv' to')%Z;
      [destruct (payload r') |]; eexists _, _; split; reflexivity.
Qed.

Lemma getPlaylistVideos_caches_listing_witness :
  exists w',
    getPlaylistVideos storeUpEnv "PL300C32DA374417AA" None None (Some "rock") emptyWorld
      = (Ok [songA; songB], w') /\
    playlistCache w' !! "PL300C32DA374417AA"
      = Some (mkCacheEntry [songA; songB] (now storeUpEnv)) /\
    upstreamCalls w' = "PL300C32DA374417AA" :: upstreamCalls emptyWorld /\
    (forall env' maxVideos' timeout' channel',
       (now env' - now storeUpEnv < 24 * 60 * 60 * 1000)%Z ->
       getPlaylistVideos env' "PL300C32DA374417AA" maxVideos' timeout' channel' w'
       = (Ok [songA; songB], w')) /\
    (forall env' maxVideos' timeout' channel' w2 c,
       playlistCache w2 !! "PL300C32DA374417AA" = Some c ->
       (now env' - timestamp c < 24 * 60 * 60 * 1000)%Z ->
       getPlaylistVideos env' "PL300C32DA374417AA" maxVideos' timeout' channel' w2
       = (Ok (videos c), w2)) /\
    (forall env' maxVideos' timeout' channel' w2 c,
       playlistCache w2 !! "PL300C32DA374417AA" = Some c ->
       (24 * 60 * 60 * 1000 <= now env' - timestamp c)%Z ->
       exists vs' w'',
         getPlaylistVideos env' "PL300C32DA374417AA" maxVideos' timeout' channel' w2
           = (Ok vs', w'') /\
         upstreamCalls w'' = "PL300C32DA374417AA" :: upstreamCalls w2).
Proof.
  apply (getPlaylistVideos_caches_listing storeUpEnv emptyWorld "PL300C32DA374417AA"
           None None (Some "rock") [songA; songB]).
  - intros c Hc. vm_compute in Hc. discriminate Hc.
  - vm_compute. split; reflexivity.
Defined.

(** ** Regular entries of an interleaved block *)

Lemma servedIds_bumper b rest : bumper b -> servedIds (Some b :: rest) = servedIds rest.
Proof. unfold bumper. intros Hb. unfold servedIds. simpl. now rewrite Hb. Qed.

Lemma servedIds_hole rest : servedIds (None :: rest) = servedIds rest.
Proof. reflexivity. Qed.

Lemma servedIds_app l k : servedIds (l ++ k) = servedIds l ++ servedIds k.
Proof. unfold servedIds. apply flat_map_app. Qed.

Lemma servedIds_cons e l : servedIds (e :: l) = servedIds [e] ++ servedIds l.
Proof. apply (servedIds_app [e] l). Qed.

Lemma servedIds_bumperAt pool k rest :
  Forall bumper pool -> servedIds (bumperAt pool k :: rest) = servedIds rest.
Proof.
  intros Hpool. destruct (bumperAt pool k) as [b |] eqn:Hb; [| reflexivity].
  apply servedIds_bumper. rewrite Forall_forall in Hpool. apply Hpool.
  unfold bumperAt in Hb. eapply list_elem_of_lookup_2. exact Hb.
Qed.

Lemma servedIds_positionalLoop pool vs :
  Forall bumper pool ->
  forall i k, servedIds (positionalLoop pool i k vs) = servedIds (map Some vs).
Proof.
  intros Hpool. induction vs as [| v rest IH]; intros i k; [reflexivity |].
  cbn [positionalLoop]. change (map Some (v :: rest)) with (Some v :: map Some rest).
  rewrite (servedIds_cons (Some v) (map Some rest)).
  destruct (isBumperSlot i).
  - now rewrite servedIds_cons, servedIds_bumperAt, IH by exact Hpool.
  - now rewrite servedIds_cons, IH.
Qed.

Lemma servedIds_subset (vs : list Video) x :
  x ∈ servedIds (map Some vs) -> x ∈ map id vs.
Proof.
  induction vs as [| v rest IH]; [easy |].
  change (servedIds (map Some (v :: rest)))
    with ((if isBumper v then [] else [id v]) ++ servedIds (map Some rest)).
  simpl map. intros Hx. apply elem_of_app in Hx as [Hx | Hx].
  - destruct (isBumper v); [inversion Hx |].
    apply list_elem_of_singleton in Hx as ->. apply list_elem_of_here.
  - apply list_elem_of_further. now apply IH.
Qed.

Lemma servedIds_lookup (vs : list Video) i rest x :
  x ∈ servedIds (vs !! i :: rest) -> x ∈ map id vs \/ x ∈ servedIds rest.
Proof.
  destruct (vs !! i) as [v |] eqn:Hv; [| now right].
  change (servedIds (Some v :: rest))
    with ((if isBumper v then [] else [id v]) ++ servedIds rest).
  intros Hx. apply elem_of_app in Hx as [Hx | Hx]; [left | now right].
  destruct (isBumper v); [inversion Hx |].
  apply list_elem_of_singleton in Hx as ->.
  change (map id vs) with (id <$> vs). apply list_elem_of_fmap.
  exists v. split; [reflexivity |]. eapply list_elem_of_lookup_2. exact Hv.
Qed.

Lemma servedIds_NoDup (vs : list Video) :
  NoDup (map id vs) -> NoDup (servedIds (map Some vs)).
Proof.
  induction vs as [| v rest IH]; [constructor |].
  change (servedIds (map Some (v :: rest)))
    with ((if isBumper v then [] else [id v]) ++ servedIds (map Some rest)).
  simpl map. intros Hnd. apply NoDup_cons in Hnd as [Hv Hnd].
  destruct (isBumper v); [now apply IH |].
  simpl. apply NoDup_cons. split; [| now apply IH].
  intros Hin. apply Hv. now apply servedIds_subset.
Qed.

Lemma servedIds_length (vs : list Video) : length (servedIds (map Some vs)) <= length vs.
Proof.
  induction vs as [| v rest IH]; [simpl; lia |].
  change (servedIds (map Some (v :: rest)))
    with ((if isBumper v then [] else [id v]) ++ servedIds (map Some rest)).
  rewrite length_app. destruct (isBumper v); simpl in *; lia.
Qed.

(** The regular entries of the block the cache-backed interleaver returns
    are regular entries of its input. *)
Lemma insertBumpersIntoBlock_served env vs interval w :
  EnvOk env ->
  (forall pool, bumpersCache w = Some pool -> Forall bumper pool) ->
  exists out w',
    insertBumpersIntoBlock env vs interval w = (Ok out, w') /\
    (forall x, x ∈ servedIds out -> x ∈ map id vs) /\
    (forall n, interval = IntervalNum n -> servedIds out = servedIds (map Some vs)).
Proof.
  intros Henv Hpool. unfold insertBumpersIntoBlock, bind, gets, ret.
  destruct (bumpersCache w) as [bumpers |] eqn:Hcache.
  2:{ eexists _, _. split; [reflexivity |]. split; [apply servedIds_subset | reflexivity]. }
  destruct ((length bumpers =? 0) || interval_falsy interval).
  { eexists _, _. split; [reflexivity |]. split; [apply servedIds_subset | reflexivity]. }
  destruct (sortShuffled_run env bumpers w Henv) as (shuffled & w1 & Hsort & Hperm).
  rewrite Hsort.
  assert (Hsb : Forall bumper shuffled) by (rewrite Hperm; now apply Hpool).
  destruct interval as [| n].
  - eexists _, _. split; [reflexivity |]. split; [| discriminate].
    intros x Hx.
    apply servedIds_lookup in Hx as [Hx | Hx]; [exact Hx |].
    rewrite servedIds_bumperAt in Hx by exact Hsb.
    apply servedIds_lookup in Hx as [Hx | Hx]; [exact Hx |].
    apply servedIds_lookup in Hx as [Hx | Hx]; [exact Hx |].
    rewrite servedIds_bumperAt in Hx by exact Hsb. inversion Hx.
  - eexists _, _. split; [reflexivity |].
    rewrite servedIds_positionalLoop by exact Hsb.
    split; [apply servedIds_subset | reflexivity].
Qed.

Lemma blockShape_size channel :
  exists blockSize bumperInterval,
    blockShape channel = (blockSize, bumperInterval) /\ blockSize <= 12.
Proof.
  unfold blockShape. destruct (String.eqb channel "shows").
  - eexists _, _. split; [reflexivity | lia].
  - destruct (String.eqb channel "live"); eexists _, _; (split; [reflexivity | lia]).
Qed.

(** X8: a single-source block honours the exclusion list whenever it can.
    For a playlist with at least one video the block is returned, its
    regular entries are videos of the playlist, and, when some video of
    the playlist is not excluded, none of them is an excluded video. *)
Theorem createProgrammingBlock_skips_excluded env w playlistObj channel excludeVideoIds
    allVideos w1 :
  getPlaylistVideos env (pl_id playlistObj) None None (Some channel) w = (Ok allVideos, w1) ->
  allVideos <> [] ->
  12 <= fuel env ->
  EnvOk env ->
  (forall pool, bumpersCache w = Some pool -> Forall bumper pool) ->
  exists block w',
    createProgrammingBlock env playlistObj channel excludeVideoIds w = (Ok block, w') /\
    blk_playlistId block = pl_id playlistObj /\
    blk_playlistLabel block = pl_label playlistObj /\
    (forall x, x ∈ servedIds (blk_items block) -> x ∈ map id allVideos) /\
    ((exists v, v ∈ allVideos /\ id v ∉ excludeVideoIds) ->
     forall x, x ∈ servedIds (blk_items block) -> x ∉ excludeVideoIds).
Proof.
  intros Hget Hne Hfuel Henv Hpool. unfold createProgrammingBlock. cbv zeta.
  erewrite bind_Ok by exact Hget.
  destruct (getPlaylistVideos_run env (pl_id playlistObj) None None (Some channel) w)
    as (vs0 & w0 & Hrun & Hbc & _).
  rewrite Hget in Hrun. injection Hrun as <- <-.
  destruct (blockShape_size channel) as (bs & iv & Hshape & Hbs).
  destruct (availableVideosOf_run env (pl_id playlistObj) excludeVideoIds allVideos w1)
    as (availableVideos & w2 & Hav & Hperm & Hbc2).
  assert (Hne' : availableVideos <> []).
  { intros ->. apply Permutation_nil_l in Hperm.
    destruct (Nat.eqb_spec (length (excludeIds excludeVideoIds allVideos)) 0) as [H0 | Hn0].
    - now apply Hne.
    - apply Hn0. now rewrite <- Hperm. }
  destruct (blockVideosOf_run env w2 bs availableVideos Hne' ltac:(lia))
    as (blockVideos & Hblock & Hlen & Hcyc).
  erewrite bind_Ok by exact Hav. rewrite Hshape.
  erewrite bind_Ok by exact Hblock.
  destruct (insertBumpersIntoBlock_served env blockVideos iv w2 Henv)
    as (out & w3 & Hins & Hserved & _).
  { intros pool Hp. apply Hpool. congruence. }
  erewrite bind_Ok by exact Hins.
  eexists _, _. split; [reflexivity |]. split; [reflexivity |]. split; [reflexivity |].
  simpl blk_items.
  assert (Hblock_in : forall v, v ∈ blockVideos -> v ∈ availableVideos).
  { intros v Hv. apply list_elem_of_lookup_1 in Hv as [i Hi].
    assert (Hlt : i < bs) by (rewrite <- Hlen; eapply lookup_lt_Some; exact Hi).
    rewrite (Hcyc i Hlt) in Hi. eapply list_elem_of_lookup_2. exact Hi. }
  assert (Hserved' : forall x, x ∈ servedIds out ->
                               exists v, v ∈ availableVideos /\ id v = x).
  { intros x Hx. apply Hserved in Hx.
    change (map id blockVideos) with (id <$> blockVideos) in Hx.
    apply list_elem_of_fmap in Hx as (v & -> & Hv). exists v. split; [| reflexivity].
    now apply Hblock_in. }
  split.
  - intros x Hx. destruct (Hserved' x Hx) as (v & Hv & <-).
    rewrite Hperm in Hv.
    assert (Hv' : v ∈ allVideos).
    { destruct (length (excludeIds excludeVideoIds allVideos) =? 0); [exact Hv |].
      now apply excludeIds_subset in Hv. }
    change (map id allVideos) with (id <$> allVideos). apply list_elem_of_fmap. now exists v.
  - intros (u & Hu & Hux) x Hx. destruct (Hserved' x Hx) as (v & Hv & <-).
    rewrite Hperm in Hv.
    assert (Hin : u ∈ excludeIds excludeVideoIds allVideos).
    { unfold excludeIds. apply list_elem_of_filter. split; [| exact Hu].
      now rewrite elem_of_list_to_set. }
    destruct (Nat.eqb_spec (length (excludeIds excludeVideoIds allVideos)) 0) as [H0 | _].
    { destruct (excludeIds excludeVideoIds allVideos); [inversion Hin | discriminate H0]. }
    unfold excludeIds in Hv. apply list_elem_of_filter in Hv as [Hv _].
    now rewrite elem_of_list_to_set in Hv.
Qed.

Lemma createProgrammingBlock_skips_excluded_witness :
  exists block w',
    createProgrammingBlock storeUpEnv classicRock "rock" ["aaaaaaaaaaa"]
                           (worldOfBumpers [bumperX; bumperY]) = (Ok block, w') /\
    blk_playlistId block = pl_id classicRock /\
    blk_playlistLabel block = pl_label classicRock /\
    (forall x, x ∈ servedIds (blk_items block) -> x ∈ map id [songA; songB]) /\
    ((exists v, v ∈ [songA; songB] /\ id v ∉ ["aaaaaaaaaaa"]) ->
     forall x, x ∈ servedIds (blk_items block) -> x ∉ ["aaaaaaaaaaa"]).
Proof.
  apply (createProgrammingBlock_skips_excluded storeUpEnv (worldOfBumpers [bumperX; bumperY])
           classicRock "rock" ["aaaaaaaaaaa"] [songA; songB]
           (snd (getPlaylistVideos storeUpEnv (pl_id classicRock) None None (Some "rock")
                   (worldOfBumpers [bumperX; bumperY])))).
  - vm_compute. reflexivity.
  - discriminate.
  - vm_compute. lia.
  - exact storeUpEnv_ok.
  - intros pool Hpool. injection Hpool as <-. repeat constructor.
Defined.

(** ** The random channel *)

(** A call that is awaited at once is a call that is started and settles
    before anything else happens. *)
Lemma getPlaylistVideos_start_settle env playlistId maxVideos timeout channel w :
  getPlaylistVideos env playlistId maxVideos timeout channel w
  = (let* s := startGetPlaylistVideos env playlistId maxVideos timeout channel in
     do settleStarted env s then
     ret (resolvedWith s)) w.
Proof.
  assert (Hfetch : forall w0,
    fetchAndCache env playlistId maxVideos timeout channel w0
    = (let* s := startFetch env playlistId maxVideos timeout channel in
       do settleStarted env s then
       ret (resolvedWith s)) w0).
  { intros w0.
    unfold fetchAndCache, tryCatch, bind, fetchWithTimeout, startFetch, bind, upstream,
      settle, throw, cachePut, modify, ret.
    destruct (elapsed _ <? actualTimeoutOf maxVideos timeout)%Z; [| reflexivity].
    destruct (payload _); reflexivity. }
  unfold getPlaylistVideos, startGetPlaylistVideos.
  unfold bind, gets.
  destruct (playlistCache w !! playlistId) as [c |]; [| rewrite Hfetch; reflexivity].
  destruct (now env - timestamp c <? CACHE_DURATION)%Z;
    [reflexivity | rewrite Hfetch; reflexivity].
Qed.

Lemma startGetPlaylistVideos_run env playlistId maxVideos timeout channel w :
  exists s w',
    startGetPlaylistVideos env playlistId maxVideos timeout channel w = (Ok s, w') /\
    bumpersCache w' = bumpersCache w.
Proof.
  unfold startGetPlaylistVideos, startFetch, bind, gets, upstream, ret.
  destruct (playlistCache w !! playlistId) as [c |];
    [destruct (now env - timestamp c <? CACHE_DURATION)%Z |];
    repeat match goal with
           | |- context [if ?c then _ else _] => destruct c
           | |- context [match payload ?r with _ => _ end] => destruct (payload r)
           end;
    eexists _, _; split; reflexivity.
Qed.

Lemma mapM_startGetPlaylistVideos_run {A} env (pidOf : A -> string) maxVideos channel
    (xs : list A) w :
  exists ss w',
    mapM (fun x => startGetPlaylistVideos env (pidOf x) maxVideos None channel) xs w
    = (Ok ss, w') /\
    bumpersCache w' = bumpersCache w.
Proof.
  revert w. induction xs as [| x xs IH]; intros w.
  - exists [], w. split; reflexivity.
  - destruct (startGetPlaylistVideos_run env (pidOf x) maxVideos None channel w)
      as (s & w1 & Hrun & Hbc).
    destruct (IH w1) as (ss & w2 & Hrest & Hbc2).
    exists (s :: ss), w2. split; [| congruence].
    simpl. erewrite bind_Ok by exact Hrun. erewrite bind_Ok by exact Hrest. reflexivity.
Qed.

Lemma settleAll_run env l w :
  exists w', settleAll env l w = (Ok tt, w') /\ bumpersCache w' = bumpersCache w.
Proof.
  unfold settleAll. generalize (inSettlingOrder l). clear l. intros l.
  assert (Hmap : exists us w', mapM (settleStarted env) l w = (Ok us, w') /\
                               bumpersCache w' = bumpersCache w).
  { revert w. induction l as [| s l IH]; intros w.
    - exists [], w. split; reflexivity.
    - assert (Hs : exists w1, settleStarted env s w = (Ok tt, w1) /\
                              bumpersCache w1 = bumpersCache w).
      { destruct s; eexists; split; reflexivity. }
      destruct Hs as (w1 & Hs & Hbc).
      destruct (IH w1) as (us & w2 & Hrest & Hbc2).
      exists (tt :: us), w2. split; [| congruence].
      simpl. erewrite bind_Ok by exact Hs. erewrite bind_Ok by exact Hrest. reflexivity. }
  destruct Hmap as (us & w' & Hmap & Hbc).
  exists w'. split; [| exact Hbc].
  erewrite bind_Ok by exact Hmap. reflexivity.
Qed.

(** X9: the random-mix block of the cache path is always returned, under
    the id 'random-mix'; it has at most 12 regular entries, no two of them
    with the same id; and when one of them is not an excluded video, none
    of them is. *)
Theorem getRandomChannelBlock_distinct env customPlaylistIds excludeVideoIds w :
  EnvOk env ->
  (forall pool, bumpersCache w = Some pool -> Forall bumper pool) ->
  exists block w',
    getRandomChannelBlock env customPlaylistIds excludeVideoIds w = (Ok block, w') /\
    blk_playlistId block = "random-mix" /\
    NoDup (servedIds (blk_items block)) /\
    length (servedIds (blk_items block)) <= 12 /\
    ((exists x, x ∈ servedIds (blk_items block) /\ x ∉ excludeVideoIds) ->
     forall x, x ∈ servedIds (blk_items block) -> x ∉ excludeVideoIds).
Proof.
  intros Henv Hpool. unfold getRandomChannelBlock. cbv zeta.
  destruct (shuffle_run env (flat_map (officialOf env) channelsToInclude) w)
    as (allPlaylists & w1 & Hsh & _ & _ & Hbc1 & _ & Hup1 & _).
  erewrite bind_Ok by exact Hsh.
  destruct (mapM_startGetPlaylistVideos_run env pl_id (Some 15) (Some "random")
              (take 8 allPlaylists) w1)
    as (sampledStarted & w2 & Hsampled & Hbc2).
  erewrite bind_Ok by exact Hsampled.
  destruct (mapM_startGetPlaylistVideos_run env (fun pid : string => pid) (Some 100)
              (Some "random")
              (filter (fun i => isValidPlaylistId i = true) customPlaylistIds) w2)
    as (customStarted & w3 & Hcustom & Hbc3).
  erewrite bind_Ok by exact Hcustom.
  destruct (settleAll_run env (sampledStarted ++ customStarted) w3) as (w3' & Hsettle & Hbc3').
  erewrite bind_Ok by exact Hsettle.
  match goal with
  | |- context [dedupe ?l] => set (allVideos := dedupe l)
  end.
  set (filtered := excludeIds excludeVideoIds allVideos).
  destruct (shuffle_run env (if length filtered =? 0 then allVideos else filtered) w3')
    as (availableVideos & w4 & Hav & Hperm & _ & Hbc4 & _ & Hup4 & _).
  erewrite bind_Ok by exact Hav.
  destruct (insertBumpersIntoBlock_served env (take 12 availableVideos) (IntervalNum 4) w4 Henv)
    as (out & w5 & Hins & Hserved & Heq).
  { intros pool Hp. apply Hpool. congruence. }
  erewrite bind_Ok by exact Hins.
  eexists _, _. split; [reflexivity |]. split; [reflexivity |]. simpl blk_items.
  rewrite (Heq 4 eq_refl).
  assert (Hnd_all : NoDup (map id allVideos)).
  { subst allVideos. apply (dedupeFrom_spec _ ∅). }
  assert (Hnd_f : NoDup (map id filtered)).
  { subst filtered. unfold excludeIds.
    eapply sublist_NoDup; [exact Hnd_all |].
    change (map id ?l) with (id <$> l). apply fmap_sublist, sublist_filter. }
  assert (Hnd_av : NoDup (map id availableVideos)).
  { change (map id availableVideos) with (id <$> availableVideos). rewrite Hperm.
    destruct (length filtered =? 0); assumption. }
  assert (Hnd_take : NoDup (map id (take 12 availableVideos))).
  { eapply sublist_NoDup; [exact Hnd_av |].
    change (map id ?l) with (id <$> l). apply fmap_sublist, sublist_take. }
  split; [now apply servedIds_NoDup |].
  split.
  { etransitivity; [apply servedIds_length |]. rewrite length_take. lia. }
  intros (x0 & Hx0 & Hx0ex) x Hx.
  assert (Hsrc : forall y, y ∈ servedIds (map Some (take 12 availableVideos)) ->
                           exists v, v ∈ availableVideos /\ id v = y).
  { intros y Hy. apply servedIds_subset in Hy.
    change (map id ?l) with (id <$> l) in Hy.
    apply list_elem_of_fmap in Hy as (v & -> & Hv). exists v. split; [| reflexivity].
    now apply subseteq_take in Hv. }
  destruct (Nat.eqb_spec (length filtered) 0) as [H0 | Hn0].
  - exfalso. destruct (Hsrc x0 Hx0) as (v & Hv & <-). rewrite Hperm in Hv.
    assert (Hin : v ∈ filtered).
    { subst filtered. unfold excludeIds. apply list_elem_of_filter.
      split; [now rewrite elem_of_list_to_set | exact Hv]. }
    destruct filtered; [inversion Hin | discriminate H0].
  - destruct (Hsrc x Hx) as (v & Hv & <-). rewrite Hperm in Hv.
    subst filtered. unfold excludeIds in Hv. apply list_elem_of_filter in Hv as [Hv _].
    now rewrite elem_of_list_to_set in Hv.
Qed.

Lemma getRandomChannelBlock_distinct_witness :
  exists block w',
    getRandomChannelBlock storeUpEnv ["PLuser0000000001"] ["aaaaaaaaaaa"]
                          (worldOfBumpers [bumperX; bumperY]) = (Ok block, w') /\
    blk_playlistId block = "random-mix" /\
    NoDup (servedIds (blk_items block)) /\
    length (servedIds (blk_items block)) <= 12 /\
    ((exists x, x ∈ servedIds (blk_items block) /\ x ∉ ["aaaaaaaaaaa"]) ->
     forall x, x ∈ servedIds (blk_items block) -> x ∉ ["aaaaaaaaaaa"]).
Proof.
  apply (getRandomChannelBlock_distinct storeUpEnv ["PLuser0000000001"] ["aaaaaaaaaaa"]
           (worldOfBumpers [bumperX; bumperY])).
  - exact storeUpEnv_ok.
  - intros pool Hpool. injection Hpool as <-. repeat constructor.
Defined.

(** A custom playlist that is also one of the sampled playlists is listed
    twice by one call: both fetches are started before either has stored
    its entry. *)
Example getRandomChannelBlock_lists_twice :
  exists block w',
    getRandomChannelBlock storeUpEnv ["PL300C32DA374417AA"] [] emptyWorld = (Ok block, w') /\
    upstreamCalls w' = ["PL300C32DA374417AA"; "PL300C32DA374417AA"].
Proof. eexists _, _. split; vm_compute; reflexivity. Qed.

(** ** Video queries of the store *)

Lemma selectVideos_elem playlistId excludeVideoIds db r :
  r ∈ selectVideos playlistId excludeVideoIds db ->
  r ∈ tbl_videos db /\ is_flagged r = false /\
  (youtube_video_id r ∉ excludeVideoIds) /\
  (playlistId, row_id r) ∈ tbl_playlist_videos db.
Proof.
  unfold selectVideos. rewrite list_elem_of_In.
  intros Hin. apply in_flat_map in Hin as (v & Hv & Hin).
  apply in_flat_map in Hin as (pv & Hpv & Hin).
  apply in_flat_map in Hin as (p & _ & Hin).
  match type of Hin with
  | In r (if ?c then _ else _) => destruct c eqn:Hc
  end; [| destruct Hin].
  destruct Hin as [<- | []].
  apply andb_true_iff in Hc as [Hc Hex]. apply andb_true_iff in Hc as [Hc Hflag].
  apply andb_true_iff in Hc as [Hc Hp]. apply andb_true_iff in Hc as [Hv1 Hv2].
  apply negb_true_iff in Hflag.
  apply Z.eqb_eq in Hv1, Hv2, Hp.
  split; [now apply list_elem_of_In |]. split; [exact Hflag |]. split.
  - destruct (Nat.eqb_spec (length excludeVideoIds) 0) as [H0 | _].
    + destruct excludeVideoIds; [apply not_elem_of_nil | discriminate H0].
    + apply negb_true_iff in Hex. intros Hin. apply list_elem_of_In in Hin.
      assert (Htrue : existsb (String.eqb (youtube_video_id v)) excludeVideoIds = true).
      { apply existsb_exists. exists (youtube_video_id v).
        split; [exact Hin | apply String.eqb_refl]. }
      congruence.
  - apply list_elem_of_In. destruct pv as [a b]. simpl in *. now subst.
Qed.

Lemma sqlLimit_length {A} n (rows : list A) : length (sqlLimit (Some (S n)) rows) <= S n.
Proof. unfold sqlLimit. rewrite length_take. lia. Qed.

(** X10: what the video query of the store returns.  The tables are left as
    they are; with a limit of [n > 0] at most [n] rows come back; every row
    is a row of the videos table that is not flagged, is linked to the
    playlist and is not on the exclusion list; and nothing comes back when
    every video is excluded (the query has no reset). *)
Theorem getVideosByPlaylistId_selects env playlistId limit excludeVideoIds w rows w' :
  EnvOk env ->
  getVideosByPlaylistId env playlistId limit excludeVideoIds w = (Ok rows, w') ->
  database w' = database w /\
  (forall n, limit = Some (S n) -> length rows <= S n) /\
  Forall (fun r => r ∈ tbl_videos (database w) /\ is_flagged r = false /\
                   (youtube_video_id r ∉ excludeVideoIds) /\
                   (playlistId, row_id r) ∈ tbl_playlist_videos (database w)) rows /\
  ((forall r, r ∈ tbl_videos (database w) -> youtube_video_id r ∈ excludeVideoIds) ->
   rows = []).
Proof.
  intros [_ Hsql] Hrun. unfold getVideosByPlaylistId, dbQuery in Hrun.
  destruct (dbFault env (dbQueries w)); [discriminate Hrun |].
  injection Hrun as <- <-.
  assert (Hall : Forall (fun r => r ∈ tbl_videos (database w) /\ is_flagged r = false /\
                   (youtube_video_id r ∉ excludeVideoIds) /\
                   (playlistId, row_id r) ∈ tbl_playlist_videos (database w))
                 (sqlLimit limit (sqlRandom env (dbQueries w)
                    (selectVideos playlistId excludeVideoIds (database w))))).
  { apply Forall_forall. intros r Hr.
    apply sqlLimit_subset in Hr. rewrite (Hsql (dbQueries w)) in Hr.
    now apply selectVideos_elem in Hr. }
  split; [reflexivity |]. split; [| split; [exact Hall |]].
  - intros n ->. apply sqlLimit_length.
  - intros Hex.
    destruct (sqlLimit limit _) as [| r rest]; [reflexivity |].
    apply Forall_cons in Hall as [(Hr & _ & Hnot & _) _].
    exfalso. apply Hnot. now apply Hex.
Qed.

Lemma getVideosByPlaylistId_selects_witness :
  exists rows w',
    getVideosByPlaylistId storeUpEnv 1 (Some 12) [] (worldOfDb rockDb) = (Ok rows, w') /\
    database w' = database (worldOfDb rockDb) /\
    (forall n, Some 12 = Some (S n) -> length rows <= S n) /\
    Forall (fun r => r ∈ tbl_videos (database (worldOfDb rockDb)) /\ is_flagged r = false /\
                     (youtube_video_id r ∉ []) /\
                     (1%Z, row_id r) ∈ tbl_playlist_videos (database (worldOfDb rockDb)))
           rows /\
    ((forall r, r ∈ tbl_videos (database (worldOfDb rockDb)) -> youtube_video_id r ∈ []) ->
     rows = []).
Proof.
  eexists _, _. split; [vm_compute; reflexivity |].
  apply (getVideosByPlaylistId_selects storeUpEnv 1%Z (Some 12) [] (worldOfDb rockDb)).
  - exact storeUpEnv_ok.
  - vm_compute. reflexivity.
Defined.

(** ** Flags *)

Lemma clearCache_videos w : clearCache (Some "videos:") w = (Ok tt, w).
Proof. reflexivity. Qed.

Lemma updateFlag_id youtubeVideoId flagged reason v :
  youtube_video_id (updateFlag youtubeVideoId flagged reason v) = youtube_video_id v.
Proof. unfold updateFlag. now destruct (String.eqb (youtube_video_id v) youtubeVideoId). Qed.

Lemma flagVideo_run env youtubeVideoId reason w w1 :
  flagVideo env youtubeVideoId reason w = (Ok tt, w1) ->
  w1 = set_database
         (set_tbl_videos (map (updateFlag youtubeVideoId true reason)
                              (tbl_videos (database w))) (database w))
         (set_dbQueries (S (dbQueries w)) w).
Proof.
  unfold flagVideo, bind, dbExec. destruct (dbFault env (dbQueries w)); [discriminate |].
  rewrite clearCache_videos. now intros [= <-].
Qed.

Lemma unflagVideo_run env youtubeVideoId w w1 :
  unflagVideo env youtubeVideoId w = (Ok tt, w1) ->
  w1 = set_database
         (set_tbl_videos (map (updateFlag youtubeVideoId false None)
                              (tbl_videos (database w))) (database w))
         (set_dbQueries (S (dbQueries w)) w).
Proof.
  unfold unflagVideo, bind, dbExec. destruct (dbFault env (dbQueries w)); [discriminate |].
  rewrite clearCache_videos. now intros [= <-].
Qed.




Lemma set_tbl_videos_same db : set_tbl_videos (tbl_videos db) db = db.
Proof. now destruct db. Qed.

Lemma map_fixed {A} (f : A -> A) (l : list A) :
  (forall x, x ∈ l -> f x = x) -> map f l = l.
Proof.
  induction l as [| x l IH]; intros Hf; [reflexivity |].
  simpl. rewrite Hf by apply list_elem_of_here. f_equal.
  apply IH. intros y Hy. apply Hf. now apply list_elem_of_further.
Qed.

(** X12: [unflagVideo] undoes [flagVideo] for a video that was not flagged
    and had no reason recorded: the tables are back as they were. *)
Theorem unflagVideo_undoes_flagVideo env env' youtubeVideoId reason w w1 w2 :
  (forall r, r ∈ tbl_videos (database w) -> youtube_video_id r = youtubeVideoId ->
             is_flagged r = false /\ flag_reason r = None) ->
  flagVideo env youtubeVideoId reason w = (Ok tt, w1) ->
  unflagVideo env' youtubeVideoId w1 = (Ok tt, w2) ->
  database w2 = database w.
Proof.
  intros Hclean Hflag Hunflag.
  apply flagVideo_run in Hflag. subst w1.
  apply unflagVideo_run in Hunflag. subst w2. simpl.
  unfold set_tbl_videos. simpl.
  rewrite map_map, map_fixed; [now destruct (database w) |].
  intros r Hr.
  unfold updateFlag at 2.
  destruct (String.eqb_spec (youtube_video_id r) youtubeVideoId) as [Hid | Hid].
  - unfold updateFlag. simpl. apply String.eqb_eq in Hid as Hid'. rewrite Hid'.
    destruct (Hclean r Hr Hid) as [Hf Hreason]. destruct r; simpl in *. now subst.
  - unfold updateFlag. apply String.eqb_neq in Hid. now rewrite Hid.
Qed.

Lemma unflagVideo_undoes_flagVideo_witness :
  exists w1 w2,
    flagVideo storeUpEnv "bbbbbbbbbbb" (Some "Broken") (worldOfDb rockDb) = (Ok tt, w1) /\
    unflagVideo storeUpEnv "bbbbbbbbbbb" w1 = (Ok tt, w2) /\
    database w2 = database (worldOfDb rockDb).
Proof.
  eexists _, _. split; [vm_compute; reflexivity |]. split; [vm_compute; reflexivity |].
  eapply (unflagVideo_undoes_flagVideo storeUpEnv storeUpEnv "bbbbbbbbbbb" (Some "Broken")
            (worldOfDb rockDb)).
  - intros r Hr Hid. apply list_elem_of_In in Hr. simpl in Hr.
    destruct Hr as [<- | [<- | []]]; [discriminate Hid | split; reflexivity].
  - vm_compute. reflexivity.
  - vm_compute. reflexivity.
Defined.

Lemma updateFlag_ids youtubeVideoId flagged reason rows :
  map youtube_video_id (map (updateFlag youtubeVideoId flagged reason) rows)
  = map youtube_video_id rows.
Proof.
  rewrite map_map. apply map_ext. intros r. apply updateFlag_id.
Qed.

(** X13: [unflagVideo] clears the flag but keeps the report counter, so the
    next report undoes it.  For a video with at least 49 reports, the last
    of them within thirty days, the video is not flagged after
    [unflagVideo], and one more report flags it again. *)
Theorem unflagged_video_is_flagged_again env env' w video c t errorCode w1 :
  NoDup (map youtube_video_id (tbl_videos (database w))) ->
  video ∈ tbl_videos (database w) ->
  unavailable_count video = Some c ->
  (49 <= c)%Z ->
  last_unavailable_at video = Some t ->
  (now env' - 30 * 24 * 60 * 60 * 1000 <= t)%Z ->
  unflagVideo env (youtube_video_id video) w = (Ok tt, w1) ->
  dbFault env' (dbQueries w1) = None ->
  dbFault env' (S (dbQueries w1)) = None ->
  (forall r, r ∈ tbl_videos (database w1) ->
             youtube_video_id r = youtube_video_id video -> is_flagged r = false) /\
  exists w2 video',
    markVideoUnavailable env' (youtube_video_id video) errorCode w1 = (Ok tt, w2) /\
    video' ∈ tbl_videos (database w2) /\
    youtube_video_id video' = youtube_video_id video /\
    unavailable_count video' = Some (c + 1)%Z /\
    is_flagged video' = true.
Proof.
  intros Hnd Hin Hcount Hc Hlast Ht Hunflag Hq1 Hq2.
  apply unflagVideo_run in Hunflag.
  set (vid := youtube_video_id video) in *.
  set (video1 := updateFlag vid false None video).
  assert (Htbl : tbl_videos (database w1)
                 = map (updateFlag vid false None) (tbl_videos (database w))).
  { subst w1. reflexivity. }
  assert (Hid1 : youtube_video_id video1 = vid) by apply updateFlag_id.
  assert (Hin1 : video1 ∈ tbl_videos (database w1)).
  { rewrite Htbl. change (map ?f ?l) with (f <$> l).
    apply list_elem_of_fmap. now exists video. }
  assert (Hnd1 : NoDup (map youtube_video_id (tbl_videos (database w1)))).
  { rewrite Htbl, updateFlag_ids. exact Hnd. }
  split.
  - intros r Hr Hrid. rewrite Htbl in Hr. change (map ?f ?l) with (f <$> l) in Hr.
    apply list_elem_of_fmap in Hr as (v & -> & _).
    rewrite updateFlag_id in Hrid. unfold updateFlag.
    apply String.eqb_eq in Hrid. now rewrite Hrid.
  - destruct (markVideoUnavailable_run env' w1 video1 errorCode Hq1 Hq2 Hnd1 Hin1)
      as (w2 & Hrun & Htbl2).
    rewrite Hid1 in Hrun, Htbl2.
    assert (Hnew : newCountOf (now env') video1 = (c + 1)%Z).
    { unfold newCountOf, video1, updateFlag. subst vid. rewrite String.eqb_refl. simpl.
      rewrite Hlast, Hcount.
      destruct (Z.ltb_spec t (now env' - THIRTY_DAYS)) as [Hold | _]; [| reflexivity].
      unfold THIRTY_DAYS in Hold. lia. }
    rewrite Hnew in Htbl2.
    assert (Hflag : shouldFlagAt (c + 1) = true).
    { unfold shouldFlagAt, FLAG_THRESHOLD. apply Z.leb_le. lia. }
    rewrite Hflag in Htbl2.
    exists w2, (updateReported vid (c + 1) (now env')
                  (Some (flagReasonOf (c + 1) errorCode)) video1).
    split; [exact Hrun |]. split.
    + rewrite Htbl2. change (map ?f ?l) with (f <$> l).
      apply list_elem_of_fmap. now exists video1.
    + rewrite updateReported_id. split; [exact Hid1 |].
      unfold updateReported. rewrite Hid1, String.eqb_refl. now split.
Qed.

Lemma unflagged_video_is_flagged_again_witness :
  exists w1,
    unflagVideo plainEnv (youtube_video_id rowReported49) (worldOfDb trackerDb) = (Ok tt, w1) /\
    (forall r, r ∈ tbl_videos (database w1) ->
               youtube_video_id r = youtube_video_id rowReported49 -> is_flagged r = false) /\
    exists w2 video',
      markVideoUnavailable plainEnv (youtube_video_id rowReported49) NoCode w1 = (Ok tt, w2) /\
      video' ∈ tbl_videos (database w2) /\
      youtube_video_id video' = youtube_video_id rowReported49 /\
      unavailable_count video' = Some (49 + 1)%Z /\
      is_flagged video' = true.
Proof.
  eexists. split; [vm_compute; reflexivity |].
  apply (unflagged_video_is_flagged_again plainEnv plainEnv (worldOfDb trackerDb)
           rowReported49 49%Z 1699999999000%Z NoCode).
  - by_compute.
  - apply list_elem_of_here.
  - reflexivity.
  - lia.
  - reflexivity.
  - vm_compute. discriminate.
  - vm_compute. reflexivity.
  - reflexivity.
  - reflexivity.
Defined.

(** X14: a report changes the reported video only.  Every row keeps its
    place, its id and its video id; a row of another video is unchanged;
    the other tables and the bumper cache are unchanged; and a report for
    a video the store does not hold changes nothing. *)
Theorem markVideoUnavailable_touches_one_video env youtubeVideoId errorCode w w' :
  markVideoUnavailable env youtubeVideoId errorCode w = (Ok tt, w') ->
  length (tbl_videos (database w')) = length (tbl_videos (database w)) /\
  (forall i r, tbl_videos (database w) !! i = Some r ->
     exists r', tbl_videos (database w') !! i = Some r' /\
                youtube_video_id r' = youtube_video_id r /\
                row_id r' = row_id r /\
                (youtube_video_id r <> youtubeVideoId -> r' = r)) /\
  tbl_playlists (database w') = tbl_playlists (database w) /\
  tbl_playlist_videos (database w') = tbl_playlist_videos (database w) /\
  tbl_channel_playlists (database w') = tbl_channel_playlists (database w) /\
  tbl_bumpers (database w') = tbl_bumpers (database w) /\
  dbBumpersCache w' = dbBumpersCache w /\
  ((youtubeVideoId ∉ map youtube_video_id (tbl_videos (database w))) ->
   database w' = database w).
Proof.
  unfold markVideoUnavailable, bind, dbQuery, dbExec, ret.
  destruct (dbFault env (dbQueries w)); [discriminate |].
  destruct (filter _ (tbl_videos (database w))) as [| video rest] eqn:Hrows.
  - intros [= <-]. simpl. split; [reflexivity |]. split.
    { intros i r Hi. exists r. now repeat split. }
    now repeat split.
  - simpl. destruct (dbFault env (S (dbQueries w))); [discriminate |].
    intros [= <-]. simpl.
    set (f := updateReported youtubeVideoId _ _ _).
    split; [apply length_map |]. split.
    { intros i r Hi. exists (f r). split.
      - change (map f ?l) with (f <$> l). rewrite list_lookup_fmap, Hi. reflexivity.
      - subst f. split; [apply updateReported_id |]. unfold updateReported.
        destruct (String.eqb_spec (youtube_video_id r) youtubeVideoId) as [Heq | Hne].
        + split; [| congruence]. now destruct (if shouldFlagAt _ then _ else _).
        + now split. }
    repeat (split; [reflexivity |]).
    intros Hnot. exfalso. apply Hnot.
    assert (Hv : video ∈ filter (fun v => youtube_video_id v = youtubeVideoId)
                          (tbl_videos (database w))).
    { rewrite Hrows. apply list_elem_of_here. }
    apply list_elem_of_filter in Hv as [Hid Hv].
    change (map ?g ?l) with (g <$> l). apply list_elem_of_fmap. now exists video.
Qed.

Lemma markVideoUnavailable_touches_one_video_witness :
  exists w',
    markVideoUnavailable plainEnv "dQw4w9WgXcQ" NoCode (worldOfDb trackerDb) = (Ok tt, w') /\
    length (tbl_videos (database w')) = length (tbl_videos (database (worldOfDb trackerDb))) /\
    (forall i r, tbl_videos (database (worldOfDb trackerDb)) !! i = Some r ->
       exists r', tbl_videos (database w') !! i = Some r' /\
                  youtube_video_id r' = youtube_video_id r /\
                  row_id r' = row_id r /\
                  (youtube_video_id r <> "dQw4w9WgXcQ" -> r' = r)) /\
    tbl_playlists (database w') = tbl_playlists (database (worldOfDb trackerDb)) /\
    tbl_playlist_videos (database w') = tbl_playlist_videos (database (worldOfDb trackerDb)) /\
    tbl_channel_playlists (database w')
    = tbl_channel_playlists (database (worldOfDb trackerDb)) /\
    tbl_bumpers (database w') = tbl_bumpers (database (worldOfDb trackerDb)) /\
    dbBumpersCache w' = dbBumpersCache (worldOfDb trackerDb) /\
    (("dQw4w9WgXcQ" ∉ map youtube_video_id (tbl_videos (database (worldOfDb trackerDb)))) ->
     database w' = database (worldOfDb trackerDb)).
Proof.
  eexists. split; [vm_compute; reflexivity |].
  apply (markVideoUnavailable_touches_one_video plainEnv "dQw4w9WgXcQ" NoCode
           (worldOfDb trackerDb)).
  vm_compute. reflexivity.
Defined.

(** ** Bumpers of the store *)

Lemma insertBumperById_Permutation b l : Permutation (insertBumperById b l) (b :: l).
Proof.
  induction l as [| c l IH]; [reflexivity |].
  simpl. destruct (brow_id b <=? brow_id c)%Z; [reflexivity |].
  rewrite IH. apply perm_swap.
Qed.

Lemma selectBumpers_Permutation db : Permutation (selectBumpers db) (tbl_bumpers db).
Proof.
  unfold selectBumpers. induction (tbl_bumpers db) as [| b l IH]; [reflexivity |].
  simpl. rewrite insertBumperById_Permutation. now rewrite IH.
Qed.

(** The bumpers [getRandomBumpers] makes of the rows it holds. *)
Lemma bumpers_of_rows env count rows w :
  EnvOk env ->
  exists bs w',
    (let* shuffled := sortShuffled env rows in
     ret (map bumperOfRow (take count shuffled))) w = (Ok bs, w') /\
    dbQueries w' = dbQueries w /\ database w' = database w /\
    dbBumpersCache w' = dbBumpersCache w /\
    length bs <= count /\
    Forall bumper bs /\
    (forall x, x ∈ map id bs -> x ∈ map brow_youtube_video_id rows) /\
    (length rows <= count -> forall x, x ∈ map brow_youtube_video_id rows -> x ∈ map id bs).
Proof.
  intros [Hsort _]. unfold bind, sortShuffled, ret.
  eexists _, _. split; [reflexivity |].
  split; [reflexivity |]. split; [reflexivity |]. split; [reflexivity |].
  set (shuffled := sortRandom env BumperRow (rndPos w) rows).
  assert (Hperm : Permutation shuffled rows) by apply Hsort.
  split; [rewrite length_map, length_take; lia |]. split.
  { apply Forall_forall. intros b Hb. change (map ?f ?l) with (f <$> l) in Hb.
    apply list_elem_of_fmap in Hb as (row & -> & _). reflexivity. }
  split.
  - intros x Hx. rewrite map_map in Hx. change (map ?f ?l) with (f <$> l) in Hx.
    apply list_elem_of_fmap in Hx as (row & -> & Hrow). simpl.
    apply subseteq_take in Hrow. rewrite Hperm in Hrow.
    change (map ?f ?l) with (f <$> l). apply list_elem_of_fmap. now exists row.
  - intros Hlen x Hx. rewrite take_ge by (rewrite (Permutation_length Hperm); lia).
    change (map ?f ?l) with (f <$> l) in Hx.
    apply list_elem_of_fmap in Hx as (row & -> & Hrow).
    rewrite map_map. change (map ?f ?l) with (f <$> l).
    apply list_elem_of_fmap. exists row. split; [reflexivity |]. now rewrite Hperm.
Qed.

Lemma getRandomBumpers_hit env count w rows ts :
  dbBumpersCache w = Some (rows, ts) ->
  (now env - ts <= CACHE_TTL_BUMPERS)%Z ->
  getRandomBumpers env count w
  = (let* shuffled := sortShuffled env rows in
     ret (map bumperOfRow (take count shuffled))) w.
Proof.
  intros Hc Hts. unfold getRandomBumpers. unfold bind at 1. unfold getCachedBumpers.
  rewrite Hc. destruct (Z.ltb_spec CACHE_TTL_BUMPERS (now env - ts)); [lia |].
  unfold bind at 1. reflexivity.
Qed.

Lemma getRandomBumpers_fresh env count w :
  dbBumpersCache w = None ->
  getRandomBumpers env count w
  = match dbFault env (dbQueries w) with
    | Some e => (Throw e, set_dbQueries (S (dbQueries w)) w)
    | None =>
        (let* shuffled := sortShuffled env (selectBumpers (database w)) in
         ret (map bumperOfRow (take count shuffled)))
          (set_dbBumpersCache (Some (selectBumpers (database w), now env))
             (set_dbQueries (S (dbQueries w)) w))
    end.
Proof.
  intros Hc. unfold getRandomBumpers. unfold bind at 1. unfold getCachedBumpers.
  rewrite Hc. unfold bind at 1. unfold bind at 1. unfold dbQuery.
  destruct (dbFault env (dbQueries w)); reflexivity.
Qed.

(** X15: the bumper rows are read from the store once a day.  After a call
    that found the cache empty, a call made up to 24 hours later (the
    bound included) issues no store query, so it succeeds even when the
    store is down; it returns at most [count] entries, all marked as
    bumpers, with ids of rows of the bumpers table. *)
Theorem getRandomBumpers_reads_store_once env env' count count' w bs w1 :
  EnvOk env' ->
  dbBumpersCache w = None ->
  getRandomBumpers env count w = (Ok bs, w1) ->
  (now env' - now env <= 24 * 60 * 60 * 1000)%Z ->
  exists bs' w2,
    getRandomBumpers env' count' w1 = (Ok bs', w2) /\
    dbQueries w2 = dbQueries w1 /\
    length bs' <= count' /\
    Forall bumper bs' /\
    forall x, x ∈ map id bs' -> x ∈ map brow_youtube_video_id (tbl_bumpers (database w)).
Proof.
  intros Henv Hempty Hrun Hnow.
  rewrite getRandomBumpers_fresh in Hrun by exact Hempty.
  destruct (dbFault env (dbQueries w)); [discriminate Hrun |].
  unfold bind, sortShuffled, ret in Hrun. injection Hrun as _ <-.
  set (rows := selectBumpers (database w)).
  erewrite getRandomBumpers_hit; [| reflexivity | unfold CACHE_TTL_BUMPERS; lia].
  match goal with
  | |- context [bind (sortShuffled env' rows) ?k ?w0] =>
      destruct (bumpers_of_rows env' count' rows w0 Henv)
        as (bs' & w2 & Hbs & Hq & _ & _ & Hlen & Hbump & Hids & _)
  end.
  exists bs', w2. split; [exact Hbs |]. split; [exact Hq |].
  split; [exact Hlen |]. split; [exact Hbump |].
  intros x Hx. apply Hids in Hx. subst rows.
  change (map ?f ?l) with (f <$> l) in *.
  now rewrite selectBumpers_Permutation in Hx.
Qed.

Lemma storeDownEnv_ok : EnvOk storeDownEnv.
Proof. split; intros; reflexivity. Qed.

Lemma getRandomBumpers_reads_store_once_witness :
  exists bs w1,
    getRandomBumpers storeUpEnv 2 (worldOfDb rockDb) = (Ok bs, w1) /\
    exists bs' w2,
      getRandomBumpers storeDownEnv 1 w1 = (Ok bs', w2) /\
      dbQueries w2 = dbQueries w1 /\
      length bs' <= 1 /\
      Forall bumper bs' /\
      forall x, x ∈ map id bs' ->
                x ∈ map brow_youtube_video_id (tbl_bumpers (database (worldOfDb rockDb))).
Proof.
  eexists _, _. split; [vm_compute; reflexivity |].
  eapply (getRandomBumpers_reads_store_once storeUpEnv storeDownEnv 2 1 (worldOfDb rockDb)).
  - exact storeDownEnv_ok.
  - reflexivity.
  - vm_compute. reflexivity.
  - vm_compute. discriminate.
Defined.



Lemma served_after_miss env count w bs w' :
  EnvOk env ->
  dbBumpersCache w = None ->
  getRandomBumpers env count w = (Ok bs, w') ->
  (forall x, x ∈ map id bs -> x ∈ map brow_youtube_video_id (tbl_bumpers (database w))) /\
  (length (tbl_bumpers (database w)) <= count ->
   forall x, x ∈ map brow_youtube_video_id (tbl_bumpers (database w)) -> x ∈ map id bs).
Proof.
  intros Henv Hempty Hrun.
  rewrite getRandomBumpers_fresh in Hrun by exact Hempty.
  destruct (dbFault env (dbQueries w)); [discriminate Hrun |].
  match type of Hrun with
  | bind (sortShuffled env ?rows) ?k ?w0 = _ =>
      destruct (bumpers_of_rows env count rows w0 Henv)
        as (bs' & w2 & Hbs & _ & _ & _ & _ & _ & Hids & Hall)
  end.
  rewrite Hbs in Hrun. injection Hrun as <- <-.
  pose proof (selectBumpers_Permutation (database w)) as Hperm.
  split.
  - intros x Hx. apply Hids in Hx. change (map ?f ?l) with (f <$> l) in *.
    now rewrite Hperm in Hx.
  - intros Hlen x Hx. apply Hall.
    + now rewrite (Permutation_length Hperm).
    + change (map ?f ?l) with (f <$> l) in *. now rewrite Hperm.
Qed.

(** X16: [addBumper] never makes a second row for a video.  Starting from a
    bumpers table without a repeated video id, the table has none after
    the call.  A refusal changes neither the table nor the cache, and the
    id it reports is the id of the row that holds the video.  A success
    means the video was not in the table, appends its row (the id and the
    title as the VARCHAR columns store them, the title 'Bumper' when none
    is given) and drops the cached rows, so the next [getRandomBumpers]
    that asks for the whole table returns the new bumper. *)
Theorem addBumper_keeps_bumpers_unique env nextval youtube_video_id_ title_ w r w1 :
  addBumper env nextval youtube_video_id_ title_ w = (Ok r, w1) ->
  NoDup (map brow_youtube_video_id (tbl_bumpers (database w))) ->
  NoDup (map brow_youtube_video_id (tbl_bumpers (database w1))) /\
  match r with
  | Failure _ existingId =>
      database w1 = database w /\ dbBumpersCache w1 = dbBumpersCache w /\
      (forall i, existingId = Some i ->
         exists row, row ∈ tbl_bumpers (database w) /\ brow_id row = i /\
                     youtube_video_id_ = Some (brow_youtube_video_id row))
  | Success newId =>
      exists youtubeVideoId storedId storedTitle,
        youtube_video_id_ = Some youtubeVideoId /\ youtubeVideoId <> "" /\
        newId = Some nextval /\
        varchar 50 youtubeVideoId = Some storedId /\
        varchar 500 (match title_ with Some (String c t) => String c t | _ => "Bumper" end)
        = Some storedTitle /\
        (String.length youtubeVideoId <= 50 -> storedId = youtubeVideoId) /\
        (storedId ∉ map brow_youtube_video_id (tbl_bumpers (database w))) /\
        tbl_bumpers (database w1)
        = tbl_bumpers (database w) ++ [mkBumperRow nextval storedId storedTitle] /\
        forall env' count bs w2,
          EnvOk env' ->
          length (tbl_bumpers (database w1)) <= count ->
          getRandomBumpers env' count w1 = (Ok bs, w2) ->
          storedId ∈ map id bs
  end.
Proof.
  intros Hrun Hnd. unfold addBumper in Hrun.
  destruct youtube_video_id_ as [[| c0 ytid0] |];
    [change (negb (truthy (Some ""))) with true in Hrun
    | change (negb (truthy (Some (String c0 ytid0)))) with false in Hrun
    | change (negb (truthy None)) with true in Hrun];
    cbv iota in Hrun;
    try (injection Hrun as <- <-; split; [exact Hnd |]; split; [reflexivity |];
         split; [reflexivity | discriminate]).
  cbv zeta in Hrun. simpl default in Hrun.
  set (ytid := String c0 ytid0) in *.
  unfold bind at 1, dbQuery in Hrun.
  destruct (dbFault env (dbQueries w)); [discriminate Hrun |].
  destruct (filter _ (tbl_bumpers (database w))) as [| row rest] eqn:Hexisting.
  - unfold bind at 1, dbExecChecked in Hrun. simpl dbQueries in Hrun.
    destruct (dbFault env (S (dbQueries w))); [discriminate Hrun |].
    simpl database in Hrun. unfold insertBumperRow in Hrun.
    assert (Htitle : (if truthy title_ then default "" title_ else "Bumper")
                     = match title_ with Some (String c t) => String c t | _ => "Bumper" end).
    { now destruct title_ as [[| c t] |]. }
    rewrite Htitle in Hrun.
    destruct (varchar 50 ytid) as [storedId |] eqn:Hid; [| discriminate Hrun].
    destruct (varchar 500 _) as [storedTitle |] eqn:Hstored; [| discriminate Hrun].
    destruct (existsb (fun b => (brow_id b =? nextval)%Z) (tbl_bumpers (database w)));
      [discriminate Hrun |].
    destruct (existsb (fun b => String.eqb (brow_youtube_video_id b) storedId)
                      (tbl_bumpers (database w))) eqn:Hdup; [discriminate Hrun |].
    assert (Hfresh : storedId ∉ map brow_youtube_video_id (tbl_bumpers (database w))).
    { intros Hin. change (map ?f ?l) with (f <$> l) in Hin.
      apply list_elem_of_fmap in Hin as (b & Hb & Hin).
      assert (Hex : existsb (fun b => String.eqb (brow_youtube_video_id b) storedId)
                            (tbl_bumpers (database w)) = true).
      { apply existsb_exists. exists b. split; [now apply list_elem_of_In |].
        apply String.eqb_eq. now symmetry. }
      congruence. }
    unfold bind, clearCachePattern, modify, ret in Hrun.
    change (startsWith "bumpers:all" "bumpers:") with true in Hrun. cbv iota in Hrun.
    injection Hrun as <- <-. simpl. split.
    + rewrite map_app. simpl. apply NoDup_app. split; [exact Hnd |]. split.
      * intros x Hx Hx'. apply list_elem_of_singleton in Hx'. subst x. now apply Hfresh.
      * apply NoDup_singleton.
    + exists ytid, storedId, storedTitle. split; [reflexivity |]. split; [discriminate |].
      split; [reflexivity |]. split; [exact Hid |].
      split; [first [exact Hstored | reflexivity] |].
      split.
      { intros Hlen. unfold varchar in Hid.
        apply Nat.leb_le in Hlen. rewrite Hlen in Hid. now injection Hid as <-. }
      split; [exact Hfresh |]. split; [reflexivity |].
      intros env' count bs w2 Henv Hlen Hget.
      match type of Hget with
      | getRandomBumpers env' count ?w0 = _ =>
          destruct (served_after_miss env' count w0 bs w2 Henv eq_refl Hget) as [_ Hall]
      end.
      apply Hall; [exact Hlen |]. simpl.
      rewrite map_app. apply elem_of_app. right. simpl. apply list_elem_of_here.
  - unfold ret in Hrun. injection Hrun as <- <-. split; [exact Hnd |].
    split; [reflexivity |]. split; [reflexivity |].
    intros i [= <-]. exists row.
    assert (Hrow : row ∈ filter (fun b => brow_youtube_video_id b = ytid)
                           (tbl_bumpers (database w))).
    { rewrite Hexisting. apply list_elem_of_here. }
    apply list_elem_of_filter in Hrow as [Hid Hrow].
    split; [exact Hrow |]. split; [reflexivity | now rewrite Hid].
Qed.

Lemma addBumper_keeps_bumpers_unique_witness :
  exists w1,
    addBumper storeUpEnv 3 (Some "zzzzzzzzzzz") None (worldOfDb rockDb)
      = (Ok (Success (Some 3%Z)), w1) /\
    NoDup (map brow_youtube_video_id (tbl_bumpers (database w1))) /\
    exists youtubeVideoId storedId storedTitle,
      Some "zzzzzzzzzzz" = Some youtubeVideoId /\ youtubeVideoId <> "" /\
      Some 3%Z = Some 3%Z /\
      varchar 50 youtubeVideoId = Some storedId /\
      varchar 500 "Bumper" = Some storedTitle /\
      (String.length youtubeVideoId <= 50 -> storedId = youtubeVideoId) /\
      (storedId ∉ map brow_youtube_video_id (tbl_bumpers (database (worldOfDb rockDb)))) /\
      tbl_bumpers (database w1)
      = tbl_bumpers (database (worldOfDb rockDb)) ++ [mkBumperRow 3 storedId storedTitle] /\
      forall env' count bs w2,
        EnvOk env' ->
        length (tbl_bumpers (database w1)) <= count ->
        getRandomBumpers env' count w1 = (Ok bs, w2) ->
        storedId ∈ map id bs.
Proof.
  eexists. split; [vm_compute; reflexivity |].
  eapply (addBumper_keeps_bumpers_unique storeUpEnv 3%Z (Some "zzzzzzzzzzz") None
            (worldOfDb rockDb) (Success (Some 3%Z))).
  - vm_compute. reflexivity.
  - by_compute.
Defined.



(** ** Durations *)

Lemma string_app_assoc (s t u : string) : ((s ++ t) ++ u = s ++ (t ++ u))%string.
Proof.
  induction s as [| c s IH]; [reflexivity |].
  change (String c ((s ++ t) ++ u) = String c (s ++ (t ++ u)))%string. now f_equal.
Qed.

Lemma string_app_nil_r (s : string) : (s ++ "" = s)%string.
Proof.
  induction s as [| c s IH]; [reflexivity |].
  change (String c (s ++ "") = String c s)%string. now f_equal.
Qed.

Lemma pretty_N_char_digit x :
  (x < 10)%N ->
  isDigit (pretty_N_char x) = true /\
  (N.of_nat (nat_of_ascii (pretty_N_char x)) - 48)%N = x.
Proof.
  intros Hx.
  assert (Hcases : (x = 0 \/ x = 1 \/ x = 2 \/ x = 3 \/ x = 4 \/ x = 5 \/ x = 6 \/ x = 7
                    \/ x = 8 \/ x = 9)%N) by lia.
  repeat (destruct Hcases as [-> | Hcases]; [split; reflexivity |]).
  subst x. split; reflexivity.
Qed.

Lemma pretty_N_go_app x : forall s, pretty_N_go x s = (pretty_N_go x "" ++ s)%string.
Proof.
  induction (N.lt_wf_0 x) as [x _ IH]; intros s.
  destruct (N.eq_dec x 0%N) as [-> | Hx]; [reflexivity |].
  assert (Hlt : (x `div` 10 < x)%N) by (apply N.div_lt; lia).
  rewrite !(pretty_N_go_step x) by lia.
  rewrite (IH _ Hlt (String _ s)), (IH _ Hlt (String _ "")).
  now rewrite string_app_assoc.
Qed.

Lemma allChars_app p s t :
  allChars p (s ++ t)%string = allChars p s && allChars p t.
Proof.
  induction s as [| c s IH]; [reflexivity |]. simpl. rewrite IH. now rewrite andb_assoc.
Qed.

Lemma pretty_N_go_digits x : allChars isDigit (pretty_N_go x "") = true.
Proof.
  induction (N.lt_wf_0 x) as [x _ IH].
  destruct (N.eq_dec x 0%N) as [-> | Hx]; [reflexivity |].
  assert (Hlt : (x `div` 10 < x)%N) by (apply N.div_lt; lia).
  rewrite pretty_N_go_step, pretty_N_go_app by lia.
  rewrite allChars_app, (IH _ Hlt).
  simpl. rewrite andb_true_r.
  apply pretty_N_char_digit. apply N.mod_lt. lia.
Qed.

Lemma parseIntFrom_pretty_N_go x :
  forall s, parseIntFrom 0 (pretty_N_go x s) = parseIntFrom x s.
Proof.
  induction (N.lt_wf_0 x) as [x _ IH]; intros s.
  destruct (N.eq_dec x 0%N) as [-> | Hx]; [reflexivity |].
  assert (Hlt : (x `div` 10 < x)%N) by (apply N.div_lt; lia).
  rewrite pretty_N_go_step by lia.
  rewrite (IH _ Hlt).
  unfold parseIntFrom. simpl. f_equal.
  destruct (pretty_N_char_digit (x `mod` 10)%N) as [_ ->]; [apply N.mod_lt; lia |].
  pose proof (N.div_mod x 10). lia.
Qed.

Lemma pretty_N_nonempty (x : N) : exists c s, pretty x = String c s.
Proof.
  unfold pretty, pretty_N. destruct (decide (x = 0)%N) as [-> | Hx]; [now eexists _, _ |].
  rewrite pretty_N_go_step, pretty_N_go_app by lia.
  destruct (pretty_N_go (x `div` 10) "") as [| c s]; now eexists _, _.
Qed.

Lemma pretty_N_digits (x : N) : allChars isDigit (pretty x) = true.
Proof.
  unfold pretty, pretty_N. destruct (decide (x = 0)%N); [reflexivity |].
  apply pretty_N_go_digits.
Qed.

Lemma parseIntFrom_pretty (x : N) : parseIntFrom 0 (pretty x) = x.
Proof.
  unfold pretty, pretty_N. destruct (decide (x = 0)%N) as [-> | _]; [reflexivity |].
  now rewrite parseIntFrom_pretty_N_go.
Qed.

Lemma spanDigits_run digits u rest :
  allChars isDigit digits = true ->
  isDigit u = false ->
  spanDigits (digits ++ String u rest) = (digits, String u rest).
Proof.
  intros Hd Hu. induction digits as [| c digits IH].
  - simpl. now rewrite Hu.
  - simpl in Hd. apply andb_true_iff in Hd as [Hc Hd].
    simpl. rewrite Hc, IH by exact Hd. reflexivity.
Qed.

Lemma spanDigits_end digits :
  allChars isDigit digits = true -> spanDigits digits = (digits, "").
Proof.
  intros Hd. induction digits as [| c digits IH]; [reflexivity |].
  simpl in Hd. apply andb_true_iff in Hd as [Hc Hd].
  simpl. rewrite Hc, IH by exact Hd. reflexivity.
Qed.

(** A part that is printed is captured. *)
Lemma optionalGroup_part n unit rest :
  (n <> 0)%N ->
  isDigit unit = false ->
  optionalGroup unit (isoPart n unit ++ rest) = (Some (pretty n), rest).
Proof.
  intros Hn Hu. unfold isoPart. destruct (N.eqb_spec n 0) as [| _]; [contradiction |].
  rewrite string_app_assoc. change (String unit "" ++ rest)%string with (String unit rest).
  unfold optionalGroup. rewrite spanDigits_run by (apply pretty_N_digits || exact Hu).
  destruct (pretty_N_nonempty n) as (c & s & ->).
  now rewrite Ascii.eqb_refl.
Qed.

(** A group whose unit does not follow the digits takes no part. *)
Lemma optionalGroup_other n unit other rest :
  (n <> 0)%N ->
  isDigit other = false ->
  Ascii.eqb other unit = false ->
  optionalGroup unit (isoPart n other ++ rest) = (None, (isoPart n other ++ rest)%string).
Proof.
  intros Hn Hu Hne. unfold isoPart. destruct (N.eqb_spec n 0) as [| _]; [contradiction |].
  rewrite string_app_assoc. change (String other "" ++ rest)%string with (String other rest).
  unfold optionalGroup. rewrite spanDigits_run by (apply pretty_N_digits || exact Hu).
  destruct (pretty_N_nonempty n) as (c & s & ->).
  now rewrite Hne.
Qed.

Lemma optionalGroup_empty unit : optionalGroup unit "" = (None, "").
Proof. reflexivity. Qed.

Lemma isoPart_zero unit : isoPart 0 unit = "".
Proof. reflexivity. Qed.

(** X18: [parseDuration] reads back the durations the upstream writes for
    videos shorter than a day: for hours, minutes and seconds (each left
    out of the text when it is zero) the result is the number of
    seconds. *)
Theorem parseDuration_isoDuration hours minutes seconds :
  (hours * 3600 + minutes * 60 + seconds < 2 ^ 53)%N ->
  parseDuration (isoDuration hours minutes seconds)
  = (hours * 3600 + minutes * 60 + seconds)%N.
Proof.
  intros _. unfold parseDuration, isoDuration.
  change (matchDuration ("PT" ++ ?r))
    with (let '(h, r1) := optionalGroup "H" r in
          let '(m, r2) := optionalGroup "M" r1 in
          let '(s, _) := optionalGroup "S" r2 in
          Some (h, m, s)).
  assert (HH : isDigit "H" = false) by reflexivity.
  assert (HM : isDigit "M" = false) by reflexivity.
  assert (HS : isDigit "S" = false) by reflexivity.
  assert (Hskip : forall unit,
             Ascii.eqb "S" unit = false ->
             optionalGroup unit (isoPart seconds "S") = (None, isoPart seconds "S")).
  { intros unit Hunit. destruct (N.eqb_spec seconds 0) as [-> | Hs]; [reflexivity |].
    replace (isoPart seconds "S") with (isoPart seconds "S" ++ "")%string
      by apply string_app_nil_r.
    now apply optionalGroup_other. }
  assert (Hsec : optionalGroup "S" (isoPart seconds "S")
                 = (if (seconds =? 0)%N then None else Some (pretty seconds), "")).
  { destruct (N.eqb_spec seconds 0) as [-> | Hs]; [reflexivity |].
    replace (isoPart seconds "S") with (isoPart seconds "S" ++ "")%string
      by apply string_app_nil_r.
    now apply optionalGroup_part. }
  assert (Hmin : optionalGroup "M" (isoPart minutes "M" ++ isoPart seconds "S")
                 = (if (minutes =? 0)%N then None else Some (pretty minutes),
                    isoPart seconds "S")).
  { destruct (N.eqb_spec minutes 0) as [-> | Hm]; [| now apply optionalGroup_part].
    rewrite isoPart_zero. change ("" ++ ?x)%string with x. now apply Hskip. }
  assert (Hhour : optionalGroup "H" (isoPart hours "H" ++ isoPart minutes "M"
                                       ++ isoPart seconds "S")
                  = (if (hours =? 0)%N then None else Some (pretty hours),
                     (isoPart minutes "M" ++ isoPart seconds "S")%string)).
  { destruct (N.eqb_spec hours 0) as [-> | Hh]; [| now apply optionalGroup_part].
    rewrite isoPart_zero. change ("" ++ ?x)%string with x.
    destruct (N.eqb_spec minutes 0) as [-> | Hm].
    - rewrite isoPart_zero. change ("" ++ ?x)%string with x. now apply Hskip.
    - now apply optionalGroup_other. }
  rewrite Hhour, Hmin, Hsec.
  assert (Hval : forall n : N,
             parseInt (if (n =? 0)%N then None else Some (pretty n)) = n).
  { intros n. destruct (N.eqb_spec n 0) as [-> | _]; [reflexivity |].
    apply parseIntFrom_pretty. }
  now rewrite !Hval.
Qed.

Lemma parseDuration_isoDuration_witness :
  parseDuration (isoDuration 0 3 20) = (0 * 3600 + 3 * 60 + 20)%N.
Proof. apply (parseDuration_isoDuration 0 3 20). vm_compute. reflexivity. Defined.

Lemma matchDuration_none isoDuration :
  includes isoDuration "PT" = false -> matchDuration isoDuration = None.
Proof.
  induction isoDuration as [| c s IH]; [reflexivity |].
  intros Hinc. cbn [includes] in Hinc. apply orb_false_iff in Hinc as [Hstart Hrest].
  cbn [matchDuration startsWith]. cbn [startsWith] in Hstart. rewrite Hstart. now apply IH.
Qed.

(** X19: a duration text without 'PT' is read as 0 seconds.  The ISO 8601
    forms with a day part, which the upstream uses from 24 hours on
    ('P1DT2H3M4S'), are of that kind. *)
Theorem parseDuration_without_PT isoDuration :
  includes isoDuration "PT" = false -> parseDuration isoDuration = 0%N.
Proof.
  intros Hinc. unfold parseDuration. now rewrite matchDuration_none.
Qed.

Lemma parseDuration_without_PT_witness : parseDuration "P1DT2H3M4S" = 0%N.
Proof. apply (parseDuration_without_PT "P1DT2H3M4S"). vm_compute. reflexivity. Defined.

(** ** The flat interleaver *)

Lemma insertBumpersLoop_shape shuffledBumpers vs :
  shuffledBumpers <> [] ->
  Forall bumper shuffledBumpers ->
  Forall regular vs ->
  forall bumperIndex songCount,
    songCount < 4 ->
    length (insertBumpersLoop shuffledBumpers bumperIndex songCount vs)
      = length vs + (length vs + songCount) / 4 /\
    servedIds (insertBumpersLoop shuffledBumpers bumperIndex songCount vs) = map id vs /\
    (forall k,
       bumperAtPosition (insertBumpersLoop shuffledBumpers bumperIndex songCount vs) k <->
       k < length (insertBumpersLoop shuffledBumpers bumperIndex songCount vs) /\
       (k + songCount) mod 5 = 4) /\
    Forall (fun x => x ∈ map id shuffledBumpers)
           (bumperIds (insertBumpersLoop shuffledBumpers bumperIndex songCount vs)).
Proof.
  intros Hne Hpool Hvs. induction Hvs as [| v rest Hv Hrest IH]; intros bi c Hc.
  - cbn [insertBumpersLoop length]. change (0 + c) with c.
    split; [rewrite Nat.div_small by lia; reflexivity |].
    split; [reflexivity |]. split; [| constructor].
    intros k. unfold bumperAtPosition. split.
    + intros (b & Hb & _). rewrite lookup_nil in Hb. discriminate.
    + simpl. lia.
  - cbn [insertBumpersLoop]. rewrite Hv.
    destruct (Nat.eqb_spec (S c) 4) as [Hfour | Hless].
    + destruct (bumperAt_Some shuffledBumpers bi Hne) as (b & Hb & Hbin).
      rewrite Hb.
      assert (Hbb : bumper b) by (rewrite Forall_forall in Hpool; now apply Hpool).
      destruct (IH (S bi) 0 ltac:(lia)) as (Hlen & Hserved & Hpos & Hids).
      set (tl := insertBumpersLoop shuffledBumpers (S bi) 0 rest) in *.
      split.
      { simpl length. rewrite Hlen.
        replace (S (length rest) + c) with (length rest + 0 + 1 * 4) by lia.
        rewrite Nat.div_add by lia. lia. }
      split.
      { unfold servedIds at 1. simpl. unfold regular in Hv. rewrite Hv.
        unfold bumper in Hbb. rewrite Hbb. simpl. f_equal. exact Hserved. }
      split.
      { intros [| [| k]].
        - unfold bumperAtPosition. split.
          + intros (b0 & Hb0 & Hbb0). simpl in Hb0. injection Hb0 as <-.
            unfold regular in Hv. congruence.
          + intros [_ Hmod]. assert (Hc3 : c = 3) by lia. rewrite Hc3 in Hmod.
            vm_compute in Hmod. discriminate Hmod.
        - unfold bumperAtPosition. split.
          + intros _. split; [cbn [length]; lia |].
            assert (Hc3 : c = 3) by lia. now rewrite Hc3.
          + intros _. now exists b.
        - change (bumperAtPosition (Some v :: Some b :: tl) (S (S k)))
            with (bumperAtPosition tl k).
          rewrite (Hpos k).
          assert (Hmod : (S (S k) + c) mod 5 = (k + 0) mod 5).
          { replace (S (S k) + c) with (k + 0 + 1 * 5) by lia. apply Nat.Div0.mod_add. }
          rewrite Hmod. cbn [length]. lia. }
      { rewrite bumperIds_regular by exact Hv. rewrite bumperIds_bumper by exact Hbb.
        constructor; [| exact Hids].
        change (map id shuffledBumpers) with (id <$> shuffledBumpers).
        apply list_elem_of_fmap. now exists b. }
    + destruct (IH bi (S c) ltac:(lia)) as (Hlen & Hserved & Hpos & Hids).
      set (tl := insertBumpersLoop shuffledBumpers bi (S c) rest) in *.
      split.
      { simpl length. rewrite Hlen.
        replace (S (length rest) + c) with (length rest + S c) by lia. lia. }
      split.
      { unfold servedIds at 1. simpl. unfold regular in Hv. rewrite Hv.
        simpl. f_equal. exact Hserved. }
      split.
      { intros [| k].
        - unfold bumperAtPosition. split.
          + intros (b0 & Hb0 & Hbb0). simpl in Hb0. injection Hb0 as <-.
            unfold regular in Hv. congruence.
          + intros [_ Hmod]. change (0 + c) with c in Hmod.
            rewrite Nat.mod_small in Hmod by lia. lia.
        - change (bumperAtPosition (Some v :: tl) (S k)) with (bumperAtPosition tl k).
          rewrite (Hpos k). replace (S k + c) with (k + S c) by lia.
          cbn [length]. lia. }
      { rewrite bumperIds_regular by exact Hv. exact Hids. }
Qed.

(** X20: the flat interleaver puts one bumper after every fourth song.  For
    a list of regular videos and a non-empty pool of bumpers the result
    holds the videos in their order, has one bumper of the pool for every
    full group of four, at the places 4, 9, 14, ... (counted from 0) and
    nowhere else; without a pool the list comes back as it is. *)
Theorem insertBumpers_every_fourth env vs pool w :
  EnvOk env ->
  pool <> [] ->
  Forall bumper pool ->
  Forall regular vs ->
  (exists out w',
     insertBumpers env vs (Some pool) w = (Ok out, w') /\
     length out = length vs + length vs / 4 /\
     servedIds out = map id vs /\
     (forall k, bumperAtPosition out k <-> k < length out /\ k mod 5 = 4) /\
     Forall (fun x => x ∈ map id pool) (bumperIds out)) /\
  insertBumpers env vs None w = (Ok (map Some vs), w) /\
  insertBumpers env vs (Some []) w = (Ok (map Some vs), w).
Proof.
  intros Henv Hne Hpool Hvs. split; [| split; reflexivity].
  unfold insertBumpers.
  destruct (Nat.eqb_spec (length pool) 0) as [H0 | _].
  { destruct pool; [congruence | discriminate H0]. }
  destruct (sortShuffled_run env pool w Henv) as (shuffled & w' & Hsort & Hperm).
  erewrite bind_Ok by exact Hsort.
  assert (Hne' : shuffled <> []).
  { intros ->. apply Permutation_nil_l in Hperm. congruence. }
  assert (Hpool' : Forall bumper shuffled) by now rewrite Hperm.
  destruct (insertBumpersLoop_shape shuffled vs Hne' Hpool' Hvs 0 0 ltac:(lia))
    as (Hlen & Hserved & Hpos & Hids).
  eexists _, _. split; [reflexivity |].
  split; [now rewrite Hlen, Nat.add_0_r |]. split; [exact Hserved |].
  split.
  - intros k. rewrite Hpos. now rewrite Nat.add_0_r.
  - eapply Forall_impl; [exact Hids |]. intros x Hx.
    change (map id ?l) with (id <$> l) in *. now rewrite <- Hperm.
Qed.

Lemma insertBumpers_every_fourth_witness :
  (exists out w',
     insertBumpers plainEnv twelveSongs (Some [bumperX; bumperY]) emptyWorld = (Ok out, w') /\
     length out = length twelveSongs + length twelveSongs / 4 /\
     servedIds out = map id twelveSongs /\
     (forall k, bumperAtPosition out k <-> k < length out /\ k mod 5 = 4) /\
     Forall (fun x => x ∈ map id [bumperX; bumperY]) (bumperIds out)) /\
  insertBumpers plainEnv twelveSongs None emptyWorld = (Ok (map Some twelveSongs), emptyWorld) /\
  insertBumpers plainEnv twelveSongs (Some []) emptyWorld
  = (Ok (map Some twelveSongs), emptyWorld).
Proof.
  apply (insertBumpers_every_fourth plainEnv twelveSongs [bumperX; bumperY] emptyWorld).
  - exact plainEnv_ok.
  - discriminate.
  - repeat constructor.
  - repeat constructor.
Defined.

(** ** The bumper pool of the cache path *)

Lemma durationMapOf_lookup durationsData :
  forall (m : gmap string N) i d,
    fold_left (fun m entry => <[ fst entry := snd entry ]> m) durationsData m !! i = Some d ->
    (i, d) ∈ durationsData \/ m !! i = Some d.
Proof.
  induction durationsData as [| [j e] rest IH]; intros m i d Hlookup; [now right |].
  simpl in Hlookup. apply IH in Hlookup as [Hin | Hm].
  - left. now apply list_elem_of_further.
  - destruct (decide (j = i)) as [-> | Hne].
    + rewrite lookup_insert_eq in Hm. injection Hm as ->. left. apply list_elem_of_here.
    + rewrite lookup_insert_ne in Hm by exact Hne. now right.
Qed.

Lemma fetchPlaylistItems_caught env playlistId maxVideos channel w :
  exists vs,
    tryCatch (fetchPlaylistItems env playlistId maxVideos channel) (fun _ => ret []) w
    = (Ok vs, set_upstreamCalls (playlistId :: upstreamCalls w) w).
Proof.
  unfold tryCatch, fetchPlaylistItems, bind, upstream, settle, throw, ret.
  destruct (payload _); eexists; reflexivity.
Qed.

(** X21: the bumper pool of the cache path.  With an API key set,
    [fetchBumpers] never rejects, whatever the upstream answers; it lists
    each of the three bumper playlists once; every entry of the pool is
    marked as a bumper, and the videos endpoint has answered for its id
    with a duration that [parseDuration] reads as 1 to 90 seconds. *)
Theorem fetchBumpers_pool API_KEY videosApi env w :
  truthy API_KEY = true ->
  exists pool w',
    fetchBumpers API_KEY videosApi env w = (Ok pool, w') /\
    upstreamCalls w'
    = ["PLMl84_AytMHWf2ZHFbtpskMANEwKoPvZ5"; "PLLHK2qXpOJlq07tC0I0aMZ8LbdsSj3jAF";
       "PLnG7oFaM6TYqDLvZ_PBY79Pn68BFbv17w"] ++ upstreamCalls w /\
    Forall bumper pool /\
    forall b, b ∈ pool ->
      exists k batch items isoDuration,
        videosApi k batch = Some items /\
        (id b, isoDuration) ∈ items /\
        (1 <= parseDuration isoDuration <= 90)%N.
Proof.
  intros Hkey. unfold fetchBumpers, BUMPER_PLAYLISTS.
  destruct (fetchPlaylistItems_caught env "PLnG7oFaM6TYqDLvZ_PBY79Pn68BFbv17w" None
              (Some "bumper") w) as (vs1 & H1).
  set (w1 := set_upstreamCalls _ w) in H1.
  destruct (fetchPlaylistItems_caught env "PLLHK2qXpOJlq07tC0I0aMZ8LbdsSj3jAF" None
              (Some "bumper") w1) as (vs2 & H2).
  set (w2 := set_upstreamCalls _ w1) in H2.
  destruct (fetchPlaylistItems_caught env "PLMl84_AytMHWf2ZHFbtpskMANEwKoPvZ5" None
              (Some "bumper") w2) as (vs3 & H3).
  set (w3 := set_upstreamCalls _ w2) in H3.
  assert (Hall : promiseAll
            (fun p => tryCatch (fetchPlaylistItems env (pl_id p) None (Some "bumper"))
                               (fun _ => ret []))
            [ mkPlaylist "PLnG7oFaM6TYqDLvZ_PBY79Pn68BFbv17w" (Some "MTV Bumpers 1") false;
              mkPlaylist "PLLHK2qXpOJlq07tC0I0aMZ8LbdsSj3jAF" (Some "MTV Bumpers 2") false;
              mkPlaylist "PLMl84_AytMHWf2ZHFbtpskMANEwKoPvZ5" (Some "MTV Bumpers 3") false ] w
          = (Ok [vs1; vs2; vs3], w3)).
  { cbn [promiseAll pl_id]. rewrite H1, H2, H3. reflexivity. }
  erewrite bind_Ok by exact Hall. cbv zeta.
  unfold getVideoDurations. rewrite Hkey. cbv [negb].
  unfold bind at 1, ret at 1. unfold ret.
  eexists _, _. split; [reflexivity |]. split; [reflexivity |].
  set (allBumpers := concat [vs1; vs2; vs3]).
  set (durationsData := concat (imap _ _)).
  split.
  - apply Forall_forall. intros b Hb. change (map ?f ?l) with (f <$> l) in Hb.
    apply list_elem_of_fmap in Hb as (b0 & -> & _). reflexivity.
  - intros b Hb. change (map ?f ?l) with (f <$> l) in Hb.
    apply list_elem_of_fmap in Hb as (b0 & -> & Hb0). simpl id.
    apply list_elem_of_filter in Hb0 as [Hshort _].
    unfold shortEnough in Hshort.
    destruct (durationMapOf durationsData !! id b0) as [d |] eqn:Hd; [| discriminate].
    apply andb_true_iff in Hshort as [Hpos Hmax].
    apply negb_true_iff, N.eqb_neq in Hpos. apply N.leb_le in Hmax.
    unfold durationMapOf in Hd. apply durationMapOf_lookup in Hd as [Hin | Hempty].
    2:{ rewrite lookup_empty in Hempty. discriminate. }
    subst durationsData. apply elem_of_concat in Hin as (answers & Hin & Hanswers).
    apply elem_of_lookup_imap in Hanswers as (k & batch & -> & _).
    destruct (videosApi k batch) as [items |] eqn:Hapi; [| inversion Hin].
    change (map ?f ?l) with (f <$> l) in Hin.
    apply list_elem_of_fmap in Hin as ([i iso] & [= -> ->] & Hitem).
    exists k, batch, items, iso. split; [exact Hapi |]. split; [exact Hitem |].
    unfold MAX_BUMPER_DURATION in Hmax. lia.
Qed.

Lemma fetchBumpers_pool_witness :
  exists pool w',
    fetchBumpers (Some "key") halfMinuteApi apiEnv emptyWorld = (Ok pool, w') /\
    upstreamCalls w'
    = ["PLMl84_AytMHWf2ZHFbtpskMANEwKoPvZ5"; "PLLHK2qXpOJlq07tC0I0aMZ8LbdsSj3jAF";
       "PLnG7oFaM6TYqDLvZ_PBY79Pn68BFbv17w"] ++ upstreamCalls emptyWorld /\
    Forall bumper pool /\
    forall b, b ∈ pool ->
      exists k batch items isoDuration,
        halfMinuteApi k batch = Some items /\
        (id b, isoDuration) ∈ items /\
        (1 <= parseDuration isoDuration <= 90)%N.
Proof.
  apply (fetchBumpers_pool (Some "key") halfMinuteApi apiEnv emptyWorld). reflexivity.
Defined.

(** ** Titles *)

Lemma startsWithUnits_app pattern rest : startsWithUnits (pattern ++ rest) pattern = true.
Proof.
  induction pattern as [| p pattern IH]; [reflexivity |].
  simpl. now rewrite N.eqb_refl, IH.
Qed.

(** The first ' - ' of [artist ++ ' - ' ++ song] is the one written
    between the two when [artist ++ ' -'] holds none. *)
Lemma indexOf_separator artist song :
  indexOf (artist ++ [32; 45]%N) SEPARATOR = None ->
  indexOf (artist ++ SEPARATOR ++ song) SEPARATOR = Some (length artist).
Proof.
  induction artist as [| c a IH]; intros Hnone.
  - reflexivity.
  - cbn [app indexOf] in Hnone.
    destruct (startsWithUnits (c :: a ++ [32; 45]%N) SEPARATOR) eqn:Hstart;
      [discriminate Hnone |].
    destruct (indexOf (a ++ [32; 45]%N) SEPARATOR) eqn:Hrest; [discriminate Hnone |].
    cbn [app indexOf length].
    assert (Hstart' : startsWithUnits (c :: a ++ SEPARATOR ++ song) SEPARATOR = false).
    { unfold SEPARATOR in *. destruct a as [| x [| y a]].
      - simpl. destruct (c =? 32)%N; reflexivity.
      - simpl in *. destruct (c =? 32)%N; [| reflexivity].
        destruct (x =? 45)%N; [discriminate Hstart | reflexivity].
      - simpl in *. exact Hstart. }
    rewrite Hstart', IH by reflexivity. reflexivity.
Qed.

Lemma parseTitle_split_run artist song channel :
  artist <> [] ->
  trim artist = artist ->
  trim song = song ->
  indexOf (artist ++ [32; 45]%N) SEPARATOR = None ->
  channel <> Some "live" ->
  channel <> Some "bumper" ->
  parseTitle (artist ++ SEPARATOR ++ song) channel = ArtistSong artist song.
Proof.
  intros Hne Hta Hts Hnone Hlive Hbumper.
  unfold parseTitle.
  assert (Hch : match channel with
                | Some c => String.eqb c "live" || String.eqb c "bumper"
                | None => false
                end = false).
  { destruct channel as [c |]; [| reflexivity].
    destruct (String.eqb_spec c "live") as [-> | _]; [congruence |].
    destruct (String.eqb_spec c "bumper") as [-> | _]; [congruence | reflexivity]. }
  rewrite Hch, indexOf_separator by exact Hnone.
  destruct artist as [| c a]; [congruence |].
  cbn [length]. cbv zeta.
  rewrite take_app_length'; [| reflexivity].
  replace (S (length a) + 3) with (length (c :: a) + 3) by reflexivity.
  rewrite drop_app_add'; [| reflexivity].
  change (drop 3 (SEPARATOR ++ song)) with song.
  now rewrite Hta, Hts.
Qed.

(** X22: [parseTitle] splits 'artist - song' at the first ' - '.  For an
    artist and a song without white space at their ends, the artist not
    empty and no ' - ' in [artist ++ ' -'], the title
    [artist ++ ' - ' ++ song] is parsed into that artist and that song;
    on the live channel and for bumpers the title is never split. *)
Theorem parseTitle_splits artist song channel :
  artist <> [] ->
  trim artist = artist ->
  trim song = song ->
  indexOf (artist ++ [32; 45]%N) SEPARATOR = None ->
  channel <> Some "live" ->
  channel <> Some "bumper" ->
  parseTitle (artist ++ SEPARATOR ++ song) channel = ArtistSong artist song /\
  parseTitle (artist ++ SEPARATOR ++ song) (Some "live")
  = TitleOnly (trim (artist ++ SEPARATOR ++ song)) /\
  parseTitle (artist ++ SEPARATOR ++ song) (Some "bumper")
  = TitleOnly (trim (artist ++ SEPARATOR ++ song)).
Proof.
  intros Hne Hta Hts Hnone Hlive Hbumper.
  split; [now apply parseTitle_split_run | split; reflexivity].
Qed.

Lemma parseTitle_splits_witness :
  parseTitle (unitsOf "Queen" ++ SEPARATOR ++ unitsOf "Bohemian Rhapsody") (Some "rock")
  = ArtistSong (unitsOf "Queen") (unitsOf "Bohemian Rhapsody") /\
  parseTitle (unitsOf "Queen" ++ SEPARATOR ++ unitsOf "Bohemian Rhapsody") (Some "live")
  = TitleOnly (trim (unitsOf "Queen" ++ SEPARATOR ++ unitsOf "Bohemian Rhapsody")) /\
  parseTitle (unitsOf "Queen" ++ SEPARATOR ++ unitsOf "Bohemian Rhapsody") (Some "bumper")
  = TitleOnly (trim (unitsOf "Queen" ++ SEPARATOR ++ unitsOf "Bohemian Rhapsody")).
Proof.
  apply (parseTitle_splits (unitsOf "Queen") (unitsOf "Bohemian Rhapsody") (Some "rock")).
  - discriminate.
  - vm_compute. reflexivity.
  - vm_compute. reflexivity.
  - vm_compute. reflexivity.
  - discriminate.
  - discriminate.
Defined.

Lemma trimStart_idempotent s : trimStart (trimStart s) = trimStart s.
Proof.
  induction s as [| c s IH]; [reflexivity |].
  cbn [trimStart]. destruct (isWhiteSpace c) eqn:Hc; [exact IH |].
  cbn [trimStart]. now rewrite Hc.
Qed.

Lemma trimStart_snoc s c :
  isWhiteSpace c = false -> trimStart (s ++ [c]) = trimStart s ++ [c].
Proof.
  intros Hc. induction s as [| d s IH]; [cbn [app trimStart]; now rewrite Hc |].
  cbn [app trimStart]. destruct (isWhiteSpace d); [exact IH | reflexivity].
Qed.

Lemma trimEnd_keeps_start s : trimStart s = s -> trimStart (trimEnd s) = trimEnd s.
Proof.
  intros Hs. unfold trimEnd. destruct s as [| c s]; [reflexivity |].
  cbn [trimStart] in Hs. destruct (isWhiteSpace c) eqn:Hc.
  - exfalso.
    assert (Hlen : length (trimStart s) <= length s).
    { clear. induction s as [| d s IH]; [simpl; lia |].
      cbn [trimStart]. destruct (isWhiteSpace d); cbn [length]; lia. }
    rewrite Hs in Hlen. cbn [length] in Hlen. lia.
  - cbn [rev]. rewrite trimStart_snoc by exact Hc.
    rewrite rev_app_distr. cbn [rev app trimStart]. now rewrite Hc.
Qed.

Lemma trim_idempotent s : trim (trim s) = trim s.
Proof.
  unfold trim.
  rewrite trimEnd_keeps_start by apply trimStart_idempotent.
  unfold trimEnd. now rewrite rev_involutive, trimStart_idempotent.
Qed.

(** X23: whatever the title and the channel, the fields [parseTitle]
    returns have no white space at either end, and a title is split only
    off the live channel and the bumpers, at a ' - ' that does not open
    the title. *)
Theorem parseTitle_fields_trimmed title_ channel :
  match parseTitle title_ channel with
  | TitleOnly t => trim t = t
  | ArtistSong a s =>
      trim a = a /\ trim s = s /\
      channel <> Some "live" /\ channel <> Some "bumper" /\
      exists i, indexOf title_ SEPARATOR = Some (S i) /\
                a = trim (take (S i) title_) /\ s = trim (drop (S i + 3) title_)
  end.
Proof.
  unfold parseTitle.
  destruct channel as [c |].
  - destruct (String.eqb_spec c "live") as [-> | Hl]; [apply trim_idempotent |].
    destruct (String.eqb_spec c "bumper") as [-> | Hb]; [apply trim_idempotent |].
    cbv [orb].
    destruct (indexOf title_ SEPARATOR) as [[| i] |]; try apply trim_idempotent.
    cbv zeta. split; [apply trim_idempotent |]. split; [apply trim_idempotent |].
    split; [congruence |]. split; [congruence |]. now exists i.
  - destruct (indexOf title_ SEPARATOR) as [[| i] |]; try apply trim_idempotent.
    cbv zeta. split; [apply trim_idempotent |]. split; [apply trim_idempotent |].
    split; [discriminate |]. split; [discriminate |]. now exists i.
Qed.

(** ** One source only *)

Lemma set_rndPos_same w : set_rndPos (rndPos w + 0) w = w.
Proof. destruct w. unfold set_rndPos. simpl. now rewrite Nat.add_0_r. Qed.

Lemma filter_none {A} (P : A -> Prop) `{forall x, Decision (P x)} (l : list A) :
  (forall x, x ∈ l -> ~ P x) -> filter P l = [].
Proof.
  induction l as [| x l IH]; intros Hnone; [reflexivity |].
  rewrite filter_cons_False by (apply Hnone, list_elem_of_here).
  apply IH. intros y Hy. apply Hnone. now apply list_elem_of_further.
Qed.

Lemma concat_all_nil {A} (ls : list (list A)) : Forall (fun l => l = []) ls -> concat ls = [].
Proof. induction 1 as [| l ls -> _ IH]; [reflexivity | exact IH]. Qed.

(** X24: the blend with one source missing.  When every custom list is
    empty the official videos come back as they are, without a random
    draw; when there is no official video the result is a rearrangement of
    the custom videos with the repeated ids removed. *)
Theorem mixVideos_one_source env customPlaylistResults officialVideos w :
  (Forall (fun l => l = []) customPlaylistResults ->
   mixVideos env customPlaylistResults officialVideos w = (Ok officialVideos, w)) /\
  (customPlaylistResults <> [] -> officialVideos = [] ->
   exists out w',
     mixVideos env customPlaylistResults officialVideos w = (Ok out, w') /\
     Permutation out (dedupe (concat customPlaylistResults)) /\
     NoDup (map id out)).
Proof.
  split.
  - intros Hempty. unfold mixVideos.
    destruct (length customPlaylistResults =? 0); [reflexivity |].
    destruct (Nat.eqb_spec (length officialVideos) 0) as [H0 | _].
    + destruct officialVideos; [| discriminate H0].
      rewrite concat_all_nil by exact Hempty.
      unfold dedupe, shuffle. simpl. now rewrite set_rndPos_same.
    + rewrite filter_none; [reflexivity |].
      intros l Hl Hlen. rewrite Forall_forall in Hempty.
      rewrite (Hempty l Hl) in Hlen. simpl in Hlen. lia.
  - intros Hne ->. unfold mixVideos.
    destruct (Nat.eqb_spec (length customPlaylistResults) 0) as [H0 | _].
    { destruct customPlaylistResults; [congruence | discriminate H0]. }
    simpl length. simpl Nat.eqb. cbv iota.
    destruct (shuffle_run env (dedupe (concat customPlaylistResults)) w)
      as (out & w' & Hrun & Hperm & _).
    exists out, w'. split; [exact Hrun |]. split; [exact Hperm |].
    change (map id out) with (id <$> out). rewrite Hperm.
    apply (dedupeFrom_spec _ ∅).
Qed.

(** ** The API path and the store *)

Lemma storeUntouched_ret {A} (a : A) : storeUntouched (ret a).
Proof. intros w r w' [= <- <-]. now repeat split. Qed.

Lemma storeUntouched_throw {A} msg : storeUntouched (@throw A msg).
Proof. intros w r w' [= <- <-]. now repeat split. Qed.

Lemma storeUntouched_diverge {A} : storeUntouched (@diverge A).
Proof. intros w r w' [= <- <-]. now repeat split. Qed.

Lemma storeUntouched_bind {A B} (m : M A) (k : A -> M B) :
  storeUntouched m -> (forall a, storeUntouched (k a)) -> storeUntouched (bind m k).
Proof.
  intros Hm Hk w r w' Hrun. unfold bind in Hrun.
  destruct (m w) as [[a | e |] w1] eqn:Hmw.
  - destruct (Hm _ _ _ Hmw) as (H1 & H2 & H3).
    destruct (Hk a _ _ _ Hrun) as (H4 & H5 & H6). repeat split; congruence.
  - injection Hrun as <- <-. exact (Hm _ _ _ Hmw).
  - injection Hrun as <- <-. exact (Hm _ _ _ Hmw).
Qed.

Lemma storeUntouched_tryCatch {A} (m : M A) (h : string -> M A) :
  storeUntouched m -> (forall e, storeUntouched (h e)) -> storeUntouched (tryCatch m h).
Proof.
  intros Hm Hh w r w' Hrun. unfold tryCatch in Hrun.
  destruct (m w) as [[a | e |] w1] eqn:Hmw.
  - injection Hrun as <- <-. exact (Hm _ _ _ Hmw).
  - destruct (Hm _ _ _ Hmw) as (H1 & H2 & H3).
    destruct (Hh e _ _ _ Hrun) as (H4 & H5 & H6). repeat split; congruence.
  - injection Hrun as <- <-. exact (Hm _ _ _ Hmw).
Qed.

Lemma storeUntouched_promiseAll {A B} (f : A -> M B) (xs : list A) :
  (forall x, storeUntouched (f x)) -> storeUntouched (promiseAll f xs).
Proof.
  intros Hf. induction xs as [| x xs IH]; [apply storeUntouched_ret |].
  intros w r w' Hrun. simpl in Hrun.
  destruct (f x w) as [r1 w1] eqn:Hfx.
  destruct (promiseAll f xs w1) as [rs w2] eqn:Hrest.
  injection Hrun as _ <-.
  destruct (Hf x _ _ _ Hfx) as (H1 & H2 & H3).
  destruct (IH _ _ _ Hrest) as (H4 & H5 & H6). repeat split; congruence.
Qed.

Lemma storeUntouched_mapM {A B} (f : A -> M B) (xs : list A) :
  (forall x, storeUntouched (f x)) -> storeUntouched (mapM f xs).
Proof.
  intros Hf. induction xs as [| x xs IH]; [apply storeUntouched_ret |].
  simpl. apply storeUntouched_bind; [apply Hf |]. intros b.
  apply storeUntouched_bind; [exact IH |]. intros bs. apply storeUntouched_ret.
Qed.

Lemma storeUntouched_gets {A} (f : World -> A) : storeUntouched (gets f).
Proof. intros w r w' [= <- <-]. now repeat split. Qed.

Lemma storeUntouched_randomBelow env n : storeUntouched (randomBelow env n).
Proof. intros w r w' [= <- <-]. now repeat split. Qed.

Lemma storeUntouched_pickRandom {A} env (arr : list A) : storeUntouched (pickRandom env arr).
Proof.
  unfold pickRandom. apply storeUntouched_bind; [apply storeUntouched_randomBelow |].
  intros i. apply storeUntouched_ret.
Qed.

Lemma storeUntouched_sortShuffled {A} env (arr : list A) :
  storeUntouched (sortShuffled env arr).
Proof. intros w r w' [= <- <-]. now repeat split. Qed.

Lemma storeUntouched_shuffle {A} env (arr : list A) : storeUntouched (shuffle env arr).
Proof. intros w r w' [= <- <-]. now repeat split. Qed.

Lemma storeUntouched_cachePut playlistId vs ts : storeUntouched (cachePut playlistId vs ts).
Proof. intros w r w' [= <- <-]. now repeat split. Qed.

Lemma storeUntouched_writeBack playlistId arr : storeUntouched (writeBack playlistId arr).
Proof. intros w r w' [= <- <-]. now repeat split. Qed.

Lemma storeUntouched_fetchWithTimeout env playlistId maxVideos channel actualTimeout :
  storeUntouched (fetchWithTimeout env playlistId maxVideos channel actualTimeout).
Proof.
  unfold fetchWithTimeout. apply storeUntouched_bind.
  - intros w r w' [= <- <-]. now repeat split.
  - intros resp. destruct (elapsed resp <? actualTimeout)%Z; [| apply storeUntouched_throw].
    unfold settle. destruct (payload resp);
      [apply storeUntouched_ret | apply storeUntouched_throw].
Qed.

Lemma storeUntouched_getPlaylistVideos env playlistId maxVideos timeout channel :
  storeUntouched (getPlaylistVideos env playlistId maxVideos timeout channel).
Proof.
  assert (Hfetch : storeUntouched (fetchAndCache env playlistId maxVideos timeout channel)).
  { unfold fetchAndCache. apply storeUntouched_tryCatch.
    - apply storeUntouched_bind; [apply storeUntouched_fetchWithTimeout |]. intros vs.
      apply storeUntouched_bind; [apply storeUntouched_cachePut |]. intros _.
      apply storeUntouched_ret.
    - intros _. apply storeUntouched_bind; [apply storeUntouched_cachePut |]. intros _.
      apply storeUntouched_ret. }
  unfold getPlaylistVideos. apply storeUntouched_bind; [apply storeUntouched_gets |].
  intros [c |]; [| exact Hfetch].
  destruct (now env - timestamp c <? CACHE_DURATION)%Z; [apply storeUntouched_ret | exact Hfetch].
Qed.

Lemma storeUntouched_insertBumpersIntoBlock env vs interval :
  storeUntouched (insertBumpersIntoBlock env vs interval).
Proof.
  unfold insertBumpersIntoBlock. apply storeUntouched_bind; [apply storeUntouched_gets |].
  intros [bumpers |]; [| apply storeUntouched_ret].
  destruct ((length bumpers =? 0) || interval_falsy interval); [apply storeUntouched_ret |].
  apply storeUntouched_bind; [apply storeUntouched_sortShuffled |]. intros shuffled.
  destruct interval; apply storeUntouched_ret.
Qed.

Lemma storeUntouched_fillBlockM env blockSize availableVideos blockVideos :
  storeUntouched (fillBlockM env blockSize availableVideos blockVideos).
Proof.
  unfold fillBlockM. destruct (fillBlock _ _ _ _);
    [apply storeUntouched_ret | apply storeUntouched_diverge].
Qed.

Lemma storeUntouched_createProgrammingBlock env playlistObj channel excludeVideoIds :
  storeUntouched (createProgrammingBlock env playlistObj channel excludeVideoIds).
Proof.
  unfold createProgrammingBlock. cbv zeta.
  apply storeUntouched_bind; [apply storeUntouched_getPlaylistVideos |]. intros allVideos.
  apply storeUntouched_bind.
  { unfold availableVideosOf. destruct (length _ =? 0).
    - apply storeUntouched_bind; [apply storeUntouched_shuffle |]. intros shuffled.
      apply storeUntouched_bind; [apply storeUntouched_writeBack |]. intros _.
      apply storeUntouched_ret.
    - apply storeUntouched_shuffle. }
  intros availableVideos. destruct (blockShape channel) as [blockSize bumperInterval].
  apply storeUntouched_bind.
  { unfold blockVideosOf. destruct (length _ <? blockSize);
      [apply storeUntouched_fillBlockM | apply storeUntouched_ret]. }
  intros blockVideos.
  apply storeUntouched_bind; [apply storeUntouched_insertBumpersIntoBlock |]. intros items.
  apply storeUntouched_ret.
Qed.

Lemma storeUntouched_selectRandomPlaylist env channel customPlaylistIds excludePlaylistIds
    preferCustom :
  storeUntouched (selectRandomPlaylist env channel customPlaylistIds excludePlaylistIds
                                       preferCustom).
Proof.
  unfold selectRandomPlaylist. cbv zeta.
  repeat match goal with
         | |- storeUntouched (if ?c then _ else _) => destruct c
         end;
    (apply storeUntouched_throw || apply storeUntouched_pickRandom).
Qed.

Lemma storeUntouched_startGetPlaylistVideos env playlistId maxVideos timeout channel :
  storeUntouched (startGetPlaylistVideos env playlistId maxVideos timeout channel).
Proof.
  intros w r w' Hrun.
  unfold startGetPlaylistVideos, startFetch, bind, gets, upstream, ret in Hrun.
  destruct (playlistCache w !! playlistId) as [c |];
    [destruct (now env - timestamp c <? CACHE_DURATION)%Z |];
    repeat match type of Hrun with
           | context [if ?c then _ else _] => destruct c
           | context [match payload ?r with _ => _ end] => destruct (payload r)
           end;
    injection Hrun as _ <-; now repeat split.
Qed.

Lemma storeUntouched_settleStarted env st : storeUntouched (settleStarted env st).
Proof.
  intros w r w' Hrun. destruct st; injection Hrun as _ <-; now repeat split.
Qed.

Lemma storeUntouched_getRandomChannelBlock env customPlaylistIds excludeVideoIds :
  storeUntouched (getRandomChannelBlock env customPlaylistIds excludeVideoIds).
Proof.
  unfold getRandomChannelBlock. cbv zeta.
  apply storeUntouched_bind; [apply storeUntouched_shuffle |]. intros allPlaylists.
  apply storeUntouched_bind.
  { apply storeUntouched_mapM. intros p. apply storeUntouched_startGetPlaylistVideos. }
  intros sampledStarted. apply storeUntouched_bind.
  { apply storeUntouched_mapM. intros pid. apply storeUntouched_startGetPlaylistVideos. }
  intros customStarted.
  apply storeUntouched_bind.
  { unfold settleAll. apply storeUntouched_bind.
    - apply storeUntouched_mapM. intros st. apply storeUntouched_settleStarted.
    - intros _. apply storeUntouched_ret. }
  intros _.
  apply storeUntouched_bind; [apply storeUntouched_shuffle |]. intros availableVideos.
  apply storeUntouched_bind; [apply storeUntouched_insertBumpersIntoBlock |]. intros items.
  apply storeUntouched_ret.
Qed.

Lemma storeUntouched_getSpecialChannelBlock env :
  USE_DATABASE env = false -> storeUntouched (getSpecialChannelBlock env).
Proof.
  intros Hoff. unfold getSpecialChannelBlock. cbv zeta. rewrite Hoff.
  destruct (negb _ || _); [apply storeUntouched_throw |].
  apply storeUntouched_bind; [apply storeUntouched_pickRandom |].
  intros [playlist |]; [| apply storeUntouched_throw].
  apply storeUntouched_bind; [apply storeUntouched_getPlaylistVideos |]. intros allVideos0.
  destruct (length allVideos0 =? 0); [apply storeUntouched_throw |].
  apply storeUntouched_bind; [apply storeUntouched_shuffle |]. intros allVideos.
  apply storeUntouched_bind; [apply storeUntouched_writeBack |]. intros _.
  apply storeUntouched_bind.
  { destruct (_ && _); [apply storeUntouched_fillBlockM | apply storeUntouched_ret]. }
  intros blockVideos.
  apply storeUntouched_bind; [apply storeUntouched_insertBumpersIntoBlock |]. intros items.
  apply storeUntouched_ret.
Qed.

Lemma storeUntouched_getChannelBlock env channel customPlaylistIds excludePlaylistIds
    excludeVideoIds preferCustom :
  USE_DATABASE env = false \/ channel <> "special" ->
  storeUntouched (getChannelBlock env channel customPlaylistIds excludePlaylistIds
                                  excludeVideoIds preferCustom).
Proof.
  intros Hcase. unfold getChannelBlock.
  destruct (String.eqb channel "random"); [apply storeUntouched_getRandomChannelBlock |].
  destruct (String.eqb_spec channel "special") as [-> | _].
  { destruct Hcase as [Hoff | Hne]; [| congruence].
    now apply storeUntouched_getSpecialChannelBlock. }
  apply storeUntouched_bind; [apply storeUntouched_selectRandomPlaylist |].
  intros [selectedPlaylist |]; [| apply storeUntouched_throw].
  apply storeUntouched_createProgrammingBlock.
Qed.

(** X25: with the store switched off, a block request never touches it:
    however the request ends, no store query was issued and the tables and
    the cache of the db-service are as they were.  The same holds for the
    API path of every channel but the special one when the store is on. *)
Theorem api_path_leaves_store_alone env channel customPlaylistIds excludePlaylistIds
    excludeVideoIds preferCustom w r w' :
  USE_DATABASE env = false ->
  getChannelBlockWithFallback env channel customPlaylistIds excludePlaylistIds
                              excludeVideoIds preferCustom w = (r, w') ->
  (database w' = database w /\ dbQueries w' = dbQueries w /\
   dbBumpersCache w' = dbBumpersCache w) /\
  (forall env' channel' w0 r0 w0',
     channel' <> "special" ->
     getChannelBlock env' channel' customPlaylistIds excludePlaylistIds excludeVideoIds
                     preferCustom w0 = (r0, w0') ->
     database w0' = database w0 /\ dbQueries w0' = dbQueries w0 /\
     dbBumpersCache w0' = dbBumpersCache w0).
Proof.
  intros Hoff Hrun. split.
  - unfold getChannelBlockWithFallback in Hrun. rewrite Hoff in Hrun.
    eapply storeUntouched_getChannelBlock; [left; exact Hoff | exact Hrun].
  - intros env' channel' w0 r0 w0' Hne Hrun0.
    eapply storeUntouched_getChannelBlock; [right; exact Hne | exact Hrun0].
Qed.

Lemma api_path_leaves_store_alone_witness :
  exists block w',
    getChannelBlockWithFallback apiEnv "rock" [] [] [] false (worldOfDb rockDb)
      = (Ok block, w') /\
    (database w' = database (worldOfDb rockDb) /\
     dbQueries w' = dbQueries (worldOfDb rockDb) /\
     dbBumpersCache w' = dbBumpersCache (worldOfDb rockDb)) /\
    (forall env' channel' w0 r0 w0',
       channel' <> "special" ->
       getChannelBlock env' channel' [] [] [] false w0 = (r0, w0') ->
       database w0' = database w0 /\ dbQueries w0' = dbQueries w0 /\
       dbBumpersCache w0' = dbBumpersCache w0).
Proof.
  eexists _, _. split; [vm_compute; reflexivity |].
  eapply (api_path_leaves_store_alone apiEnv "rock" [] [] [] false (worldOfDb rockDb)).
  - reflexivity.
  - vm_compute. reflexivity.
Defined.

(** ** Unknown channels *)

(** X26: a channel without playlists is an error, store or not.  When the
    channel (not the random or the special one) has no official playlist,
    the store knows none for it and no valid custom id is passed, the
    request rejects: with 'No playlists available for channel: ' and the
    channel, or, when the channel is named like an inherited property
    ('constructor', 'toString', ...), with the TypeError of the spread in
    [selectRandomPlaylist].  The route handlers answer 404 with the
    message. *)
Theorem unknown_channel_is_rejected env channel customPlaylistIds excludePlaylistIds
    excludeVideoIds preferCustom w :
  channel <> "random" ->
  channel <> "special" ->
  officialOf env channel = [] ->
  selectPlaylistsForChannel channel (database w) = [] ->
  Forall (fun i => isValidPlaylistId i = false) customPlaylistIds ->
  fst (getChannelBlockWithFallback env channel customPlaylistIds excludePlaylistIds
                                   excludeVideoIds preferCustom w)
  = Throw (if inheritedLookup env channel
           then "TypeError: officialPlaylists is not iterable"
           else "No playlists available for channel: " ++ channel)%string.
Proof.
  intros Hr Hs Hoff Hstore Hcustom.
  apply String.eqb_neq in Hr, Hs.
  assert (Hnone : filter (fun i => isValidPlaylistId i = true) customPlaylistIds = []).
  { apply filter_none. intros i Hi Hvalid.
    rewrite Forall_forall in Hcustom. rewrite (Hcustom i Hi) in Hvalid. discriminate. }
  assert (Hapi : forall w0,
    getChannelBlock env channel customPlaylistIds excludePlaylistIds excludeVideoIds
                    preferCustom w0
    = (Throw (if inheritedLookup env channel
              then "TypeError: officialPlaylists is not iterable"
              else "No playlists available for channel: " ++ channel)%string, w0)).
  { intros w0. unfold getChannelBlock. rewrite Hr, Hs.
    unfold selectRandomPlaylist, customPlaylistsOf.
    destruct (inheritedLookup env channel); [reflexivity |].
    cbv zeta. rewrite Hoff, Hnone. reflexivity. }
  unfold getChannelBlockWithFallback.
  destruct (USE_DATABASE env); [| now rewrite Hapi].
  unfold tryCatch, storeChannelBlock. rewrite Hs, Hr.
  unfold getAllPlaylistsForChannel, customDbPlaylistsOf.
  unfold bind at 1. unfold bind at 1. unfold dbQuery.
  destruct (dbFault env (dbQueries w)); [now rewrite Hapi |].
  rewrite Hstore, Hnone. simpl. now rewrite Hapi.
Qed.

Lemma unknown_channel_is_rejected_witness :
  fst (getChannelBlockWithFallback storeUpEnv "jazz" ["short"] [] [] false (worldOfDb rockDb))
  = Throw (if inheritedLookup storeUpEnv "jazz"
           then "TypeError: officialPlaylists is not iterable"
           else "No playlists available for channel: " ++ "jazz")%string.
Proof.
  apply (unknown_channel_is_rejected storeUpEnv "jazz" ["short"] [] [] false
           (worldOfDb rockDb)).
  - discriminate.
  - discriminate.
  - reflexivity.
  - vm_compute. reflexivity.
  - repeat constructor.
Defined.

(** The two messages: an unknown channel, and the channel 'constructor'. *)
Example unknown_channel_jazz :
  fst (getChannelBlockWithFallback storeUpEnv "jazz" ["short"] [] [] false (worldOfDb rockDb))
  = Throw "No playlists available for channel: jazz".
Proof. vm_compute. reflexivity. Qed.

Example unknown_channel_constructor :
  fst (getChannelBlockWithFallback storeUpEnv "constructor" ["short"] [] [] false
         (worldOfDb rockDb))
  = Throw "TypeError: officialPlaylists is not iterable".
Proof. vm_compute. reflexivity. Qed.

(** ** Blocks of a store playlist *)

Lemma flat_map_all_nil {A B} (f : B -> list A) (l : list B) :
  (forall b, b ∈ l -> f b = []) -> flat_map f l = [].
Proof.
  induction l as [| b l IH]; intros Hf; [reflexivity |].
  simpl. rewrite Hf by apply list_elem_of_here. simpl.
  apply IH. intros c Hc. apply Hf. now apply list_elem_of_further.
Qed.

(** A join that finds at most one partner gives a row at most once. *)
Lemma flat_map_at_most_once {A B} (f : B -> list A) (l : list B) (v : A) :
  NoDup l ->
  (forall b, f b = [] \/ f b = [v]) ->
  (forall a b, a ∈ l -> b ∈ l -> f a = [v] -> f b = [v] -> a = b) ->
  flat_map f l = [] \/ flat_map f l = [v].
Proof.
  intros Hnd Hf Huniq. induction l as [| b l IH]; [now left |].
  apply NoDup_cons in Hnd as [Hb Hnd]. simpl.
  destruct (Hf b) as [Hnil | Hone].
  - rewrite Hnil. simpl. apply IH; [exact Hnd |].
    intros a c Ha Hc. apply Huniq; now apply list_elem_of_further.
  - rewrite Hone. right. rewrite flat_map_all_nil; [reflexivity |].
    intros c Hc. destruct (Hf c) as [Hnil | Hone']; [exact Hnil |].
    exfalso. apply Hb.
    rewrite (Huniq b c (list_elem_of_here _ _) (list_elem_of_further _ _ _ Hc) Hone Hone').
    exact Hc.
Qed.

Lemma NoDup_map_inj {A B} (f : A -> B) (l : list A) a b :
  NoDup (map f l) -> a ∈ l -> b ∈ l -> f a = f b -> a = b.
Proof.
  induction l as [| x l IH]; intros Hnd Ha Hb Hfab; [inversion Ha |].
  simpl in Hnd. apply NoDup_cons in Hnd as [Hx Hnd].
  apply elem_of_cons in Ha as [-> | Ha]; apply elem_of_cons in Hb as [-> | Hb].
  - reflexivity.
  - exfalso. apply Hx. rewrite Hfab.
    change (map f l) with (f <$> l). apply list_elem_of_fmap. now exists b.
  - exfalso. apply Hx. rewrite <- Hfab.
    change (map f l) with (f <$> l). apply list_elem_of_fmap. now exists a.
  - now apply IH.
Qed.

Lemma selectVideos_NoDup playlistId excludeVideoIds db :
  NoDup (map youtube_video_id (tbl_videos db)) ->
  NoDup (tbl_playlist_videos db) ->
  NoDup (map prow_id (tbl_playlists db)) ->
  NoDup (map youtube_video_id (selectVideos playlistId excludeVideoIds db)).
Proof.
  intros Hvideos Hlinks Hplaylists. unfold selectVideos.
  set (cond := fun (v : VideoRow) (pv : Z * Z) (p : PlaylistRow) =>
    (row_id v =? snd pv)%Z && (fst pv =? prow_id p)%Z && (prow_id p =? playlistId)%Z
    && negb (is_flagged v)
    && (if length excludeVideoIds =? 0 then true
        else negb (existsb (String.eqb (youtube_video_id v)) excludeVideoIds))).
  assert (Hcond : forall v pv p, cond v pv p = true ->
                    pv = (playlistId, row_id v) /\ prow_id p = playlistId).
  { intros v [a b] p Hc. unfold cond in Hc.
    apply andb_true_iff in Hc as [Hc _]. apply andb_true_iff in Hc as [Hc _].
    apply andb_true_iff in Hc as [Hc Hp]. apply andb_true_iff in Hc as [Hv1 Hv2].
    apply Z.eqb_eq in Hv1, Hv2, Hp. simpl in *. split; [f_equal; lia | exact Hp]. }
  assert (Hinner : forall v pv,
    flat_map (fun p => if cond v pv p then [v] else []) (tbl_playlists db) = [] \/
    flat_map (fun p => if cond v pv p then [v] else []) (tbl_playlists db) = [v]).
  { intros v pv. apply flat_map_at_most_once.
    - change (map prow_id ?l) with (prow_id <$> l) in Hplaylists.
      now apply NoDup_fmap_1 in Hplaylists.
    - intros p. destruct (cond v pv p); [now right | now left].
    - intros p q Hp Hq Hcp Hcq.
      destruct (cond v pv p) eqn:Hp1; [| discriminate Hcp].
      destruct (cond v pv q) eqn:Hq1; [| discriminate Hcq].
      apply Hcond in Hp1 as [_ Hp1]. apply Hcond in Hq1 as [_ Hq1].
      apply (NoDup_map_inj prow_id (tbl_playlists db)); congruence. }
  assert (Hrow : forall v,
    flat_map (fun pv : Z * Z =>
                flat_map (fun p => if cond v pv p then [v] else []) (tbl_playlists db))
             (tbl_playlist_videos db) = [] \/
    flat_map (fun pv : Z * Z =>
                flat_map (fun p => if cond v pv p then [v] else []) (tbl_playlists db))
             (tbl_playlist_videos db) = [v]).
  { intros v. apply flat_map_at_most_once; [exact Hlinks | intros pv; apply Hinner |].
    assert (Hlink : forall pv,
      flat_map (fun p => if cond v pv p then [v] else []) (tbl_playlists db) = [v] ->
      pv = (playlistId, row_id v)).
    { intros pv Hone.
      assert (Hin : In v (flat_map (fun p => if cond v pv p then [v] else [])
                                   (tbl_playlists db))).
      { rewrite Hone. now left. }
      apply in_flat_map in Hin as (p & _ & Hin).
      destruct (cond v pv p) eqn:Hc; [| destruct Hin].
      now apply Hcond in Hc as [Hc _]. }
    intros pv qv _ _ Hp Hq. rewrite (Hlink pv Hp), (Hlink qv Hq). reflexivity. }
  change (NoDup (map youtube_video_id
            (flat_map (fun v =>
               flat_map (fun pv : Z * Z =>
                 flat_map (fun p => if cond v pv p then [v] else []) (tbl_playlists db))
               (tbl_playlist_videos db))
             (tbl_videos db)))).
  induction (tbl_videos db) as [| v vs IH]; [constructor |].
  simpl in Hvideos. apply NoDup_cons in Hvideos as [Hv Hvs].
  cbn [flat_map]. rewrite map_app. apply NoDup_app. split; [| split].
  - destruct (Hrow v) as [-> | ->]; [constructor | apply NoDup_singleton].
  - intros x Hx Hx'. apply Hv.
    assert (Hxv : x = youtube_video_id v).
    { destruct (Hrow v) as [Hnil | Hone].
      - rewrite Hnil in Hx. inversion Hx.
      - rewrite Hone in Hx. simpl in Hx. now apply list_elem_of_singleton in Hx. }
    subst x. change (map ?f ?l) with (f <$> l) in Hx'.
    apply list_elem_of_fmap in Hx' as (r & Hid & Hr).
    apply list_elem_of_In, in_flat_map in Hr as (u & Hu & Hr).
    assert (Hru : r = u).
    { destruct (Hrow u) as [Hnil | Hone].
      - rewrite Hnil in Hr. destruct Hr.
      - rewrite Hone in Hr. destruct Hr as [<- | []]. reflexivity. }
    subst r. rewrite Hid. change (map ?f ?l) with (f <$> l).
    apply list_elem_of_fmap. exists u. split; [reflexivity | now apply list_elem_of_In].
  - now apply IH.
Qed.

(** X27: a block of a store playlist never repeats a video.  With the keys
    of the schema in force (video ids, links and playlist ids without
    repetition) the items of a store playlist are at most [blockSize]
    regular entries with different ids, none of them excluded, under the
    name of the playlist; the store path has no fill loop, so a playlist
    with few videos left gives a short block. *)
Theorem store_playlist_block_never_repeats env channel blockSize excludeVideoIds playlistId
    name w items label w' :
  EnvOk env ->
  0 < blockSize ->
  NoDup (map youtube_video_id (tbl_videos (database w))) ->
  NoDup (tbl_playlist_videos (database w)) ->
  NoDup (map prow_id (tbl_playlists (database w))) ->
  storePlaylistItems env channel blockSize excludeVideoIds (StorePlaylist playlistId name) w
    = (Ok (items, label), w') ->
  label = Some name /\
  length items <= blockSize /\
  NoDup (map id items) /\
  Forall (fun v => regular v /\ (id v ∉ excludeVideoIds)) items.
Proof.
  intros Henv Hsize Hvideos Hlinks Hplaylists Hrun.
  unfold storePlaylistItems in Hrun.
  apply bind_Ok_inv in Hrun as (rows & w1 & Hrows & Hret).
  injection Hret as <- <- <-.
  unfold getVideosByPlaylistId, dbQuery in Hrows.
  destruct (dbFault env (dbQueries w)); [discriminate Hrows |].
  injection Hrows as <- _.
  destruct Henv as [_ Hsql].
  split; [reflexivity |]. split; [| split].
  - rewrite length_map. destruct blockSize as [| n]; [lia |]. apply sqlLimit_length.
  - rewrite map_map. simpl.
    pose proof (selectVideos_NoDup playlistId excludeVideoIds (database w)
                  Hvideos Hlinks Hplaylists) as Hnd.
    eapply sublist_NoDup.
    + change (map ?f ?l) with (f <$> l) in Hnd. rewrite <- (Hsql (dbQueries w)) in Hnd.
      exact Hnd.
    + change (map ?f ?l) with (f <$> l). apply fmap_sublist.
      unfold sqlLimit. destruct blockSize; [lia |]. apply sublist_take.
  - apply Forall_forall. intros v Hv. change (map ?f ?l) with (f <$> l) in Hv.
    apply list_elem_of_fmap in Hv as (r & -> & Hr).
    apply (sqlLimit_subset (Some blockSize)) in Hr. rewrite (Hsql (dbQueries w)) in Hr.
    apply selectVideos_elem in Hr as (_ & _ & Hex & _).
    split; [reflexivity | exact Hex].
Qed.

Lemma store_playlist_block_never_repeats_witness :
  exists items label w',
    storePlaylistItems storeUpEnv "rock" 12 [] (StorePlaylist 1 "Classic Rock")
                       (worldOfDb rockDb) = (Ok (items, label), w') /\
    label = Some "Classic Rock" /\
    length items <= 12 /\
    NoDup (map id items) /\
    Forall (fun v => regular v /\ (id v ∉ [])) items.
Proof.
  eexists _, _, _. split; [vm_compute; reflexivity |].
  eapply (store_playlist_block_never_repeats storeUpEnv "rock" 12 [] 1%Z "Classic Rock"
            (worldOfDb rockDb)).
  - exact storeUpEnv_ok.
  - lia.
  - by_compute.
  - by_compute.
  - by_compute.
  - vm_compute. reflexivity.
Defined.

(** ** Cleaning titles *)

Lemma spanInside_length s :
  length (fst (spanInside s)) + length (snd (spanInside s)) = length s.
Proof.
  induction s as [| cu s IH]; [reflexivity |].
  cbn [spanInside]. destruct (isCloseBracket cu); [reflexivity |].
  destruct (spanInside s) as [run rest]. simpl in *. lia.
Qed.

Lemma spanInside_run run close rest :
  Forall (fun cu => isCloseBracket cu = false) run ->
  isCloseBracket close = true ->
  spanInside (run ++ close :: rest) = (run, close :: rest).
Proof.
  intros Hrun Hclose. induction Hrun as [| cu run Hcu _ IH].
  - cbn [app spanInside]. now rewrite Hclose.
  - cbn [app spanInside]. now rewrite Hcu, IH.
Qed.

Lemma removeTagged_nil steps words : removeTagged steps words [] = [].
Proof. now destruct steps. Qed.

Lemma removeLiteral_nil steps literal : removeLiteral steps literal [] = [].
Proof. now destruct steps. Qed.

(** More steps than code units change nothing. *)
Lemma removeTagged_steps words steps1 :
  forall steps2 s,
    length s <= steps1 -> length s <= steps2 ->
    removeTagged steps1 words s = removeTagged steps2 words s.
Proof.
  induction steps1 as [| steps1 IH]; intros steps2 s H1 H2.
  - destruct s; [now rewrite !removeTagged_nil | simpl in H1; lia].
  - destruct steps2 as [| steps2].
    { destruct s; [reflexivity | simpl in H2; lia]. }
    destruct s as [| cu s]; [reflexivity |].
    simpl in H1, H2. cbn [removeTagged].
    pose proof (spanInside_length s) as Hlen.
    destruct (isOpenBracket cu); [| f_equal; apply IH; lia].
    destruct (spanInside s) as [run [| close rest]]; [f_equal; apply IH; lia |].
    simpl in Hlen.
    destruct (occursIn words run); [apply IH; lia | f_equal; apply IH; lia].
Qed.

Lemma matchWord_length word :
  forall s rest, matchWord word s = Some rest -> length s = length word + length rest.
Proof.
  induction word as [| p word IH]; intros s rest Hm.
  - injection Hm as ->. reflexivity.
  - destruct s as [| cu s]; [discriminate Hm |]. cbn [matchWord] in Hm.
    destruct (sameIgnoringCase p cu); [| discriminate Hm].
    apply IH in Hm. simpl. lia.
Qed.

Lemma removeLiteral_steps literal steps1 :
  literal <> [] ->
  forall steps2 s,
    length s <= steps1 -> length s <= steps2 ->
    removeLiteral steps1 literal s = removeLiteral steps2 literal s.
Proof.
  intros Hliteral. induction steps1 as [| steps1 IH]; intros steps2 s H1 H2.
  - destruct s; [now rewrite !removeLiteral_nil | simpl in H1; lia].
  - destruct steps2 as [| steps2].
    { destruct s; [reflexivity | simpl in H2; lia]. }
    destruct s as [| cu s]; [reflexivity |].
    simpl in H1, H2. cbn [removeLiteral].
    destruct (matchWord literal (cu :: s)) as [rest |] eqn:Hm; [| f_equal; apply IH; lia].
    apply matchWord_length in Hm. simpl in Hm.
    destruct literal as [| p literal]; [congruence |].
    simpl in Hm. apply IH; lia.
Qed.

(** A stretch without an opening bracket is passed over. *)
Lemma removeTagged_prefix words pre :
  noOpenBracket pre ->
  forall steps s,
    length (pre ++ s) <= steps ->
    removeTagged steps words (pre ++ s) = pre ++ removeTagged (length s) words s.
Proof.
  intros Hpre. induction Hpre as [| cu pre Hcu _ IH]; intros steps s Hsteps.
  - simpl app in *. now apply removeTagged_steps.
  - destruct steps as [| steps]; [simpl in Hsteps; lia |].
    cbn [app removeTagged]. rewrite Hcu. f_equal. apply IH. simpl in Hsteps. lia.
Qed.

Lemma removeTagged_unchanged words s steps :
  noOpenBracket s -> removeTagged steps words s = s.
Proof.
  intros Hs. revert steps. induction Hs as [| cu s Hcu _ IH]; intros steps.
  - apply removeTagged_nil.
  - destruct steps as [| steps]; [reflexivity |].
    cbn [removeTagged]. rewrite Hcu. f_equal. apply IH.
Qed.

Lemma matchWord_hd_open cu s :
  isOpenBracket cu = false -> matchWord (unitsOf "[hd]") (cu :: s) = None.
Proof.
  intros Hcu. change (unitsOf "[hd]") with [91; 104; 100; 93]%N.
  cbn [matchWord]. unfold sameIgnoringCase.
  destruct (N.eqb_spec (canonicalize 91) (canonicalize cu)) as [Heq | _]; [| reflexivity].
  exfalso. unfold canonicalize in Heq. change ((97 <=? 91)%N && (91 <=? 122)%N) with false in Heq.
  cbv iota in Heq. unfold isOpenBracket in Hcu.
  destruct ((97 <=? cu)%N && (cu <=? 122)%N) eqn:Hrange.
  - apply andb_true_iff in Hrange as [Hlo Hhi]. apply N.leb_le in Hlo, Hhi. lia.
  - subst cu. discriminate Hcu.
Qed.

Lemma removeLiteral_hd_prefix pre :
  noOpenBracket pre ->
  forall steps s,
    length (pre ++ s) <= steps ->
    removeLiteral steps (unitsOf "[hd]") (pre ++ s)
    = pre ++ removeLiteral (length s) (unitsOf "[hd]") s.
Proof.
  intros Hpre. induction Hpre as [| cu pre Hcu _ IH]; intros steps s Hsteps.
  - simpl app in *. now apply removeLiteral_steps.
  - destruct steps as [| steps]; [simpl in Hsteps; lia |].
    cbn [app removeLiteral]. rewrite matchWord_hd_open by exact Hcu.
    f_equal. apply IH. simpl in Hsteps. lia.
Qed.

Lemma removeLiteral_hd_unchanged s steps :
  noOpenBracket s -> removeLiteral steps (unitsOf "[hd]") s = s.
Proof.
  intros Hs. revert steps. induction Hs as [| cu s Hcu _ IH]; intros steps.
  - apply removeLiteral_nil.
  - destruct steps as [| steps]; [reflexivity |].
    cbn [removeLiteral]. rewrite matchWord_hd_open by exact Hcu. f_equal. apply IH.
Qed.

Lemma removeLiteral_match steps literal cu s rest :
  matchWord literal (cu :: s) = Some rest ->
  removeLiteral (S steps) literal (cu :: s) = removeLiteral steps literal rest.
Proof. intros Hm. cbn [removeLiteral]. now rewrite Hm. Qed.

Lemma noOpenBracket_app s t : noOpenBracket s -> noOpenBracket t -> noOpenBracket (s ++ t).
Proof. unfold noOpenBracket. intros Hs Ht. apply Forall_app. now split. Qed.

(** A tag in brackets whose words match is cut out. *)
Lemma removeTagged_tag words pre open inside close post :
  noOpenBracket pre ->
  isOpenBracket open = true ->
  Forall (fun cu => isCloseBracket cu = false) inside ->
  isCloseBracket close = true ->
  occursIn words inside = true ->
  noOpenBracket post ->
  forall steps,
    length (pre ++ open :: inside ++ close :: post) <= steps ->
    removeTagged steps words (pre ++ open :: inside ++ close :: post) = pre ++ post.
Proof.
  intros Hpre Hopen Hinside Hclose Hocc Hpost steps Hsteps.
  rewrite removeTagged_prefix by assumption. f_equal.
  cbn [length removeTagged]. rewrite Hopen, spanInside_run by assumption.
  rewrite Hocc. now apply removeTagged_unchanged.
Qed.

(** A tag in brackets whose words do not match stays. *)
Lemma removeTagged_other words pre open inside close post :
  noOpenBracket pre ->
  noOpenBracket inside ->
  Forall (fun cu => isCloseBracket cu = false) inside ->
  isCloseBracket close = true ->
  isOpenBracket close = false ->
  occursIn words inside = false ->
  noOpenBracket post ->
  forall steps,
    length (pre ++ open :: inside ++ close :: post) <= steps ->
    removeTagged steps words (pre ++ open :: inside ++ close :: post)
    = pre ++ open :: inside ++ close :: post.
Proof.
  intros Hpre Hin Hinside Hclose Hclose' Hocc Hpost steps Hsteps.
  rewrite removeTagged_prefix by assumption. f_equal.
  cbn [length removeTagged].
  destruct (isOpenBracket open).
  - rewrite spanInside_run by assumption. rewrite Hocc. f_equal.
    apply removeTagged_unchanged. apply noOpenBracket_app; [exact Hin |].
    constructor; assumption.
  - f_equal. apply removeTagged_unchanged. apply noOpenBracket_app; [exact Hin |].
    constructor; assumption.
Qed.

Lemma close_is_not_open cu : isCloseBracket cu = true -> isOpenBracket cu = false.
Proof.
  unfold isCloseBracket, isOpenBracket. intros H.
  apply orb_true_iff in H as [H | H]; [apply orb_true_iff in H as [H | H] |];
    apply N.eqb_eq in H; subst cu; reflexivity.
Qed.

Lemma cleanTitle_plain s : noOpenBracket s -> cleanTitle s = trim s.
Proof.
  intros Hs. unfold cleanTitle. cbv zeta.
  rewrite (removeTagged_unchanged _ s) by exact Hs.
  rewrite (removeTagged_unchanged _ s) by exact Hs.
  now rewrite removeLiteral_hd_unchanged.
Qed.

Lemma noBracket_open s : noBracket s -> noOpenBracket s.
Proof. intros Hs. eapply Forall_impl; [exact Hs |]. now intros cu [H _]. Qed.

Lemma noBracket_close s : noBracket s -> Forall (fun cu => isCloseBracket cu = false) s.
Proof. intros Hs. eapply Forall_impl; [exact Hs |]. now intros cu [_ H]. Qed.

Lemma cleanTitle_tag pre open inside close post :
  noOpenBracket pre ->
  noOpenBracket post ->
  isOpenBracket open = true ->
  isCloseBracket close = true ->
  noBracket inside ->
  occursIn [unitsOf "official"; unitsOf "music"; unitsOf "video"] inside = true \/
  occursIn [unitsOf "official"; unitsOf "video"] inside = true ->
  cleanTitle (pre ++ open :: inside ++ close :: post) = trim (pre ++ post).
Proof.
  intros Hpre Hpost Hopen Hclose Hinside Hwords.
  assert (Hplain : noOpenBracket (pre ++ post)) by now apply noOpenBracket_app.
  pose proof (noBracket_open _ Hinside) as Hin_open.
  pose proof (noBracket_close _ Hinside) as Hin_close.
  unfold cleanTitle. cbv zeta.
  destruct (occursIn [unitsOf "official"; unitsOf "music"; unitsOf "video"] inside)
    eqn:Hmusic.
  - rewrite (removeTagged_tag _ pre open inside close post) by (assumption || lia).
    rewrite (removeTagged_unchanged _ (pre ++ post)) by exact Hplain.
    now rewrite removeLiteral_hd_unchanged.
  - destruct Hwords as [Hw | Hw]; [discriminate Hw |].
    rewrite (removeTagged_other _ pre open inside close post)
      by (assumption || lia || now apply close_is_not_open).
    rewrite (removeTagged_tag _ pre open inside close post) by (assumption || lia).
    now rewrite removeLiteral_hd_unchanged.
Qed.

(** X28: what [cleanTitle] cuts out.  A title without an opening bracket is
    only trimmed.  A bracketed tag, from an opening bracket to the next
    closing one, is cut out when the words 'official music video' or
    'official video' (in any case, separated by white space) occur inside
    it, and so is '[HD]'; the rest of the title, free of opening brackets
    here, is kept and trimmed. *)
Theorem cleanTitle_cuts_tags pre open inside close post :
  noOpenBracket pre ->
  noOpenBracket post ->
  isOpenBracket open = true ->
  isCloseBracket close = true ->
  noBracket inside ->
  occursIn [unitsOf "official"; unitsOf "music"; unitsOf "video"] inside = true \/
  occursIn [unitsOf "official"; unitsOf "video"] inside = true ->
  cleanTitle (pre ++ post) = trim (pre ++ post) /\
  cleanTitle (pre ++ open :: inside ++ close :: post) = trim (pre ++ post) /\
  cleanTitle (pre ++ unitsOf "[HD]" ++ post) = trim (pre ++ post).
Proof.
  intros Hpre Hpost Hopen Hclose Hinside Hwords.
  split; [apply cleanTitle_plain; now apply noOpenBracket_app |].
  split; [now apply cleanTitle_tag |].
  unfold cleanTitle. cbv zeta.
  change (unitsOf "[HD]") with ([91] ++ [72; 68] ++ [93])%N.
  replace (pre ++ ([91] ++ [72; 68] ++ [93])%N ++ post)
    with (pre ++ 91%N :: [72; 68]%N ++ 93%N :: post) by reflexivity.
  assert (Hhd : noOpenBracket [72; 68]%N) by (repeat constructor).
  assert (Hhd' : Forall (fun cu => isCloseBracket cu = false) [72; 68]%N)
    by (repeat constructor).
  rewrite !(removeTagged_other _ pre 91%N [72; 68]%N 93%N post)
    by (assumption || lia || reflexivity).
  rewrite removeLiteral_hd_prefix by (assumption || lia). cbn [app length].
  rewrite (removeLiteral_match _ _ _ _ post) by reflexivity.
  rewrite removeLiteral_hd_unchanged by exact Hpost. reflexivity.
Qed.

Lemma cleanTitle_cuts_tags_witness :
  cleanTitle (unitsOf "Nirvana - Lithium " ++ unitsOf " live")
  = trim (unitsOf "Nirvana - Lithium " ++ unitsOf " live") /\
  cleanTitle (unitsOf "Nirvana - Lithium " ++ 40%N :: unitsOf "OFFICIAL  Music video, 4K"
                ++ 93%N :: unitsOf " live")
  = trim (unitsOf "Nirvana - Lithium " ++ unitsOf " live") /\
  cleanTitle (unitsOf "Nirvana - Lithium " ++ unitsOf "[HD]" ++ unitsOf " live")
  = trim (unitsOf "Nirvana - Lithium " ++ unitsOf " live").
Proof.
  apply (cleanTitle_cuts_tags (unitsOf "Nirvana - Lithium ") 40%N
           (unitsOf "OFFICIAL  Music video, 4K") 93%N (unitsOf " live")).
  - repeat constructor.
  - repeat constructor.
  - reflexivity.
  - reflexivity.
  - repeat constructor.
  - left. vm_compute. reflexivity.
Defined.

(** ** From the upstream title to artist and song *)

Lemma trimStart_length s : length (trimStart s) <= length s.
Proof.
  induction s as [| d s IH]; [simpl; lia |].
  cbn [trimStart]. destruct (isWhiteSpace d); cbn [length]; lia.
Qed.

Lemma trimEnd_length s : length (trimEnd s) <= length s.
Proof.
  unfold trimEnd. rewrite length_rev. pose proof (trimStart_length (rev s)) as H.
  now rewrite length_rev in H.
Qed.

Lemma trimStart_suffix s : exists pre, s = pre ++ trimStart s.
Proof.
  induction s as [| c s [pre IH]]; [now exists [] |].
  cbn [trimStart]. destruct (isWhiteSpace c); [| now exists []].
  exists (c :: pre). simpl. now f_equal.
Qed.

(** A trimmed title begins and ends with something else than white space. *)
Lemma trim_head c r : trim (c :: r) = c :: r -> isWhiteSpace c = false.
Proof.
  intros Htrim. destruct (isWhiteSpace c) eqn:Hc; [| reflexivity]. exfalso.
  apply (f_equal (@length N)) in Htrim. unfold trim in Htrim.
  cbn [trimStart] in Htrim. rewrite Hc in Htrim.
  pose proof (trimEnd_length (trimStart r)). pose proof (trimStart_length r).
  cbn [length] in Htrim. lia.
Qed.

Lemma trimEnd_snoc_space y l :
  isWhiteSpace l = true -> trimEnd (y ++ [l]) = trimEnd y.
Proof.
  intros Hl. unfold trimEnd. rewrite rev_app_distr. cbn [rev app trimStart].
  now rewrite Hl.
Qed.

Lemma trim_last y l : trim (y ++ [l]) = y ++ [l] -> isWhiteSpace l = false.
Proof.
  intros Htrim. destruct (isWhiteSpace l) eqn:Hl; [| reflexivity]. exfalso.
  apply (f_equal (@length N)) in Htrim. unfold trim in Htrim.
  destruct (trimStart_suffix (y ++ [l])) as [pre Hpre].
  pose proof (trimStart_length (y ++ [l])) as Hlen.
  destruct (trimStart (y ++ [l])) as [| c t] eqn:Hts.
  - rewrite length_app in Htrim. simpl in Htrim. lia.
  - assert (Hend : exists z, c :: t = z ++ [l]).
    { destruct (@exists_last _ (c :: t)) as (z & x & Hz); [discriminate |].
      exists z. rewrite Hz in *. rewrite app_assoc in Hpre.
      apply app_inj_tail in Hpre as [_ ->]. reflexivity. }
    destruct Hend as [z Hz]. rewrite Hz in Htrim, Hlen.
    rewrite trimEnd_snoc_space in Htrim by exact Hl.
    pose proof (trimEnd_length z). rewrite !length_app in *. simpl in *. lia.
Qed.

Lemma trimEnd_last y l : isWhiteSpace l = false -> trimEnd (y ++ [l]) = y ++ [l].
Proof.
  intros Hl. unfold trimEnd. rewrite rev_app_distr. cbn [rev app trimStart].
  rewrite Hl. change (l :: rev y) with ([l] ++ rev y).
  now rewrite rev_app_distr, rev_involutive.
Qed.

(** X29: from the upstream title to artist and song.  A title
    'artist - song (tag)', with a tag the cleaning removes, is parsed into
    that artist and that song: the tag and the space before it are gone.
    With an empty song the ' - ' loses its second space to the trimming and
    the title is not split. *)
Theorem tagged_title_is_split artist song open inside close channel :
  artist <> [] ->
  song <> [] ->
  trim artist = artist ->
  trim song = song ->
  noOpenBracket artist ->
  noOpenBracket song ->
  indexOf (artist ++ [32; 45]%N) SEPARATOR = None ->
  isOpenBracket open = true ->
  isCloseBracket close = true ->
  noBracket inside ->
  occursIn [unitsOf "official"; unitsOf "music"; unitsOf "video"] inside = true \/
  occursIn [unitsOf "official"; unitsOf "video"] inside = true ->
  channel <> Some "live" ->
  channel <> Some "bumper" ->
  parseTitle (cleanTitle (artist ++ SEPARATOR ++ song ++ 32%N :: open :: inside ++ [close]))
             channel
  = ArtistSong artist song /\
  parseTitle (cleanTitle (artist ++ SEPARATOR ++ 32%N :: open :: inside ++ [close])) channel
  = TitleOnly (artist ++ [32; 45]%N).
Proof.
  intros Hartist Hsong Hta Hts Hoa Hos Hnone Hopen Hclose Hinside Hwords Hlive Hbumper.
  assert (Hsep : noOpenBracket SEPARATOR) by (repeat constructor).
  assert (Hspace : noOpenBracket [32%N]) by (repeat constructor).
  assert (Hch : match channel with
                | Some c => String.eqb c "live" || String.eqb c "bumper"
                | None => false
                end = false).
  { destruct channel as [c |]; [| reflexivity].
    destruct (String.eqb_spec c "live") as [-> | _]; [congruence |].
    destruct (String.eqb_spec c "bumper") as [-> | _]; [congruence | reflexivity]. }
  destruct artist as [| c r]; [congruence |].
  pose proof (trim_head c r Hta) as Hc.
  split.
  - destruct (@exists_last _ song Hsong) as (y & l & ->).
    pose proof (trim_last y l Hts) as Hl.
    replace ((c :: r) ++ SEPARATOR ++ (y ++ [l]) ++ 32%N :: open :: inside ++ [close])
      with (((c :: r) ++ SEPARATOR ++ (y ++ [l]) ++ [32%N]) ++ open :: inside ++ close :: [])
      by units_assoc.
    rewrite cleanTitle_tag; try assumption; [| | constructor].
    + rewrite app_nil_r.
      assert (Htrim : trim ((c :: r) ++ SEPARATOR ++ (y ++ [l]) ++ [32%N])
                      = (c :: r) ++ SEPARATOR ++ y ++ [l]).
      { unfold trim. cbn [app trimStart]. rewrite Hc.
        replace (c :: r ++ SEPARATOR ++ (y ++ [l]) ++ [32%N])
          with ((c :: r ++ SEPARATOR ++ y ++ [l]) ++ [32%N])
          by units_assoc.
        rewrite trimEnd_snoc_space by reflexivity.
        replace (c :: r ++ SEPARATOR ++ y ++ [l])
          with ((c :: r ++ SEPARATOR ++ y) ++ [l])
          by units_assoc.
        now apply trimEnd_last. }
      rewrite Htrim. now apply parseTitle_split_run.
    + apply noOpenBracket_app; [exact Hoa |]. apply noOpenBracket_app; [exact Hsep |].
      apply noOpenBracket_app; [exact Hos | exact Hspace].
  - replace ((c :: r) ++ SEPARATOR ++ 32%N :: open :: inside ++ [close])
      with (((c :: r) ++ SEPARATOR ++ [32%N]) ++ open :: inside ++ close :: [])
      by units_assoc.
    rewrite cleanTitle_tag; try assumption; [| | constructor].
    + rewrite app_nil_r.
      assert (Htrim : trim ((c :: r) ++ SEPARATOR ++ [32%N]) = (c :: r) ++ [32; 45]%N).
      { unfold trim. cbn [app trimStart]. rewrite Hc.
        change (SEPARATOR ++ [32%N]) with [32; 45; 32; 32]%N.
        replace (c :: r ++ [32; 45; 32; 32]%N)
          with (((c :: r ++ [32; 45]%N) ++ [32%N]) ++ [32%N])
          by units_assoc.
        rewrite !trimEnd_snoc_space by reflexivity.
        replace (c :: r ++ [32; 45]%N) with ((c :: r ++ [32%N]) ++ [45%N])
          by units_assoc.
        rewrite trimEnd_last by reflexivity. units_assoc. }
      rewrite Htrim. unfold parseTitle. rewrite Hch, Hnone.
      f_equal. rewrite <- Htrim. apply trim_idempotent.
    + apply noOpenBracket_app; [exact Hoa |]. apply noOpenBracket_app; [exact Hsep |].
      exact Hspace.
Qed.

Lemma tagged_title_is_split_witness :
  parseTitle (cleanTitle (unitsOf "Queen" ++ SEPARATOR ++ unitsOf "Bohemian Rhapsody"
                            ++ 32%N :: 40%N :: unitsOf "Official Video" ++ [41%N]))
             (Some "rock")
  = ArtistSong (unitsOf "Queen") (unitsOf "Bohemian Rhapsody") /\
  parseTitle (cleanTitle (unitsOf "Queen" ++ SEPARATOR
                            ++ 32%N :: 40%N :: unitsOf "Official Video" ++ [41%N]))
             (Some "rock")
  = TitleOnly (unitsOf "Queen" ++ [32; 45]%N).
Proof.
  apply (tagged_title_is_split (unitsOf "Queen") (unitsOf "Bohemian Rhapsody") 40%N
           (unitsOf "Official Video") 41%N (Some "rock")).
  - discriminate.
  - discriminate.
  - vm_compute. reflexivity.
  - vm_compute. reflexivity.
  - repeat constructor.
  - repeat constructor.
  - vm_compute. reflexivity.
  - reflexivity.
  - reflexivity.
  - repeat constructor.
  - right. vm_compute. reflexivity.
  - discriminate.
  - discriminate.
Defined.

(** ** The listing of a playlist, page by page *)

Lemma videosOfPage_fromSomePage api playlistId channel token items next :
  api playlistId token = Upstream.Page items next ->
  Forall (fromSomePage api playlistId channel) (Upstream.videosOfPage playlistId channel items).
Proof.
  intros Hpage. apply Forall_forall. intros v Hv. unfold Upstream.videosOfPage in Hv.
  change (map ?f ?l) with (f <$> l) in Hv.
  apply list_elem_of_fmap in Hv as (item & -> & Hitem).
  apply list_elem_of_filter in Hitem as [[Hdel Hpriv] Hitem].
  split; [reflexivity |]. exists token, items, next, item. now repeat split.
Qed.

Lemma fetchPages_run api playlistId maxVideos channel k :
  forall steps allVideos token,
    pagesEnd api playlistId k token = true ->
    k <= steps ->
    exists vs,
      Upstream.fetchPages api steps playlistId maxVideos channel allVideos token = Some vs /\
      (Forall (fromSomePage api playlistId channel) allVideos ->
       Forall (fromSomePage api playlistId channel) vs) /\
      (forall n, maxVideos = Some (S n) -> length allVideos < S n -> length vs <= S n) /\
      (api playlistId token = Upstream.PageFailed \/ api playlistId token = Upstream.PageWithoutItems ->
       vs = allVideos).
Proof.
  induction k as [| k IH]; intros steps allVideos token Hend Hsteps; [discriminate Hend |].
  destruct steps as [| steps]; [lia |].
  cbn [pagesEnd] in Hend. cbn [Upstream.fetchPages].
  destruct (api playlistId token) as [| | items next] eqn:Hpage.
  - exists allVideos. split; [reflexivity |]. split; [tauto |]. split; [intros; lia | tauto].
  - exists allVideos. split; [reflexivity |]. split; [tauto |]. split; [intros; lia | tauto].
  - pose proof (videosOfPage_fromSomePage api playlistId channel token items next Hpage)
      as Hnew.
    set (allVideos' := allVideos ++ Upstream.videosOfPage playlistId channel items) in *.
    assert (Hall : Forall (fromSomePage api playlistId channel) allVideos ->
                   Forall (fromSomePage api playlistId channel) allVideos').
    { intros Hold. apply Forall_app. now split. }
    assert (Hpaged : forall vs : list Upstream.FetchedVideo,
              Upstream.Page items next = Upstream.PageFailed \/ Upstream.Page items next = Upstream.PageWithoutItems ->
              vs = allVideos).
    { intros vs [H | H]; discriminate H. }
    assert (Hnext : truthy next = true ->
              exists vs,
                Upstream.fetchPages api steps playlistId maxVideos channel allVideos' next = Some vs /\
                (Forall (fromSomePage api playlistId channel) allVideos ->
                 Forall (fromSomePage api playlistId channel) vs) /\
                (forall n, maxVideos = Some (S n) -> length allVideos' < S n ->
                           length vs <= S n)).
    { intros Htruthy. rewrite Htruthy in Hend.
      destruct (IH steps allVideos' next Hend ltac:(lia)) as (vs & Hrun & Hfrom & Hlimit & _).
      exists vs. split; [exact Hrun |]. split; [tauto | exact Hlimit]. }
    destruct maxVideos as [[| n] |].
    + destruct (truthy next) eqn:Htruthy.
      * destruct (Hnext eq_refl) as (vs & Hrun & Hfrom & _).
        exists vs. split; [exact Hrun |]. split; [exact Hfrom |].
        split; [discriminate | apply Hpaged].
      * exists allVideos'. split; [reflexivity |]. split; [exact Hall |].
        split; [discriminate | apply Hpaged].
    + destruct (S n <=? length allVideos') eqn:Hfull.
      * exists (take (S n) allVideos'). split; [reflexivity |]. split; [| split].
        -- intros Hold. apply Forall_take. now apply Hall.
        -- intros m Hm _. injection Hm as <-. rewrite length_take. lia.
        -- apply Hpaged.
      * apply Nat.leb_gt in Hfull. destruct (truthy next) eqn:Htruthy.
        -- destruct (Hnext eq_refl) as (vs & Hrun & Hfrom & Hlimit).
           exists vs. split; [exact Hrun |]. split; [exact Hfrom |]. split; [| apply Hpaged].
           intros m Hm _. apply Hlimit; [exact Hm |]. injection Hm as <-. exact Hfull.
        -- exists allVideos'. split; [reflexivity |]. split; [exact Hall |].
           split; [| apply Hpaged].
           intros m Hm _. injection Hm as <-. lia.
    + destruct (truthy next) eqn:Htruthy.
      * destruct (Hnext eq_refl) as (vs & Hrun & Hfrom & _).
        exists vs. split; [exact Hrun |]. split; [exact Hfrom |].
        split; [discriminate | apply Hpaged].
      * exists allVideos'. split; [reflexivity |]. split; [exact Hall |].
        split; [discriminate | apply Hpaged].
Qed.

(** X30: the listing of a playlist, page by page.  Without an API key
    [Upstream.fetchPlaylistItems] rejects.  With one, when the chain of pages ends
    within the requests the run may make, it returns and never rejects: at
    most [maxVideos] videos when a limit is set, each made from an item of
    some page that is neither a deleted nor a private video, with the
    cleaned and parsed title; a first request that fails, or an answer
    without items, gives the empty list. *)
Theorem fetchPlaylistItems_pages API_KEY api env playlistId maxVideos channel k w :
  pagesEnd api playlistId k None = true ->
  k <= fuel env ->
  (truthy API_KEY = false ->
   Upstream.fetchPlaylistItems API_KEY api env playlistId maxVideos channel w
   = (Throw "YOUTUBE_API_KEY not set", w)) /\
  (truthy API_KEY = true ->
   exists vs,
     Upstream.fetchPlaylistItems API_KEY api env playlistId maxVideos channel w = (Ok vs, w) /\
     (forall n, maxVideos = Some (S n) -> length vs <= S n) /\
     Forall (fromSomePage api playlistId channel) vs /\
     (api playlistId None = Upstream.PageFailed \/ api playlistId None = Upstream.PageWithoutItems ->
      vs = [])).
Proof.
  intros Hend Hfuel. unfold Upstream.fetchPlaylistItems. split.
  - intros ->. reflexivity.
  - intros ->. cbn [negb].
    destruct (fetchPages_run api playlistId maxVideos channel k (fuel env) [] None Hend Hfuel)
      as (vs & Hrun & Hfrom & Hlimit & Hfail).
    exists vs. rewrite Hrun. split; [reflexivity |]. split; [| split].
    + intros n Hn. apply (Hlimit n Hn). simpl. lia.
    + apply Hfrom. constructor.
    + exact Hfail.
Qed.

Lemma fetchPlaylistItems_pages_witness :
  (truthy (Some "key") = false ->
   Upstream.fetchPlaylistItems (Some "key") onePageApi plainEnv "PL300C32DA374417AA"
                               (Some 50) (Some "rock") emptyWorld
   = (Throw "YOUTUBE_API_KEY not set", emptyWorld)) /\
  (truthy (Some "key") = true ->
   exists vs,
     Upstream.fetchPlaylistItems (Some "key") onePageApi plainEnv "PL300C32DA374417AA"
                                 (Some 50) (Some "rock") emptyWorld = (Ok vs, emptyWorld) /\
     (forall n, Some 50 = Some (S n) -> length vs <= S n) /\
     Forall (fromSomePage onePageApi "PL300C32DA374417AA" (Some "rock")) vs /\
     (onePageApi "PL300C32DA374417AA" None = Upstream.PageFailed \/
      onePageApi "PL300C32DA374417AA" None = Upstream.PageWithoutItems ->
      vs = [])).
Proof.
  apply (fetchPlaylistItems_pages (Some "key") onePageApi plainEnv "PL300C32DA374417AA"
           (Some 50) (Some "rock") 1 emptyWorld).
  - reflexivity.
  - vm_compute. lia.
Defined.

Example listing_of_one_page :
  Upstream.fetchPlaylistItems (Some "key") onePageApi plainEnv "PL300C32DA374417AA"
                              (Some 50) (Some "rock") emptyWorld
  = (Ok [ Upstream.mkFetchedVideo "fJ9rUzIMcZQ" "PL300C32DA374417AA"
            (ArtistSong (unitsOf "Queen") (unitsOf "Bohemian Rhapsody"));
          Upstream.mkFetchedVideo "pkcJEvMcnEg" "PL300C32DA374417AA"
            (ArtistSong (unitsOf "Nirvana") (unitsOf "Lithium")) ],
     emptyWorld).
Proof. vm_compute. reflexivity. Qed.
